(** * SpiceDB developer tooling: the sandbox builder, the error classifier
      and the found-subject model.

    A shallow embedding of [pkg/development/devcontext.go] (package
    [development]), of the found-subject file of package
    [developmentmembership] and of the namespace storage of package
    [postgres], with the properties their specification states and further
    properties read off the code.
    The evaluation scope ([context.Context]) that the Go functions pass along
    carries nothing the properties depend on, and is left out.

    Conventions of the embedding
    - a Go [error] value is a chain of nodes (what [Unwrap] walks); a possibly
      nil error is an [option error];
    - a Go [panic] is the [Panicked] case of [Outcome];
    - collaborators that live outside the embedded files (the schema compiler,
      the type system, the validators generated for the protocol messages, the
      injected failures of the storage engine and of the dispatcher) are the
      fields of the class [Environment];
    - the storage engine keeps, next to its contents, the journal of the
      operations performed on it, so that "written", "committed" and "closed"
      are observable. *)

From Stdlib Require Import String Ascii List Bool NArith Arith Lia.
From Stdlib Require Import Permutation Sorted OrderedTypeEx.
Import ListNotations.

Local Open Scope string_scope.
Local Open Scope list_scope.

(* ================================================================== *)
(** ** Panics *)

Inductive Outcome (A : Type) : Type :=
| Returned (a : A)
| Panicked (msg : string).

Arguments Returned {A} a.
Arguments Panicked {A} msg.

Definition bind {A B : Type} (m : Outcome A) (k : A -> Outcome B) : Outcome B :=
  match m with
  | Returned a => k a
  | Panicked msg => Panicked msg
  end.

Notation "x <- m ;; k" := (bind m (fun x => k))
  (at level 61, m at next level, right associativity).
Notation "' p <- m ;; k" := (bind m (fun x => match x with p => k end))
  (at level 61, p pattern, m at next level, right associativity).

Definition returns {A : Type} (m : Outcome A) : bool :=
  match m with Returned _ => true | Panicked _ => false end.

(* ================================================================== *)
(** ** Protocol messages ([core], [developer/v1]) *)

Record ObjectAndRelation : Type := ONR {
  Namespace : string;
  ObjectId : string;
  Relation : string
}.

Definition ONR_eqb (a b : ObjectAndRelation) : bool :=
  String.eqb (Namespace a) (Namespace b)
  && String.eqb (ObjectId a) (ObjectId b)
  && String.eqb (Relation a) (Relation b).

Record RelationTuple : Type := {
  ResourceAndRelation : ObjectAndRelation;
  Subject : ObjectAndRelation
}.

Definition RelationTuple_eqb (a b : RelationTuple) : bool :=
  ONR_eqb (ResourceAndRelation a) (ResourceAndRelation b)
  && ONR_eqb (Subject a) (Subject b).

Inductive RelationTupleUpdate_Operation : Type := CREATE | TOUCH | DELETE.

Record RelationTupleUpdate : Type := {
  Operation : RelationTupleUpdate_Operation;
  Tuple : RelationTuple
}.

Record CaveatDefinition : Type := {
  CaveatDefinition_Name : string;
  CaveatDefinition_Body : string
}.

Record NamespaceDefinition : Type := {
  NamespaceDefinition_Name : string;
  (** relation name, and the object type allowed as its subject *)
  NamespaceDefinition_Relation : list (string * string)
}.

(** [compiler.CompiledSchema]; [OrderedDefinitions] only sizes a buffer in the
    code below and is left out. *)
Record compiler_CompiledSchema : Type := {
  ObjectDefinitions : list NamespaceDefinition;
  CaveatDefinitions : list CaveatDefinition
}.

Record RequestContext : Type := {
  Schema : string;
  Relationships : list RelationTuple
}.

Inductive DeveloperError_Source : Type :=
| UNKNOWN_SOURCE | SCHEMA | RELATIONSHIP | VALIDATION_YAML | CHECK_WATCH | ASSERTION.

Inductive DeveloperError_ErrorKind : Type :=
| UNKNOWN_KIND | PARSE_ERROR | SCHEMA_ISSUE
| UNKNOWN_OBJECT_TYPE | UNKNOWN_RELATION | MAXIMUM_RECURSION.

Record DeveloperError : Type := {
  Message : string;
  Line : N;
  Column : N;
  Source : DeveloperError_Source;
  Kind : DeveloperError_ErrorKind;
  Context : string
}.

Record DeveloperErrors : Type := { InputErrors : list DeveloperError }.

(** Conversion [uint32(x)] of a 64-bit unsigned value. *)
Definition uint32 (x : N) : N := (x mod 2 ^ 32)%N.

(* ================================================================== *)
(** ** Go errors *)

Inductive codes : Type :=
| Canceled | InvalidArgument | OutOfRange | FailedPrecondition | Internal.

(** The dynamic type of one node of an error chain: the types (and the one
    sentinel value, [dispatch.ErrMaxDepth]) that the code tells apart. *)
Inductive ErrorType : Type :=
| ErrMaxDepth
| UnknownNamespaceError
| UnknownRelationError
| invalidRelationError
| ErrRequestCanceled
| ErrInvalidArgument
| ErrInvalidRevision
| ErrRelationMissingTypeInfo
| ErrAlwaysFail
| ErrorWithSource (SourceCodeString : string) (LineNumber ColumnPosition : N)
| statusError (code : codes)
| errorString.

Inductive error : Type :=
| errNew (ty : ErrorType) (msg : string)
| errWrap (ty : ErrorType) (msg : string) (inner : error).

Definition typeOf (e : error) : ErrorType :=
  match e with errNew ty _ | errWrap ty _ _ => ty end.

(** [err.Error()]. Go panics when the receiver is nil; every call below is
    guarded by a test that a nil error does not pass. *)
Definition Error (err : option error) : string :=
  match err with
  | Some (errNew _ msg) | Some (errWrap _ msg _) => msg
  | None => ""
  end.

(** The [%s] verb of [fmt] applied to an error. *)
Definition fmt_s (err : option error) : string :=
  match err with
  | Some _ => Error err
  | None => "%!s(<nil>)"
  end.

(** The first node of the chain whose dynamic type satisfies [p]. *)
Fixpoint chainFind (p : ErrorType -> bool) (e : error) : option ErrorType :=
  match e with
  | errNew ty _ => if p ty then Some ty else None
  | errWrap ty _ inner => if p ty then Some ty else chainFind p inner
  end.

(** [errors.Is] and [errors.As], for a target described by [p]. Both report
    false on a nil error. *)
Definition errors_As (err : option error) (p : ErrorType -> bool) : bool :=
  match err with
  | None => false
  | Some e => match chainFind p e with Some _ => true | None => false end
  end.

Definition errors_Is (err : option error) (p : ErrorType -> bool) : bool :=
  errors_As err p.

Definition isErrMaxDepth (ty : ErrorType) : bool :=
  match ty with ErrMaxDepth => true | _ => false end.
Definition isUnknownNamespaceError (ty : ErrorType) : bool :=
  match ty with UnknownNamespaceError => true | _ => false end.
Definition isUnknownRelationError (ty : ErrorType) : bool :=
  match ty with UnknownRelationError => true | _ => false end.
Definition isInvalidRelationError (ty : ErrorType) : bool :=
  match ty with invalidRelationError => true | _ => false end.
Definition isErrRequestCanceled (ty : ErrorType) : bool :=
  match ty with ErrRequestCanceled => true | _ => false end.
Definition isErrInvalidArgument (ty : ErrorType) : bool :=
  match ty with ErrInvalidArgument => true | _ => false end.
Definition isErrInvalidRevision (ty : ErrorType) : bool :=
  match ty with ErrInvalidRevision => true | _ => false end.
Definition isErrRelationMissingTypeInfo (ty : ErrorType) : bool :=
  match ty with ErrRelationMissingTypeInfo => true | _ => false end.
Definition isErrAlwaysFail (ty : ErrorType) : bool :=
  match ty with ErrAlwaysFail => true | _ => false end.
Definition isErrorWithSource (ty : ErrorType) : bool :=
  match ty with ErrorWithSource _ _ _ => true | _ => false end.

(** [status.Errorf(code, format, args...)]: a fresh status error; none of the
    codes used here is [codes.OK], so the result is never nil. *)
Definition status_Errorf (c : codes) (msg : string) : option error :=
  Some (errNew (statusError c) msg).

Record SourceInfo : Type := {
  SourceCodeString_of : string;
  LineNumber_of : N;
  ColumnPosition_of : N
}.

(** Modelled from the spec: [spiceerrors.AsErrorWithSource] (not among the
    sources) finds the source location of a failure that is traceable to
    source text: the error-with-source node of the chain, if there is one. *)
Definition AsErrorWithSource (err : option error) : option SourceInfo :=
  match err with
  | None => None
  | Some e =>
      match chainFind isErrorWithSource e with
      | Some (ErrorWithSource s l c) =>
          Some {| SourceCodeString_of := s; LineNumber_of := l; ColumnPosition_of := c |}
      | _ => None
      end
  end.

(** One line written through [log.Ctx(ctx).Err(err).Msg(msg)]. *)
Record LogEntry : Type := { logErr : option error; logMsg : string }.

(* ================================================================== *)
(** ** The error classifier (devcontext.go) *)

Definition rewriteACLError (err : option error) : option error * list LogEntry :=
  let canceled := (status_Errorf Canceled ("request canceled: " ++ fmt_s err), []) in
  if errors_As err isUnknownNamespaceError then canceled        (* fallthrough *)
  else if errors_As err isUnknownRelationError then canceled    (* fallthrough *)
  else if errors_As err isErrRequestCanceled then canceled
  else if errors_As err isErrInvalidArgument then
    (status_Errorf InvalidArgument (fmt_s err), [])
  else if errors_As err isErrInvalidRevision then
    (status_Errorf OutOfRange ("invalid zookie: " ++ fmt_s err), [])
  else if errors_As err isErrRelationMissingTypeInfo then
    (status_Errorf FailedPrecondition ("failed precondition: " ++ fmt_s err), [])
  else if errors_As err isErrAlwaysFail then
    (status_Errorf Internal ("internal error: " ++ fmt_s err),
     [ {| logErr := err; logMsg := "internal graph error in devcontext" |} ])
  else
    if errors_As err isInvalidRelationError then
      (status_Errorf InvalidArgument (fmt_s err), [])
    else
      (err, [ {| logErr := err; logMsg := "unexpected graph error in devcontext" |} ]).

Definition distinguishGraphError (dispatchError : option error)
    (source : DeveloperError_Source) (line column : N) (context : string)
  : option DeveloperError * option error * list LogEntry :=
  let developerError kind :=
    {| Message := Error dispatchError; Source := source; Kind := kind;
       Line := line; Column := column; Context := context |} in
  if errors_Is dispatchError isErrMaxDepth then
    (Some (developerError MAXIMUM_RECURSION), None, [])
  else if errors_As dispatchError isUnknownNamespaceError then
    (Some (developerError UNKNOWN_OBJECT_TYPE), None, [])
  else if errors_As dispatchError isUnknownRelationError then
    (Some (developerError UNKNOWN_RELATION), None, [])
  else if errors_As dispatchError isInvalidRelationError then
    (Some (developerError UNKNOWN_RELATION), None, [])
  else
    let '(wireErr, logged) := rewriteACLError dispatchError in
    (None, wireErr, logged).

(** [DistinguishGraphError] only takes the evaluation scope out of the
    sandbox and calls the function above. *)
Definition DistinguishGraphError := distinguishGraphError.

(* ================================================================== *)
(** ** Storage: the in-memory datastore behind the sandbox *)

Inductive datastore_Revision : Type := NoRevision | revisionAt (n : N).

(** What the journal of a datastore records. *)
Inductive StoreOp : Type :=
| OpWriteCaveats (defs : list CaveatDefinition)
| OpWriteNamespaces (def : NamespaceDefinition)
| OpWriteRelationships (updates : list RelationTupleUpdate)
| OpCommit (rev : datastore_Revision)
| OpRollback
| OpClose.

(** The state a read-write transaction works on. *)
Record ReadWriteTransaction : Type := {
  txCaveats : list CaveatDefinition;
  txNamespaces : list NamespaceDefinition;
  txRelationships : list RelationTuple;
  txJournal : list StoreOp
}.

Record datastore_Datastore : Type := {
  storedCaveats : list CaveatDefinition;
  storedNamespaces : list NamespaceDefinition;
  storedRelationships : list RelationTuple;
  checkpoint : N;
  journal : list StoreOp
}.

(** [graph.NewLocalOnlyDispatcher]: a dispatcher bounded in depth. *)
Record dispatch_Dispatcher : Type := {
  maxDepth : N;
  dispatcherClosed : nat
}.

(** ** Collaborators outside the embedded files *)

Class Environment : Type := {
  TypeSystem : Type;
  (** [development.CompileSchema]; the schema pointer is read only when both
      errors are nil *)
  CompileSchema : string -> compiler_CompiledSchema * option DeveloperError * option error;
  (** [namespace.ValidateCaveatDefinition] *)
  ValidateCaveatDefinition : CaveatDefinition -> option error;
  (** [namespace.NewNamespaceTypeSystem], given the definitions the resolver
      was seeded with; [inr] is a non-nil error *)
  NewNamespaceTypeSystem :
    NamespaceDefinition -> list NamespaceDefinition * list CaveatDefinition ->
    TypeSystem + error;
  (** [ts.Validate(ctx)], its error result *)
  TypeSystem_Validate : TypeSystem -> option error;
  (** [tpl.Validate()] *)
  RelationTuple_Validate : RelationTuple -> option error;
  (** [validateTupleWrite(ctx, tpl, rwt)] *)
  validateTupleWrite : RelationTuple -> ReadWriteTransaction -> option error;
  (** [tuple.String] *)
  tuple_String : RelationTuple -> string;
  (** [requestContext.Validate()] *)
  RequestContext_Validate : RequestContext -> option error;
  (** failures the storage engine and the dispatcher may report *)
  NewMemdbDatastore_failure : option error;
  WriteCaveats_failure : ReadWriteTransaction -> list CaveatDefinition -> option error;
  WriteNamespaces_failure : ReadWriteTransaction -> NamespaceDefinition -> option error;
  WriteRelationships_failure :
    ReadWriteTransaction -> list RelationTupleUpdate -> option error;
  Datastore_Close_failure : datastore_Datastore -> option error;
  Dispatcher_Close_failure : dispatch_Dispatcher -> option error
}.

(** Modelled from the spec: [tuple.Touch] (not among the sources) makes the
    upsert operation of a relationship. *)
Definition Touch (tpl : RelationTuple) : RelationTupleUpdate :=
  {| Operation := TOUCH; Tuple := tpl |}.

(** Modelled from the spec: how the storage collaborator applies one update
    of a batch; an upsert adds the relationship unless it is there. *)
Definition removeTuple (tpl : RelationTuple) (l : list RelationTuple) : list RelationTuple :=
  filter (fun t => negb (RelationTuple_eqb t tpl)) l.

(** Modelled from the spec: see [removeTuple]. *)
Definition applyUpdate (l : list RelationTuple) (u : RelationTupleUpdate)
  : list RelationTuple :=
  match Operation u with
  | CREATE | TOUCH =>
      if existsb (RelationTuple_eqb (Tuple u)) l then l else l ++ [Tuple u]
  | DELETE => removeTuple (Tuple u) l
  end.

(** A datastore as [memdb.NewMemdbDatastore] hands it out. *)
Definition emptyStore : datastore_Datastore :=
  {| storedCaveats := []; storedNamespaces := []; storedRelationships := [];
     checkpoint := 0; journal := [] |}.

Section Storage.
Context {E : Environment}.

(** Modelled from the spec: the storage collaborator ([memdb], not among the
    sources). A transactional interface with [readWriteTransaction(fn)],
    [writeCaveats(list)], [writeNamespaces(def)], [writeRelationships(updates)]
    and [close()], producing a consistency checkpoint per committed
    transaction. A write that fails changes nothing. *)
Definition WriteCaveats (rwt : ReadWriteTransaction) (defs : list CaveatDefinition)
  : ReadWriteTransaction * option error :=
  match WriteCaveats_failure rwt defs with
  | Some err => (rwt, Some err)
  | None =>
      ({| txCaveats := txCaveats rwt ++ defs;
          txNamespaces := txNamespaces rwt;
          txRelationships := txRelationships rwt;
          txJournal := txJournal rwt ++ [OpWriteCaveats defs] |}, None)
  end.

(** Modelled from the spec: [writeNamespaces(def)] of the storage
    collaborator. *)
Definition WriteNamespaces (rwt : ReadWriteTransaction) (def : NamespaceDefinition)
  : ReadWriteTransaction * option error :=
  match WriteNamespaces_failure rwt def with
  | Some err => (rwt, Some err)
  | None =>
      ({| txCaveats := txCaveats rwt;
          txNamespaces := txNamespaces rwt ++ [def];
          txRelationships := txRelationships rwt;
          txJournal := txJournal rwt ++ [OpWriteNamespaces def] |}, None)
  end.

(** Modelled from the spec: [writeRelationships(updates)] of the storage
    collaborator; the updates of a batch are applied in order. *)
Definition WriteRelationships (rwt : ReadWriteTransaction)
    (updates : list RelationTupleUpdate) : ReadWriteTransaction * option error :=
  match WriteRelationships_failure rwt updates with
  | Some err => (rwt, Some err)
  | None =>
      ({| txCaveats := txCaveats rwt;
          txNamespaces := txNamespaces rwt;
          txRelationships := fold_left applyUpdate updates (txRelationships rwt);
          txJournal := txJournal rwt ++ [OpWriteRelationships updates] |}, None)
  end.

(** Modelled from the spec: a transaction of the storage collaborator starts
    from the committed contents. *)
Definition beginTx (ds : datastore_Datastore) : ReadWriteTransaction :=
  {| txCaveats := storedCaveats ds; txNamespaces := storedNamespaces ds;
     txRelationships := storedRelationships ds; txJournal := [] |}.

(** Modelled from the spec: [readWriteTransaction(fn)] of the storage
    collaborator. The transaction is committed, at a new checkpoint, when
    [fn] returns no error; when [fn] returns an error the transaction is
    rolled back, nothing it wrote is kept, and the error is handed back with
    [NoRevision]. [V] is what [fn] leaves in the variables it closes over. *)
Definition ReadWriteTx {V : Type} (ds : datastore_Datastore)
    (fn : ReadWriteTransaction -> ReadWriteTransaction * V * option error)
  : datastore_Datastore * V * datastore_Revision * option error :=
  let '(rwt, s, ferr) := fn (beginTx ds) in
  match ferr with
  | Some err =>
      ({| storedCaveats := storedCaveats ds; storedNamespaces := storedNamespaces ds;
          storedRelationships := storedRelationships ds; checkpoint := checkpoint ds;
          journal := journal ds ++ txJournal rwt ++ [OpRollback] |},
       s, NoRevision, Some err)
  | None =>
      let rev := revisionAt (checkpoint ds + 1) in
      ({| storedCaveats := txCaveats rwt; storedNamespaces := txNamespaces rwt;
          storedRelationships := txRelationships rwt; checkpoint := checkpoint ds + 1;
          journal := journal ds ++ txJournal rwt ++ [OpCommit rev] |},
       s, rev, None)
  end.

(** Modelled from the spec: [close()] of the storage collaborator. *)
Definition Datastore_Close (ds : datastore_Datastore) : datastore_Datastore * option error :=
  ({| storedCaveats := storedCaveats ds; storedNamespaces := storedNamespaces ds;
      storedRelationships := storedRelationships ds; checkpoint := checkpoint ds;
      journal := journal ds ++ [OpClose] |},
   Datastore_Close_failure ds).

(** Modelled from the spec: [memdb.NewMemdbDatastore(0, 0, DisableGC)] makes
    a fresh, isolated storage instance, or fails. *)
Definition NewMemdbDatastore : option datastore_Datastore * option error :=
  match NewMemdbDatastore_failure with
  | Some err => (None, Some err)
  | None => (Some emptyStore, None)
  end.

(** Modelled from the spec: [graph.NewLocalOnlyDispatcher] (not among the
    sources) makes a depth-bounded dispatcher. *)
Definition NewLocalOnlyDispatcher (depth : N) : dispatch_Dispatcher :=
  {| maxDepth := depth; dispatcherClosed := 0 |}.

(** Modelled from the spec: releasing the dispatcher may fail. *)
Definition Dispatcher_Close (d : dispatch_Dispatcher) : dispatch_Dispatcher * option error :=
  ({| maxDepth := maxDepth d; dispatcherClosed := S (dispatcherClosed d) |},
   Dispatcher_Close_failure d).

End Storage.

(* ================================================================== *)
(** ** The sandbox builder (devcontext.go) *)

(** [DevContext]; the evaluation scope [Ctx] carries no data of interest.
    [None] in [Datastore] or [Dispatcher] is a nil interface value. *)
Record DevContext : Type := {
  Datastore : option datastore_Datastore;
  Revision : datastore_Revision;
  CompiledSchema : compiler_CompiledSchema;
  Dispatcher : option dispatch_Dispatcher
}.

Definition isNil {A : Type} (x : option A) : bool :=
  match x with None => true | Some _ => false end.

Definition notNil {A : Type} (x : option A) : bool := negb (isNil x).

(** What a caller of [Dispose] can observe, in order. *)
Inductive Event : Type :=
| EvDispatcherClose
| EvDatastoreClose
| EvLog (entry : LogEntry).

Section Development.
Context {E : Environment}.

(** The developer error that [loadCompiled] builds, at each of its three
    places, from a validation error and the name of the definition. *)
Definition schemaIssue (verr : option error) (name : string) : DeveloperError :=
  match AsErrorWithSource verr with
  | Some errWithSource =>
      {| Message := Error verr;
         Kind := SCHEMA_ISSUE;
         Source := SCHEMA;
         Context := SourceCodeString_of errWithSource;
         Line := uint32 (LineNumber_of errWithSource);
         Column := uint32 (ColumnPosition_of errWithSource) |}
  | None =>
      {| Message := Error verr;
         Kind := SCHEMA_ISSUE;
         Source := SCHEMA;
         Context := name;
         Line := 0;
         Column := 0 |}
  end.

(** The loop over [compiled.CaveatDefinitions]; a non-nil error in the result
    is the early [return errors, err]. *)
Fixpoint loadCaveats (defs : list CaveatDefinition) (rwt : ReadWriteTransaction)
    (errors : list DeveloperError)
  : ReadWriteTransaction * list DeveloperError * option error :=
  match defs with
  | [] => (rwt, errors, None)
  | caveatDef :: rest =>
      match ValidateCaveatDefinition caveatDef with
      | None =>
          match WriteCaveats rwt [caveatDef] with
          | (rwt', Some err) => (rwt', errors, Some err)
          | (rwt', None) => loadCaveats rest rwt' errors
          end
      | Some cverr =>
          loadCaveats rest rwt
            (errors ++ [schemaIssue (Some cverr) (CaveatDefinition_Name caveatDef)])
      end
  end.

(** The loop over [compiled.ObjectDefinitions]. *)
Fixpoint loadNamespaces (resolver : list NamespaceDefinition * list CaveatDefinition)
    (defs : list NamespaceDefinition) (rwt : ReadWriteTransaction)
    (errors : list DeveloperError)
  : ReadWriteTransaction * list DeveloperError * option error :=
  match defs with
  | [] => (rwt, errors, None)
  | nsDef :: rest =>
      match NewNamespaceTypeSystem nsDef resolver with
      | inr terr =>
          loadNamespaces resolver rest rwt
            (errors ++ [schemaIssue (Some terr) (NamespaceDefinition_Name nsDef)])
      | inl ts =>
          match TypeSystem_Validate ts with
          | None =>
              match WriteNamespaces rwt nsDef with
              | (rwt', Some err) => (rwt', errors, Some err)
              | (rwt', None) => loadNamespaces resolver rest rwt' errors
              end
          | Some tverr =>
              loadNamespaces resolver rest rwt
                (errors ++ [schemaIssue (Some tverr) (NamespaceDefinition_Name nsDef)])
          end
      end
  end.

Definition loadCompiled (compiled : compiler_CompiledSchema) (rwt : ReadWriteTransaction)
  : ReadWriteTransaction * list DeveloperError * option error :=
  let resolver := (ObjectDefinitions compiled, CaveatDefinitions compiled) in
  match loadCaveats (CaveatDefinitions compiled) rwt [] with
  | (rwt', errors, Some err) => (rwt', errors, Some err)
  | (rwt', errors, None) =>
      loadNamespaces resolver (ObjectDefinitions compiled) rwt' errors
  end.

(** How the loop of [loadTuples] ends: by [return devErrors, wireErr] from
    inside it, or by running to the end of the slice. *)
Inductive TupleScan : Type :=
| scanReturned (devErrors : list DeveloperError) (wireErr : option error)
    (logged : list LogEntry)
| scanFinished (devErrors : list DeveloperError) (updates : list RelationTupleUpdate)
    (logged : list LogEntry).

Fixpoint scanTuples (tuples : list RelationTuple) (rwt : ReadWriteTransaction)
    (devErrors : list DeveloperError) (updates : list RelationTupleUpdate)
    (logged : list LogEntry) : TupleScan :=
  match tuples with
  | [] => scanFinished devErrors updates logged
  | tpl :: rest =>
      match RelationTuple_Validate tpl with
      | Some verr =>
          scanTuples rest rwt
            (devErrors ++ [ {| Message := Error (Some verr);
                               Source := RELATIONSHIP;
                               Kind := PARSE_ERROR;
                               Context := tuple_String tpl;
                               Line := 0;
                               Column := 0 |} ])
            updates logged
      | None =>
          match validateTupleWrite tpl rwt with
          | Some err =>
              match distinguishGraphError (Some err) RELATIONSHIP 0 0 (tuple_String tpl) with
              | (Some devErr, _, lg) =>
                  scanTuples rest rwt (devErrors ++ [devErr]) updates (logged ++ lg)
              | (None, wireErr, lg) => scanReturned devErrors wireErr (logged ++ lg)
              end
          | None => scanTuples rest rwt devErrors (updates ++ [Touch tpl]) logged
          end
      end
  end.

Definition loadTuples (tuples : list RelationTuple) (rwt : ReadWriteTransaction)
  : ReadWriteTransaction * list DeveloperError * option error * list LogEntry :=
  match scanTuples tuples rwt [] [] [] with
  | scanReturned devErrors wireErr logged => (rwt, devErrors, wireErr, logged)
  | scanFinished devErrors updates logged =>
      let '(rwt', err) := WriteRelationships rwt updates in
      (rwt', devErrors, err, logged)
  end.

(** The function handed to [ReadWriteTx]; next to the transaction and its
    error it yields what it assigns to the captured [inputErrors], and what
    it logged. *)
Definition loadInTransaction (compiled : compiler_CompiledSchema)
    (requestContext : RequestContext) (rwt : ReadWriteTransaction)
  : ReadWriteTransaction * (list DeveloperError * list LogEntry) * option error :=
  let '(rwt1, inputErrors, err) := loadCompiled compiled rwt in
  if notNil err || (0 <? List.length inputErrors)%nat then
    (rwt1, (inputErrors, []), err)
  else
    let '(rwt2, inputErrors, err, logged) := loadTuples (Relationships requestContext) rwt1 in
    if notNil err || (0 <? List.length inputErrors)%nat then
      (rwt2, (inputErrors, logged), err)
    else
      (rwt2, (inputErrors, logged), None).

(** The result of [newDevContextWithDatastore], with the datastore as the
    call leaves it and the lines logged. *)
Record Built : Type := {
  store : datastore_Datastore;
  dctx : option DevContext;
  devErrs : option DeveloperErrors;
  nerr : option error;
  logged : list LogEntry
}.

Definition newDevContextWithDatastore (requestContext : RequestContext)
    (ds : datastore_Datastore) : Built :=
  let '(compiled, devError, err) := CompileSchema (Schema requestContext) in
  if notNil err then
    {| store := ds; dctx := None; devErrs := None; nerr := err; logged := [] |}
  else
  match devError with
  | Some devError =>
      {| store := ds; dctx := None;
         devErrs := Some {| InputErrors := [devError] |}; nerr := None; logged := [] |}
  | None =>
      let '(ds', (inputErrors, lg), currentRevision, err) :=
        ReadWriteTx ds (loadInTransaction compiled requestContext) in
      if notNil err || (0 <? List.length inputErrors)%nat then
        {| store := ds'; dctx := None;
           devErrs := Some {| InputErrors := inputErrors |}; nerr := err; logged := lg |}
      else
        match RequestContext_Validate requestContext with
        | Some verr =>
            {| store := ds'; dctx := None; devErrs := None; nerr := Some verr;
               logged := lg |}
        | None =>
            {| store := ds';
               dctx := Some {| Datastore := Some ds';
                               CompiledSchema := compiled;
                               Revision := currentRevision;
                               Dispatcher := Some (NewLocalOnlyDispatcher 10) |};
               devErrs := None; nerr := None; logged := lg |}
        end
  end.

(** The result of [NewDevContext]: its three results, the datastore it
    created (if it got that far) as it leaves it, and the lines logged. *)
Record Sandbox : Type := {
  created : option datastore_Datastore;
  sandbox : option DevContext;
  developerErrors : option DeveloperErrors;
  failure : option error;
  sandboxLog : list LogEntry
}.

Definition NewDevContext (requestContext : RequestContext) : Sandbox :=
  match NewMemdbDatastore with
  | (_, Some err) =>
      {| created := None; sandbox := None; developerErrors := None;
         failure := Some err; sandboxLog := [] |}
  | (None, None) =>
      {| created := None; sandbox := None; developerErrors := None;
         failure := None; sandboxLog := [] |}
  | (Some ds, None) =>
      let b := newDevContextWithDatastore requestContext ds in
      if notNil (nerr b) || notNil (devErrs b) then
        (* If any form of error occurred, immediately close the datastore *)
        let '(ds', derr) := Datastore_Close (store b) in
        if notNil derr then
          {| created := Some ds'; sandbox := None; developerErrors := None;
             failure := derr; sandboxLog := logged b |}
        else
          {| created := Some ds'; sandbox := dctx b; developerErrors := devErrs b;
             failure := nerr b; sandboxLog := logged b |}
      else
        {| created := Some (store b); sandbox := dctx b; developerErrors := None;
           failure := None; sandboxLog := logged b |}
  end.

(** A method call through an interface value: on a nil interface it panics. *)
Definition callClose {A : Type} (close : A -> A * option error) (x : option A)
  : Outcome (option A * option error) :=
  match x with
  | None => Panicked "invalid memory address or nil pointer dereference"
  | Some a => let '(a', err) := close a in Returned (Some a', err)
  end.

Definition logFailure (err : option error) (msg : string) : list Event :=
  match err with
  | Some _ => [EvLog {| logErr := err; logMsg := msg |}]
  | None => []
  end.

Definition Dispose (dc : DevContext) : Outcome (DevContext * list Event) :=
  if isNil (Dispatcher dc) then Returned (dc, [])
  else
    ' (d', err) <- callClose Dispatcher_Close (Dispatcher dc) ;;
    let events := EvDispatcherClose
                  :: logFailure err "error when disposing of dispatcher in devcontext" in
    let dc1 := {| Datastore := Datastore dc; Revision := Revision dc;
                  CompiledSchema := CompiledSchema dc; Dispatcher := d' |} in
    if isNil (Datastore dc) then Returned (dc1, events)
    else
      ' (ds', err) <- callClose Datastore_Close (Datastore dc) ;;
      Returned ({| Datastore := ds'; Revision := Revision dc;
                   CompiledSchema := CompiledSchema dc; Dispatcher := d' |},
                events ++ EvDatastoreClose
                  :: logFailure err "error when disposing of datastore in devcontext").

End Development.

(* ================================================================== *)
(** ** Package [tuple]: what the found-subject model uses of it *)

Module tuple.

(** Modelled from the spec: the reserved wildcard marker, [objectId == "*"]
    (the constant [tuple.PublicWildcard] is not among the sources). *)
Definition PublicWildcard : string := "*".

(** Modelled from the spec: the rendering [namespace:objectId#relation] of an
    ONR (the function [tuple.StringONR] is not among the sources). *)
Definition StringONR (onr : ObjectAndRelation) : string :=
  Namespace onr ++ ":" ++ ObjectId onr ++ "#" ++ Relation onr.

(** Modelled from the spec: a deduplicated set of ONRs ([tuple.ONRSet] is not
    among the sources), kept as a list without repetition. *)
Definition ONRSet : Type := list ObjectAndRelation.

(** Modelled from the spec: membership in an [ONRSet]. *)
Definition ONRSet_Has (s : ONRSet) (onr : ObjectAndRelation) : bool :=
  existsb (ONR_eqb onr) s.

(** Modelled from the spec: insertion in an [ONRSet]. *)
Definition ONRSet_Add (s : ONRSet) (onr : ObjectAndRelation) : ONRSet :=
  if ONRSet_Has s onr then s else s ++ [onr].

(** Modelled from the spec: [tuple.NewONRSet]. *)
Definition NewONRSet (onrs : list ObjectAndRelation) : ONRSet :=
  fold_left ONRSet_Add onrs [].

(** Modelled from the spec: union of two [ONRSet]s. *)
Definition ONRSet_Union (s t : ONRSet) : ONRSet := fold_left ONRSet_Add t s.

(** Modelled from the spec: the listing of an [ONRSet]. *)
Definition AsSlice (s : ONRSet) : list ObjectAndRelation := s.

End tuple.

(** [sort.Strings]: ascending order, strings compared byte by byte. *)
Fixpoint insertString (s : string) (l : list string) : list string :=
  match l with
  | [] => [s]
  | x :: rest => if String.leb s x then s :: l else x :: insertString s rest
  end.

Definition sort_Strings (l : list string) : list string :=
  fold_right insertString [] l.

(** [strings.Join] *)
Definition strings_Join (elems : list string) (sep : string) : string :=
  String.concat sep elems.

(* ================================================================== *)
(** ** Package [developmentmembership]: found subjects *)

Module developmentmembership.

(** Modelled from the spec: a caveat expression is an opaque boolean formula
    over named caveats ([v1.CaveatExpression] is not among the sources). *)
Inductive CaveatExpression : Type :=
| caveatNamed (name : string)
| caveatOr (a b : CaveatExpression)
| caveatAnd (a b : CaveatExpression)
| caveatNot (a : CaveatExpression).

(** Modelled from the spec: the truth of a caveat expression, given which
    of the named caveats hold. *)
Fixpoint evalCaveat (holds : string -> bool) (c : CaveatExpression) : bool :=
  match c with
  | caveatNamed name => holds name
  | caveatOr a b => evalCaveat holds a || evalCaveat holds b
  | caveatAnd a b => evalCaveat holds a && evalCaveat holds b
  | caveatNot a => negb (evalCaveat holds a)
  end.

(** Modelled from the spec: a nil caveat expression is no condition at
    all. *)
Definition granted (holds : string -> bool) (c : option CaveatExpression) : bool :=
  match c with
  | None => true
  | Some e => evalCaveat holds e
  end.

#[warnings="-register-all"] Inductive FoundSubject : Type := mkFoundSubject {
  subject : ObjectAndRelation;
  excludedSubjects : list FoundSubject;
  caveatExpression : option CaveatExpression;
  relationships : tuple.ONRSet
}.

Definition NewFoundSubject (subject : ObjectAndRelation)
    (resources : list ObjectAndRelation) : FoundSubject :=
  mkFoundSubject subject [] None (tuple.NewONRSet resources).

Definition GetSubjectId (fs : FoundSubject) : string := ObjectId (subject fs).

Definition GetCaveatExpression (fs : FoundSubject) : option CaveatExpression :=
  caveatExpression fs.

Definition GetExcludedSubjects (fs : FoundSubject) : list FoundSubject :=
  excludedSubjects fs.

Definition Subject (fs : FoundSubject) : ObjectAndRelation := subject fs.

Definition WildcardType (fs : FoundSubject) : string * bool :=
  if String.eqb (ObjectId (subject fs)) tuple.PublicWildcard
  then (Namespace (subject fs), true)
  else ("", false).

(** The loop of [ExcludedSubjectsFromWildcard], appending to [acc]. *)
Fixpoint collectExcluded (excluded : list FoundSubject) (acc : list ObjectAndRelation)
  : Outcome (list ObjectAndRelation) :=
  match excluded with
  | [] => Returned acc
  | excludedSubject :: rest =>
      if notNil (caveatExpression excludedSubject)
      then Panicked "not yet supported"
      else collectExcluded rest (acc ++ [subject excludedSubject])
  end.

Definition ExcludedSubjectsFromWildcard (fs : FoundSubject)
  : Outcome (list ObjectAndRelation * bool) :=
  if String.eqb (ObjectId (subject fs)) tuple.PublicWildcard then
    excluded <- collectExcluded (excludedSubjects fs) [] ;;
    Returned (excluded, true)
  else Returned ([], false).

(** The loop of [excludedSubjectIDs]. *)
Fixpoint collectExcludedIDs (excluded : list FoundSubject) (acc : list string)
  : Outcome (list string) :=
  match excluded with
  | [] => Returned acc
  | excludedSubject :: rest =>
      if notNil (caveatExpression excludedSubject)
      then Panicked "not yet supported"
      else collectExcludedIDs rest (acc ++ [ObjectId (subject excludedSubject)])
  end.

Definition excludedSubjectIDs (fs : FoundSubject) : Outcome (list string) :=
  collectExcludedIDs (excludedSubjects fs) [].

Definition Relationships (fs : FoundSubject) : list ObjectAndRelation :=
  tuple.AsSlice (relationships fs).

Definition ToValidationString (fs : FoundSubject) : Outcome string :=
  if notNil (caveatExpression fs) then
    Panicked "conditional found subjects not yet supported"
  else
    let onrString := tuple.StringONR (Subject fs) in
    ' (excluded, isWildcard) <- ExcludedSubjectsFromWildcard fs ;;
    if isWildcard && (0 <? List.length excluded)%nat then
      let excludedONRStrings := map tuple.StringONR excluded in
      Returned (onrString ++ " - {"
                ++ strings_Join (sort_Strings excludedONRStrings) ", " ++ "}")%string
    else Returned onrString.

(** *** The subject tracking set *)

(** Modelled from the spec: the identity key of a found subject in the
    tracking set is namespace + objectId + relation of its [subject] field
    ([TrackingSubjectSet] is not among the sources; the objectId part is
    [GetSubjectId], which is). *)
Definition subjectKey (fs : FoundSubject) : string * string * string :=
  (Namespace (subject fs), GetSubjectId fs, Relation (subject fs)).

(** Modelled from the spec: the same key, of an ONR to look up. *)
Definition keyOf (onr : ObjectAndRelation) : string * string * string :=
  (Namespace onr, ObjectId onr, Relation onr).

(** Modelled from the spec: equality of identity keys. *)
Definition key_eqb (k1 k2 : string * string * string) : bool :=
  let '(n1, o1, r1) := k1 in
  let '(n2, o2, r2) := k2 in
  String.eqb n1 n2 && String.eqb o1 o2 && String.eqb r1 r2.

(** Modelled from the spec: equality of caveat expressions, which are
    immutable values. *)
Fixpoint CaveatExpression_eqb (x y : CaveatExpression) : bool :=
  match x, y with
  | caveatNamed n, caveatNamed m => String.eqb n m
  | caveatOr a b, caveatOr c d => CaveatExpression_eqb a c && CaveatExpression_eqb b d
  | caveatAnd a b, caveatAnd c d => CaveatExpression_eqb a c && CaveatExpression_eqb b d
  | caveatNot a, caveatNot c => CaveatExpression_eqb a c
  | _, _ => false
  end.

(** Modelled from the spec: whether the expression [y] is [x] itself or one
    of the alternatives that the disjunction [x] is made of. *)
Fixpoint hasAlternative (x y : CaveatExpression) : bool :=
  CaveatExpression_eqb x y
  || match x with
     | caveatOr a b => hasAlternative a y || hasAlternative b y
     | _ => false
     end.

(** Modelled from the spec: the logical OR of two caveat expressions. An
    alternative that is already there is not added again, as adding a finding
    a second time must change nothing. *)
Definition orCaveat (x y : CaveatExpression) : CaveatExpression :=
  if hasAlternative x y then x else caveatOr x y.

(** Modelled from the spec: the merged caveat is the logical OR of the two,
    and unconditional as soon as one of them is. *)
Definition mergeCaveat (a b : option CaveatExpression) : option CaveatExpression :=
  match a, b with
  | Some x, Some y => Some (orCaveat x y)
  | _, _ => None
  end.

(** Modelled from the spec: whether a list of exclusions has an entry of
    the given identity. *)
Definition excludes (excluded : list FoundSubject) (k : string * string * string) : bool :=
  existsb (fun x => key_eqb (subjectKey x) k) excluded.

(** Modelled from the spec: whether one of the exclusions carries a caveat
    expression, the unsupported configuration. *)
Definition someConditional (excluded : list FoundSubject) : bool :=
  existsb (fun x => notNil (caveatExpression x)) excluded.

(** Modelled from the spec: the merged exclusion set is the intersection of
    the two exclusion sets by subject identity. A merge that meets a
    conditional exclusion, on either side, is the unsupported configuration:
    it fails as [ExcludedSubjectsFromWildcard] does, no resolution being
    specified. *)
Definition mergeExcluded (a b : list FoundSubject) : Outcome (list FoundSubject) :=
  if someConditional a || someConditional b
  then Panicked "not yet supported"
  else Returned (filter (fun x => excludes b (subjectKey x)) a).

(** Modelled from the spec: merge of two findings of one subject key:
    relationships by union, caveat expressions by OR, exclusions by
    intersection. *)
Definition mergeFound (a b : FoundSubject) : Outcome FoundSubject :=
  excluded <- mergeExcluded (excludedSubjects a) (excludedSubjects b) ;;
  Returned (mkFoundSubject (subject a) excluded
              (mergeCaveat (caveatExpression a) (caveatExpression b))
              (tuple.ONRSet_Union (relationships a) (relationships b))).

(** Modelled from the spec: the subject tracking set, a collection keyed by
    subject identity with [add] (insert, or merge with the entry of the same
    key), [get] and [toSlice]; kept in order of first insertion. *)
Definition TrackingSubjectSet : Type := list FoundSubject.

(** Modelled from the spec: the empty tracking set. *)
Definition NewTrackingSubjectSet : TrackingSubjectSet := [].

(** Modelled from the spec: [add(foundSubject)] inserts, or merges with the
    entry of the same key; it fails when that merge does. *)
Fixpoint Add (fs : FoundSubject) (tss : TrackingSubjectSet) : Outcome TrackingSubjectSet :=
  match tss with
  | [] => Returned [fs]
  | existing :: rest =>
      if key_eqb (subjectKey existing) (subjectKey fs)
      then merged <- mergeFound existing fs ;; Returned (merged :: rest)
      else rest' <- Add fs rest ;; Returned (existing :: rest')
  end.

(** Modelled from the spec: [get(subjectONR)]. *)
Definition Get (onr : ObjectAndRelation) (tss : TrackingSubjectSet) : option FoundSubject :=
  find (fun existing => key_eqb (subjectKey existing) (keyOf onr)) tss.

(** Modelled from the spec: [toSlice()]. *)
Definition ToSlice (tss : TrackingSubjectSet) : list FoundSubject := tss.

(** [FoundSubjects]: the subjects found for a specific ONR. *)
Record FoundSubjects : Type := { subjects : TrackingSubjectSet }.

Definition ListFound (fs : FoundSubjects) : list FoundSubject := ToSlice (subjects fs).

Definition LookupSubject (fs : FoundSubjects) (subject : ObjectAndRelation)
  : option FoundSubject :=
  Get subject (subjects fs).

End developmentmembership.

(* ================================================================== *)
(** ** A concrete environment, for running the embedding *)

Module Sample.

Definition user : NamespaceDefinition :=
  {| NamespaceDefinition_Name := "user"; NamespaceDefinition_Relation := [] |}.

Definition document : NamespaceDefinition :=
  {| NamespaceDefinition_Name := "document";
     NamespaceDefinition_Relation := [("viewer", "user")] |}.

(** [folder] refers to an object type that the schema does not define. *)
Definition folder : NamespaceDefinition :=
  {| NamespaceDefinition_Name := "folder";
     NamespaceDefinition_Relation := [("owner", "team")] |}.

Definition goodSchema : string :=
  "definition user {} definition document { relation viewer: user }".

Definition mixedSchema : string :=
  "definition user {} definition folder { relation owner: team }".

Definition parseError : DeveloperError :=
  {| Message := "unexpected token"; Line := 1; Column := 1; Source := SCHEMA;
     Kind := SCHEMA_ISSUE; Context := "" |}.

Definition compile (text : string)
  : compiler_CompiledSchema * option DeveloperError * option error :=
  if String.eqb text goodSchema then
    ({| ObjectDefinitions := [user; document]; CaveatDefinitions := [] |}, None, None)
  else if String.eqb text mixedSchema then
    ({| ObjectDefinitions := [user; folder]; CaveatDefinitions := [] |}, None, None)
  else
    ({| ObjectDefinitions := []; CaveatDefinitions := [] |}, Some parseError, None).

Definition defines (defs : list NamespaceDefinition) (name : string) : bool :=
  existsb (fun d => String.eqb (NamespaceDefinition_Name d) name) defs.

(** Every relation must allow an object type that the resolver knows. *)
Definition validateTypes (ts : NamespaceDefinition * list NamespaceDefinition)
  : option error :=
  let '(def, known) := ts in
  if forallb (fun r => defines known (snd r)) (NamespaceDefinition_Relation def)
  then None
  else Some (errNew errorString
               ("could not lookup definition in " ++ NamespaceDefinition_Name def)).

(** A relationship is well formed when both object ids are present. *)
Definition validateTuple (tpl : RelationTuple) : option error :=
  if String.eqb (ObjectId (ResourceAndRelation tpl)) ""
     || String.eqb (ObjectId (Subject tpl)) ""
  then Some (errNew errorString "invalid RelationTuple: value does not match regex pattern")
  else None.

(** The write-time check: the resource's object type must have been loaded. *)
Definition validateWrite (tpl : RelationTuple) (rwt : ReadWriteTransaction)
  : option error :=
  if defines (txNamespaces rwt) (Namespace (ResourceAndRelation tpl)) then None
  else Some (errNew UnknownNamespaceError
               ("object definition " ++ Namespace (ResourceAndRelation tpl)
                ++ " not found")).

Definition tupleString (tpl : RelationTuple) : string :=
  tuple.StringONR (ResourceAndRelation tpl) ++ "@" ++ tuple.StringONR (Subject tpl).

(** No storage or dispatcher failure at all. *)
Definition env : Environment :=
  {| TypeSystem := NamespaceDefinition * list NamespaceDefinition;
     CompileSchema := compile;
     ValidateCaveatDefinition := fun _ => None;
     NewNamespaceTypeSystem := fun nsDef resolver => inl (nsDef, fst resolver);
     TypeSystem_Validate := validateTypes;
     RelationTuple_Validate := validateTuple;
     validateTupleWrite := validateWrite;
     tuple_String := tupleString;
     RequestContext_Validate := fun _ => None;
     NewMemdbDatastore_failure := None;
     WriteCaveats_failure := fun _ _ => None;
     WriteNamespaces_failure := fun _ _ => None;
     WriteRelationships_failure := fun _ _ => None;
     Datastore_Close_failure := fun _ => None;
     Dispatcher_Close_failure := fun _ => None |}.

Definition closeError : error := errNew errorString "datastore already closed".

(** The same, except that closing the datastore reports an error. *)
Definition envFailingClose : Environment :=
  {| TypeSystem := NamespaceDefinition * list NamespaceDefinition;
     CompileSchema := compile;
     ValidateCaveatDefinition := fun _ => None;
     NewNamespaceTypeSystem := fun nsDef resolver => inl (nsDef, fst resolver);
     TypeSystem_Validate := validateTypes;
     RelationTuple_Validate := validateTuple;
     validateTupleWrite := validateWrite;
     tuple_String := tupleString;
     RequestContext_Validate := fun _ => None;
     NewMemdbDatastore_failure := None;
     WriteCaveats_failure := fun _ _ => None;
     WriteNamespaces_failure := fun _ _ => None;
     WriteRelationships_failure := fun _ _ => None;
     Datastore_Close_failure := fun _ => Some closeError;
     Dispatcher_Close_failure := fun _ => Some closeError |}.

Definition rel (resource subject : string) : RelationTuple :=
  {| ResourceAndRelation := ONR "document" resource "viewer";
     Subject := ONR "user" subject "..." |}.

Definition first : RelationTuple := rel "readme" "alice".
Definition second : RelationTuple := rel "" "bob".
Definition third : RelationTuple := rel "plan" "carol".

(** Three relationships, the second malformed. *)
Definition threeRelationships : RequestContext :=
  {| Schema := goodSchema; Relationships := [first; second; third] |}.

(** One valid and one invalid object definition, no relationships. *)
Definition mixedDefinitions : RequestContext :=
  {| Schema := mixedSchema; Relationships := [] |}.

Definition wellFormed : RequestContext :=
  {| Schema := goodSchema; Relationships := [first; third] |}.

End Sample.

(* ================================================================== *)
(** ** Vocabulary of the specification *)

(** The classification table of the error classifier, in the order in which
    the specification lists its rows. *)
Definition classificationTable : list ((ErrorType -> bool) * DeveloperError_ErrorKind) :=
  [ (isErrMaxDepth, MAXIMUM_RECURSION);
    (isUnknownNamespaceError, UNKNOWN_OBJECT_TYPE);
    (isUnknownRelationError, UNKNOWN_RELATION);
    (isInvalidRelationError, UNKNOWN_RELATION) ].

(** First match wins. *)
Definition firstMatch (err : option error) : option DeveloperError_ErrorKind :=
  option_map snd (find (fun row => errors_As err (fst row)) classificationTable).

(** The categories of error the dispatcher is known to raise. *)
Definition knownCategory (ty : ErrorType) : bool :=
  match ty with
  | ErrMaxDepth | UnknownNamespaceError | UnknownRelationError
  | invalidRelationError | ErrRequestCanceled | ErrInvalidArgument
  | ErrInvalidRevision | ErrRelationMissingTypeInfo | ErrAlwaysFail => true
  | _ => false
  end.

Definition closes (j : list StoreOp) : nat :=
  List.length (filter (fun op => match op with OpClose => true | _ => false end) j).

Definition isWriteRelationships (op : StoreOp) : bool :=
  match op with OpWriteRelationships _ => true | _ => false end.

Definition isCommit (op : StoreOp) : bool :=
  match op with OpCommit _ => true | _ => false end.

(** The close events of a trace, in order, and the lines it logged. *)
Definition closeEvents (events : list Event) : list Event :=
  filter (fun ev => match ev with EvLog _ => false | _ => true end) events.

Definition logEvents (events : list Event) : list LogEntry :=
  flat_map (fun ev => match ev with EvLog entry => [entry] | _ => [] end) events.

Section Vocabulary.
Context {E : Environment}.

Definition closedDispatcher (d : dispatch_Dispatcher) : dispatch_Dispatcher :=
  fst (Dispatcher_Close d).

Definition closedDatastore (ds : datastore_Datastore) : datastore_Datastore :=
  fst (Datastore_Close ds).

Definition validCaveat (def : CaveatDefinition) : bool :=
  isNil (ValidateCaveatDefinition def).

(** The error of building and validating the type system of a definition. *)
Definition namespaceError (resolver : list NamespaceDefinition * list CaveatDefinition)
    (def : NamespaceDefinition) : option error :=
  match NewNamespaceTypeSystem def resolver with
  | inr terr => Some terr
  | inl ts => TypeSystem_Validate ts
  end.

Definition validNamespace (resolver : list NamespaceDefinition * list CaveatDefinition)
    (def : NamespaceDefinition) : bool :=
  isNil (namespaceError resolver def).

Definition caveatIssues (defs : list CaveatDefinition) : list DeveloperError :=
  flat_map (fun def =>
              match ValidateCaveatDefinition def with
              | Some cverr => [schemaIssue (Some cverr) (CaveatDefinition_Name def)]
              | None => []
              end) defs.

Definition namespaceIssues (resolver : list NamespaceDefinition * list CaveatDefinition)
    (defs : list NamespaceDefinition) : list DeveloperError :=
  flat_map (fun def =>
              match namespaceError resolver def with
              | Some err => [schemaIssue (Some err) (NamespaceDefinition_Name def)]
              | None => []
              end) defs.

Definition schemaIssues (compiled : compiler_CompiledSchema) : list DeveloperError :=
  caveatIssues (CaveatDefinitions compiled)
  ++ namespaceIssues (ObjectDefinitions compiled, CaveatDefinitions compiled)
       (ObjectDefinitions compiled).

(** A transaction after it wrote the caveats [cs], one write each, and then
    the object definitions [ns], one write each. *)
Definition afterWrites (rwt : ReadWriteTransaction) (cs : list CaveatDefinition)
    (ns : list NamespaceDefinition) : ReadWriteTransaction :=
  {| txCaveats := txCaveats rwt ++ cs;
     txNamespaces := txNamespaces rwt ++ ns;
     txRelationships := txRelationships rwt;
     txJournal := txJournal rwt ++ map (fun def => OpWriteCaveats [def]) cs
                                ++ map OpWriteNamespaces ns |}.

(** What the scan of [loadTuples] makes of one relationship. *)
Inductive Verdict : Type :=
| Accepted
| Rejected (devErr : DeveloperError)
| Aborted (wireErr : option error).

Definition relationshipVerdict (rwt : ReadWriteTransaction) (tpl : RelationTuple)
  : Verdict :=
  match RelationTuple_Validate tpl with
  | Some verr =>
      Rejected {| Message := Error (Some verr); Source := RELATIONSHIP;
                  Kind := PARSE_ERROR; Context := tuple_String tpl;
                  Line := 0; Column := 0 |}
  | None =>
      match validateTupleWrite tpl rwt with
      | None => Accepted
      | Some err =>
          match distinguishGraphError (Some err) RELATIONSHIP 0 0 (tuple_String tpl) with
          | (Some devErr, _, _) => Rejected devErr
          | (None, wireErr, _) => Aborted wireErr
          end
      end
  end.

Definition isAccepted (rwt : ReadWriteTransaction) (tpl : RelationTuple) : bool :=
  match relationshipVerdict rwt tpl with Accepted => true | _ => false end.

Definition isBad (rwt : ReadWriteTransaction) (tpl : RelationTuple) : bool :=
  negb (isAccepted rwt tpl).

Definition notAborted (rwt : ReadWriteTransaction) (tpl : RelationTuple) : bool :=
  match relationshipVerdict rwt tpl with Aborted _ => false | _ => true end.

Definition malformed (tpl : RelationTuple) : bool :=
  notNil (RelationTuple_Validate tpl).

Definition rejections (rwt : ReadWriteTransaction) (tuples : list RelationTuple)
  : list DeveloperError :=
  flat_map (fun tpl =>
              match relationshipVerdict rwt tpl with
              | Rejected devErr => [devErr]
              | _ => []
              end) tuples.

Definition accepted (rwt : ReadWriteTransaction) (tuples : list RelationTuple)
  : list RelationTuple :=
  filter (isAccepted rwt) tuples.

(** Relationship batch invariant, in the words of the specification: when a
    relationship of the request is malformed, there is exactly one developer
    error per bad relationship and nothing is written: the batch write is
    skipped and the transaction abandoned. *)
Definition relationship_batch_invariant (requestContext : RequestContext) : Prop :=
  existsb malformed (Relationships requestContext) = true ->
  let r := NewDevContext requestContext in
  (exists errs, developerErrors r = Some {| InputErrors := errs |}
                /\ List.length errs
                   = List.length (filter malformed (Relationships requestContext)))
  /\ forall ds, created r = Some ds ->
       storedRelationships ds = []
       /\ existsb isWriteRelationships (journal ds) = false
       /\ existsb isCommit (journal ds) = false.

(** Sandbox abort invariant, in the words of the specification: when the
    validation of the schema yields a developer error, the list of developer
    errors is not empty and the transaction is aborted, so that no caveat or
    object definition is persisted. *)
Definition sandbox_abort_invariant (requestContext : RequestContext) : Prop :=
  let '(compiled, _, _) := CompileSchema (Schema requestContext) in
  schemaIssues compiled <> [] ->
  let r := NewDevContext requestContext in
  (exists errs, developerErrors r = Some {| InputErrors := errs |} /\ errs <> [])
  /\ forall ds, created r = Some ds ->
       storedCaveats ds = [] /\ storedNamespaces ds = []
       /\ existsb isCommit (journal ds) = false.

End Vocabulary.

Section Rendering.
Import developmentmembership.

Definition isWildcard (fs : FoundSubject) : bool :=
  String.eqb (ObjectId (subject fs)) tuple.PublicWildcard.

Definition unconditional (fs : FoundSubject) : bool :=
  isNil (caveatExpression fs).

Definition conditional (fs : FoundSubject) : bool := negb (unconditional fs).

(** The rendering [namespace:*#relation - {excluded1, excluded2, ...}] of a
    wildcard, for the renderings [excluded] of its exclusions. *)
Definition withExclusions (onr : ObjectAndRelation) (excluded : list string) : string :=
  Namespace onr ++ ":*#" ++ Relation onr
  ++ " - {" ++ strings_Join (sort_Strings excluded) ", " ++ "}".

Definition ascending (l : list string) : Prop :=
  StronglySorted (fun a b => String.leb a b = true) l.

(** Canonical rendering of a wildcard with exclusions, in the words of the
    specification. *)
Definition canonical_wildcard_rendering (fs : FoundSubject) : Prop :=
  unconditional fs = true -> isWildcard fs = true -> excludedSubjects fs <> [] ->
  ToValidationString fs
  = Returned (withExclusions (subject fs)
                (map tuple.StringONR (map subject (excludedSubjects fs)))).

End Rendering.

Section Tracking.
Import developmentmembership.

(** Adding a list of found subjects to a tracking set, one after the other;
    the first failure ends it. *)
Fixpoint AddAll (added : list FoundSubject) (tss : TrackingSubjectSet)
  : Outcome TrackingSubjectSet :=
  match added with
  | [] => Returned tss
  | fs :: rest => tss' <- Add fs tss ;; AddAll rest tss'
  end.

(** What a finding becomes when it joins the entry [existing] of its key,
    if there is one. *)
Definition joined (existing : option FoundSubject) (fs : FoundSubject)
  : Outcome FoundSubject :=
  match existing with
  | Some e => mergeFound e fs
  | None => Returned fs
  end.

(** The merge of a list of findings, in order of arrival, starting from an
    entry or from none. *)
Fixpoint mergeOnto (start : option FoundSubject) (findings : list FoundSubject)
  : Outcome (option FoundSubject) :=
  match findings with
  | [] => Returned start
  | fs :: rest => merged <- joined start fs ;; mergeOnto (Some merged) rest
  end.

Definition mergeAll (findings : list FoundSubject) : Outcome (option FoundSubject) :=
  mergeOnto None findings.

(** The findings of a list that are about the subject [onr]. *)
Definition findingsOf (onr : ObjectAndRelation) (added : list FoundSubject)
  : list FoundSubject :=
  filter (fun fs => ONR_eqb (Subject fs) onr) added.

(** Whether a finding carries a conditional exclusion. *)
Definition conditionalExclusion (fs : FoundSubject) : bool :=
  someConditional (excludedSubjects fs).

(** A finding without conditional exclusion. *)
Definition supported (fs : FoundSubject) : Prop := conditionalExclusion fs = false.

(** What the merge of two findings is when it does not fail. *)
Definition merged_of (a b : FoundSubject) : FoundSubject :=
  mkFoundSubject (subject a)
    (filter (fun x => excludes (excludedSubjects b) (subjectKey x)) (excludedSubjects a))
    (mergeCaveat (caveatExpression a) (caveatExpression b))
    (tuple.ONRSet_Union (relationships a) (relationships b)).

(** Two findings that cannot be told apart by what they grant: the same
    subject, the same subjects excluded, the same relationships, and caveat
    expressions that hold together. *)
Definition sameFinding (f g : FoundSubject) : Prop :=
  Subject f = Subject g
  /\ (forall k, excludes (excludedSubjects f) k = excludes (excludedSubjects g) k)
  /\ conditionalExclusion f = conditionalExclusion g
  /\ (caveatExpression f = None <-> caveatExpression g = None)
  /\ (forall holds, granted holds (caveatExpression f) = granted holds (caveatExpression g))
  /\ (forall onr, tuple.ONRSet_Has (relationships f) onr
                  = tuple.ONRSet_Has (relationships g) onr).

End Tracking.

Module SampleSubjects.
Import developmentmembership.

Definition everyone : ObjectAndRelation := ONR "user" "*" "...".
Definition alice : ObjectAndRelation := ONR "user" "alice" "...".
Definition bob : ObjectAndRelation := ONR "user" "bob" "...".
Definition readme : ObjectAndRelation := ONR "document" "readme" "viewer".
Definition plan : ObjectAndRelation := ONR "document" "plan" "viewer".

Definition banned (who : ObjectAndRelation) : FoundSubject := NewFoundSubject who [].

(** Everyone but bob and alice, found through [readme]. *)
Definition allButTwo : FoundSubject :=
  mkFoundSubject everyone [banned bob; banned alice] None (tuple.NewONRSet [readme]).

(** Everyone but alice, on a condition, found through [plan]. *)
Definition allButAliceIfOnsite : FoundSubject :=
  mkFoundSubject everyone [banned alice] (Some (caveatNamed "onsite"))
    (tuple.NewONRSet [plan]).

(** Everyone, except bob when a condition holds. *)
Definition allButMaybeBob : FoundSubject :=
  mkFoundSubject everyone
    [mkFoundSubject bob [] (Some (caveatNamed "suspended")) []] None
    (tuple.NewONRSet [readme]).

Definition justAlice : FoundSubject := NewFoundSubject alice [readme].

End SampleSubjects.

(* ================================================================== *)
(** ** Package [postgres]: the namespace storage *)

Module postgres.

(** Errors here are told apart by identity with two sentinel values
    ([switch err], [err == dbsql.ErrNoRows]); [fmt.Errorf] with [%w] keeps
    its format and the error it wraps. *)
Inductive dberror : Type :=
| ErrNamespaceNotFound                          (* datastore.ErrNamespaceNotFound *)
| ErrNoRows                                     (* dbsql.ErrNoRows *)
| driverError (msg : string)                    (* any other error value *)
| wrapError (format : string) (err : dberror).  (* fmt.Errorf(format, err) *)

Definition fmt_Errorf (format : string) (err : dberror) : dberror :=
  wrapError format err.

Definition errUnableToWriteConfig : string := "unable to write namespace config: %w".
Definition errUnableToReadConfig : string := "unable to read namespace config: %w".
Definition errUnableToDeleteConfig : string := "unable to delete namespace config: %w".

(** A row of the namespace table, by its four columns. *)
Record NamespaceRow : Type := {
  colNamespace : string;
  colConfig : string;
  colCreatedTxn : N;
  colDeletedTxn : N
}.

(** A row of the tuple table: the two columns the code below names, and the
    rest of the row. *)
Record TupleRow : Type := {
  tupleNamespace : string;
  tupleDeletedTxn : N;
  tupleOtherColumns : string
}.

Record Database : Type := {
  tableNamespace : list NamespaceRow;
  tableTuple : list TupleRow;
  (** whatever else the database holds (the table of transactions) *)
  otherTables : list N
}.

(** What [sq.Eq] compares a column with. The revision of a
    [colCreatedTxn] clause is kept as the number the driver binds for it. *)
Inductive Cond : Type :=
| EqDeletedTxn (txn : N)
| EqNamespace (name : string)
| EqCreatedTxn (bound : N).

(** The statements the builders of this file make. *)
Inductive Statement : Type :=
| InsertNamespace (name config : string) (createdTxn : N)
| UpdateNamespace (setDeletedTxn : N) (where_ : list Cond)
| UpdateTuple (setDeletedTxn : N) (where_ : list Cond)
| SelectNamespace (where_ : list Cond).

(** What lies outside the file: the revision type and its conversions, the
    live marker, the serialization, the helper that opens a new model
    transaction, and the failures the database may report. *)
Class Driver : Type := {
  Revision : Type;
  NoRevision : Revision;
  (** [revisionFromTransaction] *)
  revisionFromTransaction : N -> Revision;
  (** how [Scan] reads the created-transaction column into a revision, and
      which number is bound for a revision used as a query argument *)
  scanRevision : N -> Revision;
  revisionValue : Revision -> N;
  liveDeletedTxnID : N;
  (** the deleted-transaction column of a row inserted without one *)
  deletedTxnDefault : N;
  (** [proto.Marshal], [proto.Unmarshal]; [inr] is a non-nil error *)
  proto_Marshal : NamespaceDefinition -> string + dberror;
  proto_Unmarshal : string -> NamespaceDefinition + dberror;
  (** [createNewTransaction(ctx, tx)] *)
  createNewTransaction : Database -> Database * N * option dberror;
  BeginTxx_failure : Database -> option dberror;
  ToSql_failure : Statement -> option dberror;
  ExecContext_failure : Database -> Statement -> option dberror;
  Scan_failure : Database -> Statement -> option dberror;
  Commit_failure : Database -> option dberror
}.

Definition namespaceRowMatches (row : NamespaceRow) (c : Cond) : bool :=
  match c with
  | EqDeletedTxn txn => N.eqb (colDeletedTxn row) txn
  | EqNamespace name => String.eqb (colNamespace row) name
  | EqCreatedTxn bound => N.eqb (colCreatedTxn row) bound
  end.

Definition tupleRowMatches (row : TupleRow) (c : Cond) : bool :=
  match c with
  | EqDeletedTxn txn => N.eqb (tupleDeletedTxn row) txn
  | EqNamespace name => String.eqb (tupleNamespace row) name
  | EqCreatedTxn _ => false
  end.

Definition deleteNamespaceRow (txn : N) (where_ : list Cond) (row : NamespaceRow)
  : NamespaceRow :=
  if forallb (namespaceRowMatches row) where_ then
    {| colNamespace := colNamespace row; colConfig := colConfig row;
       colCreatedTxn := colCreatedTxn row; colDeletedTxn := txn |}
  else row.

Definition deleteTupleRow (txn : N) (where_ : list Cond) (row : TupleRow) : TupleRow :=
  if forallb (tupleRowMatches row) where_ then
    {| tupleNamespace := tupleNamespace row; tupleDeletedTxn := txn;
       tupleOtherColumns := tupleOtherColumns row |}
  else row.

Section Queries.
Context {D : Driver}.

(** The transaction [tx] is the working copy of the database; [BeginTxx]
    hands out a copy of the committed state, [Commit] makes the working copy
    the committed state, and the deferred [Rollback] drops it. *)
Definition BeginTxx (db : Database) : Database + dberror :=
  match BeginTxx_failure db with
  | Some err => inr err
  | None => inl db
  end.

Definition Commit (tx : Database) : option dberror := Commit_failure tx.

(** [ToSql] of a builder: the statement, or an error. *)
Definition ToSql (stmt : Statement) : Statement + dberror :=
  match ToSql_failure stmt with
  | Some err => inr err
  | None => inl stmt
  end.

(** [tx.ExecContext]: what the statement does to the working copy. *)
Definition ExecContext (tx : Database) (stmt : Statement) : Database * option dberror :=
  match ExecContext_failure tx stmt with
  | Some err => (tx, Some err)
  | None =>
      match stmt with
      | InsertNamespace name config createdTxn =>
          ({| tableNamespace :=
                tableNamespace tx
                ++ [ {| colNamespace := name; colConfig := config;
                        colCreatedTxn := createdTxn;
                        colDeletedTxn := deletedTxnDefault |} ];
              tableTuple := tableTuple tx; otherTables := otherTables tx |}, None)
      | UpdateNamespace txn where_ =>
          ({| tableNamespace := map (deleteNamespaceRow txn where_) (tableNamespace tx);
              tableTuple := tableTuple tx; otherTables := otherTables tx |}, None)
      | UpdateTuple txn where_ =>
          ({| tableNamespace := tableNamespace tx;
              tableTuple := map (deleteTupleRow txn where_) (tableTuple tx);
              otherTables := otherTables tx |}, None)
      | SelectNamespace _ => (tx, None)
      end
  end.

(** [tx.QueryRowxContext(...).Scan(&config, &version)]: the first row of the
    result, [ErrNoRows] when there is none. *)
Definition QueryRowScan (tx : Database) (stmt : Statement)
  : (string * Revision) + dberror :=
  match Scan_failure tx stmt with
  | Some err => inr err
  | None =>
      match stmt with
      | SelectNamespace where_ =>
          match filter (fun row => forallb (namespaceRowMatches row) where_)
                  (tableNamespace tx) with
          | row :: _ => inl (colConfig row, scanRevision (colCreatedTxn row))
          | [] => inr ErrNoRows
          end
      | _ => inr ErrNoRows
      end
  end.

(** The package-level builders. *)
Definition writeNamespace (name config : string) (createdTxn : N) : Statement :=
  InsertNamespace name config createdTxn.

Definition readNamespace : list Cond := [EqDeletedTxn liveDeletedTxnID].

Definition deleteNamespace : list Cond := [EqDeletedTxn liveDeletedTxnID].

Definition deleteNamespaceTuples : list Cond := [EqDeletedTxn liveDeletedTxnID].

Definition isErrNoRows (err : dberror) : bool :=
  match err with ErrNoRows => true | _ => false end.

Definition loadNamespace (namespace : string) (tx : Database)
  : option NamespaceDefinition * Revision * option dberror :=
  match ToSql (SelectNamespace (readNamespace ++ [EqNamespace namespace])) with
  | inr err => (None, NoRevision, Some err)
  | inl sql =>
      match QueryRowScan tx sql with
      | inr err =>
          if isErrNoRows err
          then (None, NoRevision, Some ErrNamespaceNotFound)
          else (None, NoRevision, Some err)
      | inl (config, version) =>
          match proto_Unmarshal config with
          | inr err => (None, NoRevision, Some err)
          | inl loaded => (Some loaded, version, None)
          end
      end
  end.

(** Each function yields the database as it leaves it, next to its Go
    results. *)
Definition WriteNamespace (db : Database) (newConfig : NamespaceDefinition)
  : Database * Revision * option dberror :=
  match proto_Marshal newConfig with
  | inr err => (db, NoRevision, Some (fmt_Errorf errUnableToWriteConfig err))
  | inl serialized =>
      match BeginTxx db with
      | inr err => (db, NoRevision, Some (fmt_Errorf errUnableToWriteConfig err))
      | inl tx =>
          match createNewTransaction tx with
          | (_, _, Some err) =>
              (db, NoRevision, Some (fmt_Errorf errUnableToWriteConfig err))
          | (tx, newTxnID, None) =>
              match ToSql (writeNamespace (NamespaceDefinition_Name newConfig)
                             serialized newTxnID) with
              | inr err => (db, NoRevision, Some (fmt_Errorf errUnableToWriteConfig err))
              | inl sql =>
                  match ExecContext tx sql with
                  | (_, Some err) =>
                      (db, NoRevision, Some (fmt_Errorf errUnableToWriteConfig err))
                  | (tx, None) =>
                      match Commit tx with
                      | Some err =>
                          (db, NoRevision,
                           Some (fmt_Errorf errUnableToWriteConfig err))
                      | None => (tx, revisionFromTransaction newTxnID, None)
                      end
                  end
              end
          end
      end
  end.

Definition ReadNamespace (db : Database) (nsName : string)
  : Database * option NamespaceDefinition * Revision * option dberror :=
  match BeginTxx db with
  | inr err => (db, None, NoRevision, Some (fmt_Errorf errUnableToReadConfig err))
  | inl tx =>
      match loadNamespace nsName tx with
      | (_, _, Some ErrNamespaceNotFound) =>
          (db, None, NoRevision, Some ErrNamespaceNotFound)
      | (loaded, version, None) => (db, loaded, version, None)
      | (_, _, Some err) =>
          (db, None, NoRevision, Some (fmt_Errorf errUnableToReadConfig err))
      end
  end.

Definition DeleteNamespace (db : Database) (nsName : string)
  : Database * Revision * option dberror :=
  match BeginTxx db with
  | inr err => (db, NoRevision, Some (fmt_Errorf errUnableToDeleteConfig err))
  | inl tx =>
      match loadNamespace nsName tx with
      | (_, _, Some ErrNamespaceNotFound) => (db, NoRevision, Some ErrNamespaceNotFound)
      | (_, _, Some err) =>
          (db, NoRevision, Some (fmt_Errorf errUnableToDeleteConfig err))
      | (_, version, None) =>
          match createNewTransaction tx with
          | (_, _, Some err) =>
              (db, NoRevision, Some (fmt_Errorf errUnableToDeleteConfig err))
          | (tx, newTxnID, None) =>
              match ToSql (UpdateNamespace newTxnID
                             (deleteNamespace
                              ++ [EqNamespace nsName;
                                  EqCreatedTxn (revisionValue version)])) with
              | inr err =>
                  (db, NoRevision, Some (fmt_Errorf errUnableToDeleteConfig err))
              | inl delSQL =>
                  match ExecContext tx delSQL with
                  | (_, Some err) =>
                      (db, NoRevision, Some (fmt_Errorf errUnableToDeleteConfig err))
                  | (tx, None) =>
                      match ToSql (UpdateTuple newTxnID
                                     (deleteNamespaceTuples ++ [EqNamespace nsName])) with
                      | inr err =>
                          (db, NoRevision,
                           Some (fmt_Errorf errUnableToDeleteConfig err))
                      | inl deleteTupleSQL =>
                          match ExecContext tx deleteTupleSQL with
                          | (_, Some err) =>
                              (db, NoRevision,
                               Some (fmt_Errorf errUnableToDeleteConfig err))
                          | (tx, None) =>
                              match Commit tx with
                              | Some err =>
                                  (db, NoRevision,
                                   Some (fmt_Errorf errUnableToDeleteConfig err))
                              | None => (tx, version, None)
                              end
                          end
                      end
                  end
              end
          end
      end
  end.

End Queries.

End postgres.

Section PostgresVocabulary.
Import postgres.
Context {D : Driver}.

(** A database and a driver that report no failure. *)
Definition faultless : Prop :=
  (forall db, BeginTxx_failure db = None)
  /\ (forall stmt, ToSql_failure stmt = None)
  /\ (forall tx stmt, ExecContext_failure tx stmt = None)
  /\ (forall tx stmt, Scan_failure tx stmt = None)
  /\ (forall tx, Commit_failure tx = None).

(** The row is a live definition of the namespace [name]. *)
Definition liveRow (name : string) (row : NamespaceRow) : bool :=
  N.eqb (colDeletedTxn row) liveDeletedTxnID && String.eqb (colNamespace row) name.

Definition liveTuple (name : string) (row : TupleRow) : bool :=
  N.eqb (tupleDeletedTxn row) liveDeletedTxnID && String.eqb (tupleNamespace row) name.

(** The row that [WriteNamespace] inserts. *)
Definition insertedRow (name config : string) (txn : N) : NamespaceRow :=
  {| colNamespace := name; colConfig := config; colCreatedTxn := txn;
     colDeletedTxn := deletedTxnDefault |}.

(** A row of the namespace table after the definition of [name] created at
    [created] was marked deleted at [txn]; and a row of the tuple table
    after the live tuples of [name] were. *)
Definition retireRow (txn : N) (name : string) (created : N) (row : NamespaceRow)
  : NamespaceRow :=
  if liveRow name row && N.eqb (colCreatedTxn row) created then
    {| colNamespace := colNamespace row; colConfig := colConfig row;
       colCreatedTxn := colCreatedTxn row; colDeletedTxn := txn |}
  else row.

Definition retireTuple (txn : N) (name : string) (row : TupleRow) : TupleRow :=
  if liveTuple name row then
    {| tupleNamespace := tupleNamespace row; tupleDeletedTxn := txn;
       tupleOtherColumns := tupleOtherColumns row |}
  else row.

End PostgresVocabulary.

(* ================================================================== *)
(** ** Further vocabulary *)

(** The infrastructural mapping of [rewriteACLError], in the order of its
    cases. *)
Definition infrastructuralTable : list ((ErrorType -> bool) * codes) :=
  [ (isUnknownNamespaceError, Canceled);
    (isUnknownRelationError, Canceled);
    (isErrRequestCanceled, Canceled);
    (isErrInvalidArgument, InvalidArgument);
    (isErrInvalidRevision, OutOfRange);
    (isErrRelationMissingTypeInfo, FailedPrecondition);
    (isErrAlwaysFail, Internal);
    (isInvalidRelationError, InvalidArgument) ].

Definition firstCode (err : option error) : option codes :=
  option_map snd (find (fun row => errors_As err (fst row)) infrastructuralTable).

(** The rows of that mapping that can still apply once the four tests of
    [distinguishGraphError] have failed. *)
Definition reachableTable : list ((ErrorType -> bool) * codes) :=
  [ (isErrRequestCanceled, Canceled);
    (isErrInvalidArgument, InvalidArgument);
    (isErrInvalidRevision, OutOfRange);
    (isErrRelationMissingTypeInfo, FailedPrecondition);
    (isErrAlwaysFail, Internal) ].

Definition reachableCode (err : option error) : option codes :=
  option_map snd (find (fun row => errors_As err (fst row)) reachableTable).

(** The text a status error is made with: a prefix, then the error. *)
Definition statusPrefix (c : codes) : string :=
  match c with
  | Canceled => "request canceled: "
  | InvalidArgument => ""
  | OutOfRange => "invalid zookie: "
  | FailedPrecondition => "failed precondition: "
  | Internal => "internal error: "
  end.

(** A wrapper that none of the four tests of [distinguishGraphError] looks
    for. *)
Definition plainWrapper (ty : ErrorType) : bool :=
  negb (isErrMaxDepth ty || isUnknownNamespaceError ty
        || isUnknownRelationError ty || isInvalidRelationError ty).

Definition isPrefixOf {A : Type} (l1 l2 : list A) : Prop :=
  exists rest, l2 = l1 ++ rest.

Definition isSchemaIssue (devErr : DeveloperError) : Prop :=
  Kind devErr = SCHEMA_ISSUE /\ Source devErr = SCHEMA.

Section FurtherVocabulary.
Context {E : Environment}.

(** The transaction in which [newDevContextWithDatastore] loads a schema all
    of whose definitions are valid, when no write fails. *)
Definition loadedSchema (compiled : compiler_CompiledSchema) : ReadWriteTransaction :=
  afterWrites (beginTx emptyStore) (CaveatDefinitions compiled)
    (ObjectDefinitions compiled).

(** The datastore after that schema and the relationships [tuples], all of
    them accepted, were loaded and committed in the first transaction. *)
Definition committedStore (compiled : compiler_CompiledSchema)
    (tuples : list RelationTuple) : datastore_Datastore :=
  {| storedCaveats := CaveatDefinitions compiled;
     storedNamespaces := ObjectDefinitions compiled;
     storedRelationships := fold_left applyUpdate (map Touch tuples) [];
     checkpoint := 1;
     journal := map (fun def => OpWriteCaveats [def]) (CaveatDefinitions compiled)
                ++ map OpWriteNamespaces (ObjectDefinitions compiled)
                ++ [OpWriteRelationships (map Touch tuples); OpCommit (revisionAt 1)] |}.

Definition storageNeverFails : Prop :=
  (forall rwt defs, WriteCaveats_failure rwt defs = None)
  /\ (forall rwt def, WriteNamespaces_failure rwt def = None)
  /\ (forall rwt updates, WriteRelationships_failure rwt updates = None).

End FurtherVocabulary.

Module SampleFaults.

Definition writeError : error := errNew errorString "transaction aborted by the engine".

(** Writing the object definition [document] fails. *)
Definition envFailingWrites : Environment :=
  {| TypeSystem := NamespaceDefinition * list NamespaceDefinition;
     CompileSchema := Sample.compile;
     ValidateCaveatDefinition := fun _ => None;
     NewNamespaceTypeSystem := fun nsDef resolver => inl (nsDef, fst resolver);
     TypeSystem_Validate := Sample.validateTypes;
     RelationTuple_Validate := Sample.validateTuple;
     validateTupleWrite := Sample.validateWrite;
     tuple_String := Sample.tupleString;
     RequestContext_Validate := fun _ => None;
     NewMemdbDatastore_failure := None;
     WriteCaveats_failure := fun _ _ => None;
     WriteNamespaces_failure :=
       fun _ def => if String.eqb (NamespaceDefinition_Name def) "document"
                    then Some writeError else None;
     WriteRelationships_failure := fun _ _ => None;
     Datastore_Close_failure := fun _ => None;
     Dispatcher_Close_failure := fun _ => None |}.

Definition expired : error := errNew ErrInvalidRevision "revision is no longer valid".

(** The write-time check fails, with an error that is no developer error, on
    a relationship whose subject is [eve]. *)
Definition validateWriteStrict (tpl : RelationTuple) (rwt : ReadWriteTransaction)
  : option error :=
  if String.eqb (ObjectId (Subject tpl)) "eve" then Some expired
  else Sample.validateWrite tpl rwt.

Definition envStrict : Environment :=
  {| TypeSystem := NamespaceDefinition * list NamespaceDefinition;
     CompileSchema := Sample.compile;
     ValidateCaveatDefinition := fun _ => None;
     NewNamespaceTypeSystem := fun nsDef resolver => inl (nsDef, fst resolver);
     TypeSystem_Validate := Sample.validateTypes;
     RelationTuple_Validate := Sample.validateTuple;
     validateTupleWrite := validateWriteStrict;
     tuple_String := Sample.tupleString;
     RequestContext_Validate := fun _ => None;
     NewMemdbDatastore_failure := None;
     WriteCaveats_failure := fun _ _ => None;
     WriteNamespaces_failure := fun _ _ => None;
     WriteRelationships_failure := fun _ _ => None;
     Datastore_Close_failure := fun _ => None;
     Dispatcher_Close_failure := fun _ => None |}.

Definition invalidRequest : error := errNew errorString "invalid RequestContext.Schema".

(** The request as a whole does not validate. *)
Definition envInvalidRequest : Environment :=
  {| TypeSystem := NamespaceDefinition * list NamespaceDefinition;
     CompileSchema := Sample.compile;
     ValidateCaveatDefinition := fun _ => None;
     NewNamespaceTypeSystem := fun nsDef resolver => inl (nsDef, fst resolver);
     TypeSystem_Validate := Sample.validateTypes;
     RelationTuple_Validate := Sample.validateTuple;
     validateTupleWrite := Sample.validateWrite;
     tuple_String := Sample.tupleString;
     RequestContext_Validate := fun _ => Some invalidRequest;
     NewMemdbDatastore_failure := None;
     WriteCaveats_failure := fun _ _ => None;
     WriteNamespaces_failure := fun _ _ => None;
     WriteRelationships_failure := fun _ _ => None;
     Datastore_Close_failure := fun _ => None;
     Dispatcher_Close_failure := fun _ => None |}.

Definition eve : RelationTuple := Sample.rel "notes" "eve".

(** A malformed relationship, then one that aborts the scan, then a good
    one. *)
Definition withEve : RequestContext :=
  {| Schema := Sample.goodSchema;
     Relationships := [Sample.first; Sample.second; eve; Sample.third] |}.

Definition unparsable : RequestContext :=
  {| Schema := "definition {"; Relationships := [Sample.first] |}.

(** The transaction after the two definitions of [Sample.goodSchema]. *)
Definition loaded : ReadWriteTransaction :=
  {| txCaveats := []; txNamespaces := [Sample.user; Sample.document];
     txRelationships := [];
     txJournal := [OpWriteNamespaces Sample.user; OpWriteNamespaces Sample.document] |}.

End SampleFaults.

Module SamplePostgres.
Import postgres.

Definition live : N := 9223372036854775807.

(** Revisions are transaction numbers; a definition is serialized as its
    name. *)
Definition driver : Driver :=
  {| Revision := N;
     NoRevision := 0%N;
     revisionFromTransaction := fun txn => txn;
     scanRevision := fun txn => txn;
     revisionValue := fun rev => rev;
     liveDeletedTxnID := live;
     deletedTxnDefault := live;
     proto_Marshal := fun def => inl (NamespaceDefinition_Name def);
     proto_Unmarshal :=
       fun config => inl {| NamespaceDefinition_Name := config;
                            NamespaceDefinition_Relation := [] |};
     createNewTransaction :=
       fun tx =>
         let txn := (N.of_nat (List.length (otherTables tx)) + 1)%N in
         ({| tableNamespace := tableNamespace tx; tableTuple := tableTuple tx;
             otherTables := otherTables tx ++ [txn] |}, txn, None);
     BeginTxx_failure := fun _ => None;
     ToSql_failure := fun _ => None;
     ExecContext_failure := fun _ _ => None;
     Scan_failure := fun _ _ => None;
     Commit_failure := fun _ => None |}.

Definition connectionLost : dberror := driverError "connection reset by peer".

(** The same, on a connection that breaks at commit. *)
Definition driverFailingCommit : Driver :=
  {| Revision := N;
     NoRevision := 0%N;
     revisionFromTransaction := fun txn => txn;
     scanRevision := fun txn => txn;
     revisionValue := fun rev => rev;
     liveDeletedTxnID := live;
     deletedTxnDefault := live;
     proto_Marshal := fun def => inl (NamespaceDefinition_Name def);
     proto_Unmarshal :=
       fun config => inl {| NamespaceDefinition_Name := config;
                            NamespaceDefinition_Relation := [] |};
     createNewTransaction :=
       fun tx =>
         let txn := (N.of_nat (List.length (otherTables tx)) + 1)%N in
         ({| tableNamespace := tableNamespace tx; tableTuple := tableTuple tx;
             otherTables := otherTables tx ++ [txn] |}, txn, None);
     BeginTxx_failure := fun _ => None;
     ToSql_failure := fun _ => None;
     ExecContext_failure := fun _ _ => None;
     Scan_failure := fun _ _ => None;
     Commit_failure := fun _ => Some connectionLost |}.

Definition emptyDatabase : Database :=
  {| tableNamespace := []; tableTuple := []; otherTables := [] |}.

(** One live definition of [user], created at transaction 1, with two live
    tuples of [user] and one of [document]. *)
Definition populated : Database :=
  {| tableNamespace :=
       [ {| colNamespace := "user"; colConfig := "user";
            colCreatedTxn := 1; colDeletedTxn := live |} ];
     tableTuple :=
       [ {| tupleNamespace := "user"; tupleDeletedTxn := live;
            tupleOtherColumns := "alice" |};
         {| tupleNamespace := "document"; tupleDeletedTxn := live;
            tupleOtherColumns := "readme" |};
         {| tupleNamespace := "user"; tupleDeletedTxn := live;
            tupleOtherColumns := "bob" |} ];
     otherTables := [1%N] |}.

End SamplePostgres.

(* ================================================================== *)
(** * Properties *)

(** ** The error classifier *)

Section Classifier.

Lemma errors_As_nil (p : ErrorType -> bool) : errors_As None p = false.
Proof. reflexivity. Qed.

Lemma status_Errorf_not_nil (c : codes) (msg : string) : status_Errorf c msg <> None.
Proof. discriminate. Qed.

(** The infrastructural mapping never turns an error into nil. *)
Lemma rewriteACLError_not_nil (e : error) : fst (rewriteACLError (Some e)) <> None.
Proof.
  unfold rewriteACLError.
  repeat match goal with
         | |- context [if ?c then _ else _] => destruct c
         end; cbn; discriminate.
Qed.

(** A developer error is produced exactly when a row of the table matches,
    and logs nothing. *)
Lemma distinguishGraphError_developer (err : option error)
    (source : DeveloperError_Source) (line column : N) (context : string)
    (kind : DeveloperError_ErrorKind) :
  firstMatch err = Some kind ->
  distinguishGraphError err source line column context
  = (Some {| Message := Error err; Source := source; Kind := kind;
             Line := line; Column := column; Context := context |}, None, []).
Proof.
  unfold firstMatch, distinguishGraphError, errors_Is; cbn.
  destruct (errors_As err isErrMaxDepth);
    [ intros [= <-]; reflexivity | ].
  destruct (errors_As err isUnknownNamespaceError);
    [ intros [= <-]; reflexivity | ].
  destruct (errors_As err isUnknownRelationError);
    [ intros [= <-]; reflexivity | ].
  destruct (errors_As err isInvalidRelationError);
    [ intros [= <-]; reflexivity | ].
  discriminate.
Qed.

Lemma distinguishGraphError_infrastructural (err : option error)
    (source : DeveloperError_Source) (line column : N) (context : string) :
  firstMatch err = None ->
  distinguishGraphError err source line column context
  = (None, fst (rewriteACLError err), snd (rewriteACLError err)).
Proof.
  unfold firstMatch, distinguishGraphError, errors_Is; cbn.
  destruct (errors_As err isErrMaxDepth); [ discriminate | ].
  destruct (errors_As err isUnknownNamespaceError); [ discriminate | ].
  destruct (errors_As err isUnknownRelationError); [ discriminate | ].
  destruct (errors_As err isInvalidRelationError); [ discriminate | ].
  intros _. destruct (rewriteACLError err); reflexivity.
Qed.

(** Whenever a developer error comes out, nothing was logged. *)
Lemma distinguishGraphError_quiet (err : option error)
    (source : DeveloperError_Source) (line column : N) (context : string)
    (devErr : DeveloperError) (wireErr : option error) (lg : list LogEntry) :
  distinguishGraphError err source line column context = (Some devErr, wireErr, lg) ->
  lg = [] /\ wireErr = None.
Proof.
  destruct (firstMatch err) as [kind|] eqn:Hm.
  - rewrite (distinguishGraphError_developer _ _ _ _ _ _ Hm).
    intros [= _ <- <-]. split; reflexivity.
  - rewrite (distinguishGraphError_infrastructural _ _ _ _ _ Hm). discriminate.
Qed.

Lemma firstMatch_depth (err : option error) :
  errors_Is err isErrMaxDepth = true -> firstMatch err = Some MAXIMUM_RECURSION.
Proof.
  unfold errors_Is, firstMatch, classificationTable. intros H.
  cbn [find fst]. rewrite H. reflexivity.
Qed.

(** C4. Classifier totality: for every non-nil dispatch error (those of the
    known categories among them) the classifier returns either a developer
    error or an infrastructural error, never both and never neither; the
    rows of the classification table are tried in their fixed order and the
    first that matches decides the kind; for an error that is the depth-limit
    error the developer error has kind MAXIMUM_RECURSION. *)
Theorem classify_exactly_one (e : error) (source : DeveloperError_Source)
    (line column : N) (context : string) :
  let '(devErr, wireErr, _) :=
    DistinguishGraphError (Some e) source line column context in
  ((devErr <> None /\ wireErr = None) \/ (devErr = None /\ wireErr <> None))
  /\ option_map Kind devErr = firstMatch (Some e)
  /\ (errors_Is (Some e) isErrMaxDepth = true ->
      option_map Kind devErr = Some MAXIMUM_RECURSION).
Proof.
  unfold DistinguishGraphError.
  destruct (firstMatch (Some e)) as [kind|] eqn:Hm.
  - rewrite (distinguishGraphError_developer _ source line column context _ Hm).
    cbn. split; [ left; split; [discriminate | reflexivity] | ].
    split; [ reflexivity | ].
    intros Hdepth. rewrite (firstMatch_depth (Some e) Hdepth) in Hm. symmetry. exact Hm.
  - rewrite (distinguishGraphError_infrastructural _ source line column context Hm).
    split; [ right; split; [reflexivity | apply rewriteACLError_not_nil] | ].
    split; [ reflexivity | ].
    intros Hdepth. rewrite (firstMatch_depth (Some e) Hdepth) in Hm. discriminate.
Qed.

(** The depth-limit error wrapped under an unknown-relation error: the first
    row of the table wins. *)
Lemma classify_exactly_one_witness :
  let e := errWrap UnknownRelationError "relation not found"
             (errNew ErrMaxDepth "max depth exceeded") in
  knownCategory (typeOf e) = true
  /\ errors_Is (Some e) isErrMaxDepth = true
  /\ option_map Kind (fst (fst (DistinguishGraphError (Some e) RELATIONSHIP 3 7 "doc")))
     = Some MAXIMUM_RECURSION.
Proof.
  cbv zeta. split; [ reflexivity | ]. split; [ reflexivity | ].
  pose proof (classify_exactly_one
                (errWrap UnknownRelationError "relation not found"
                   (errNew ErrMaxDepth "max depth exceeded"))
                RELATIONSHIP 3 7 "doc") as H.
  destruct (DistinguishGraphError _ _ _ _ _) as [[devErr wireErr] lg].
  destruct H as (_ & _ & H). cbn. apply H. reflexivity.
Defined.

(** A nil error is the one input on which the classifier returns neither. *)
Remark classify_nil (source : DeveloperError_Source) (line column : N)
    (context : string) :
  fst (DistinguishGraphError None source line column context) = (None, None).
Proof. reflexivity. Qed.

End Classifier.

(* ================================================================== *)
(** ** Disposal *)

Section Disposal.
Context {E : Environment}.

Lemma Dispose_both (dc : DevContext) (d : dispatch_Dispatcher)
    (ds : datastore_Datastore) :
  Dispatcher dc = Some d -> Datastore dc = Some ds ->
  Dispose dc
  = Returned
      ({| Datastore := Some (closedDatastore ds); Revision := Revision dc;
          CompiledSchema := CompiledSchema dc;
          Dispatcher := Some (closedDispatcher d) |},
       (EvDispatcherClose
          :: logFailure (Dispatcher_Close_failure d)
               "error when disposing of dispatcher in devcontext")
       ++ EvDatastoreClose
          :: logFailure (Datastore_Close_failure ds)
               "error when disposing of datastore in devcontext").
Proof.
  intros Hd Hds. unfold Dispose. rewrite Hd, Hds. reflexivity.
Qed.

(** With a nil dispatcher [Dispose] returns at once: a storage handle the
    sandbox may hold is left as it is. *)
Lemma Dispose_nil_dispatcher (dc : DevContext) :
  Dispatcher dc = None -> Dispose dc = Returned (dc, []).
Proof. intros H. unfold Dispose. rewrite H. reflexivity. Qed.

Lemma Dispose_nil_datastore (dc : DevContext) (d : dispatch_Dispatcher) :
  Dispatcher dc = Some d -> Datastore dc = None ->
  Dispose dc
  = Returned
      ({| Datastore := None; Revision := Revision dc;
          CompiledSchema := CompiledSchema dc;
          Dispatcher := Some (closedDispatcher d) |},
       EvDispatcherClose
         :: logFailure (Dispatcher_Close_failure d)
              "error when disposing of dispatcher in devcontext").
Proof.
  intros Hd Hds. unfold Dispose. rewrite Hd, Hds. reflexivity.
Qed.

(** C8. Disposing a sandbox that holds a dispatcher and a storage handle
    closes the dispatcher first and the storage handle second, both of them
    whatever the sandbox otherwise holds and whatever the two closes report;
    a failure of either close is logged, and [Dispose] has no error result
    through which it could reach the caller; and on a sandbox whose
    dispatcher or storage handle is nil, [Dispose] returns without panic. *)
Theorem Dispose_releases_dispatcher_then_datastore (dc : DevContext) :
  (forall d ds, Dispatcher dc = Some d -> Datastore dc = Some ds ->
     exists dc' events,
       Dispose dc = Returned (dc', events)
       /\ closeEvents events = [EvDispatcherClose; EvDatastoreClose]
       /\ Dispatcher dc' = Some (closedDispatcher d)
       /\ dispatcherClosed (closedDispatcher d) = S (dispatcherClosed d)
       /\ Datastore dc' = Some (closedDatastore ds)
       /\ journal (closedDatastore ds) = journal ds ++ [OpClose]
       /\ logEvents events
          = map (fun err => {| logErr := Some err;
                               logMsg := "error when disposing of dispatcher in devcontext" |})
                (match Dispatcher_Close_failure d with Some e => [e] | None => [] end)
            ++ map (fun err => {| logErr := Some err;
                                  logMsg := "error when disposing of datastore in devcontext" |})
                (match Datastore_Close_failure ds with Some e => [e] | None => [] end))
  /\ returns (Dispose dc) = true.
Proof.
  split.
  - intros d ds Hd Hds. rewrite (Dispose_both dc d ds Hd Hds).
    eexists. eexists. split; [ reflexivity | ].
    cbn [Datastore Dispatcher].
    repeat split; try reflexivity.
    + destruct (Dispatcher_Close_failure d), (Datastore_Close_failure ds); reflexivity.
    + destruct (Dispatcher_Close_failure d), (Datastore_Close_failure ds); reflexivity.
  - destruct (Dispatcher dc) as [d|] eqn:Hd.
    + destruct (Datastore dc) as [ds|] eqn:Hds.
      * rewrite (Dispose_both dc d ds Hd Hds). reflexivity.
      * rewrite (Dispose_nil_datastore dc d Hd Hds). reflexivity.
    + rewrite (Dispose_nil_dispatcher dc Hd). reflexivity.
Qed.

End Disposal.

(** Both closes fail: both are attempted, in order, and both failures are
    logged. *)
Lemma Dispose_releases_dispatcher_then_datastore_witness :
  let dc := {| Datastore := Some emptyStore; Revision := revisionAt 1;
               CompiledSchema := {| ObjectDefinitions := []; CaveatDefinitions := [] |};
               Dispatcher := Some (NewLocalOnlyDispatcher 10) |} in
  exists dc' events,
    @Dispose Sample.envFailingClose dc = Returned (dc', events)
    /\ closeEvents events = [EvDispatcherClose; EvDatastoreClose]
    /\ List.length (logEvents events) = 2.
Proof.
  cbv zeta.
  destruct (@Dispose_releases_dispatcher_then_datastore Sample.envFailingClose
              {| Datastore := Some emptyStore; Revision := revisionAt 1;
                 CompiledSchema := {| ObjectDefinitions := []; CaveatDefinitions := [] |};
                 Dispatcher := Some (NewLocalOnlyDispatcher 10) |})
    as [H _].
  destruct (H (NewLocalOnlyDispatcher 10) emptyStore eq_refl eq_refl)
    as (dc' & events & Hrun & Hclose & _ & _ & _ & _ & Hlog).
  exists dc', events. split; [ exact Hrun | ]. split; [ exact Hclose | ].
  rewrite Hlog. reflexivity.
Defined.

(* ================================================================== *)
(** ** Construction and the storage handle *)

Section Construction.
Context {E : Environment}.

Lemma closes_app (j1 j2 : list StoreOp) : closes (j1 ++ j2) = closes j1 + closes j2.
Proof. unfold closes. rewrite filter_app, length_app. reflexivity. Qed.

Lemma WriteCaveats_closes rwt defs :
  closes (txJournal (fst (WriteCaveats rwt defs))) = closes (txJournal rwt).
Proof.
  unfold WriteCaveats. destruct (WriteCaveats_failure rwt defs); cbn [fst txJournal]; [ reflexivity | ].
  rewrite closes_app. cbn. lia.
Qed.

Lemma WriteNamespaces_closes rwt def :
  closes (txJournal (fst (WriteNamespaces rwt def))) = closes (txJournal rwt).
Proof.
  unfold WriteNamespaces. destruct (WriteNamespaces_failure rwt def); cbn [fst txJournal]; [ reflexivity | ].
  rewrite closes_app. cbn. lia.
Qed.

Lemma WriteRelationships_closes rwt updates :
  closes (txJournal (fst (WriteRelationships rwt updates))) = closes (txJournal rwt).
Proof.
  unfold WriteRelationships.
  destruct (WriteRelationships_failure rwt updates); cbn [fst txJournal];
    [ reflexivity | ].
  rewrite closes_app. cbn. lia.
Qed.

Lemma loadCaveats_closes defs : forall rwt errors,
  closes (txJournal (fst (fst (loadCaveats defs rwt errors)))) = closes (txJournal rwt).
Proof.
  induction defs as [|def rest IH]; intros rwt errors; cbn; [ reflexivity | ].
  destruct (ValidateCaveatDefinition def); [ apply IH | ].
  pose proof (WriteCaveats_closes rwt [def]) as Hw.
  destruct (WriteCaveats rwt [def]) as [rwt' [err|]]; cbn in *; [ exact Hw | ].
  rewrite IH. exact Hw.
Qed.

Lemma loadNamespaces_closes resolver defs : forall rwt errors,
  closes (txJournal (fst (fst (loadNamespaces resolver defs rwt errors))))
  = closes (txJournal rwt).
Proof.
  induction defs as [|def rest IH]; intros rwt errors; cbn; [ reflexivity | ].
  destruct (NewNamespaceTypeSystem def resolver) as [ts|terr]; [ | apply IH ].
  destruct (TypeSystem_Validate ts); [ apply IH | ].
  pose proof (WriteNamespaces_closes rwt def) as Hw.
  destruct (WriteNamespaces rwt def) as [rwt' [err|]]; cbn in *; [ exact Hw | ].
  rewrite IH. exact Hw.
Qed.

Lemma loadCompiled_closes compiled rwt :
  closes (txJournal (fst (fst (loadCompiled compiled rwt)))) = closes (txJournal rwt).
Proof.
  unfold loadCompiled.
  pose proof (loadCaveats_closes (CaveatDefinitions compiled) rwt []) as Hc.
  destruct (loadCaveats (CaveatDefinitions compiled) rwt []) as [[rwt' errors] [err|]];
    cbn in *; [ exact Hc | ].
  rewrite loadNamespaces_closes. exact Hc.
Qed.

Lemma loadTuples_closes tuples rwt :
  closes (txJournal (fst (fst (fst (loadTuples tuples rwt))))) = closes (txJournal rwt).
Proof.
  unfold loadTuples.
  destruct (scanTuples tuples rwt [] [] []) as [devErrors wireErr lg|devErrors updates lg];
    [ reflexivity | ].
  pose proof (WriteRelationships_closes rwt updates) as Hw.
  destruct (WriteRelationships rwt updates) as [rwt' err]. exact Hw.
Qed.

Lemma loadInTransaction_closes compiled requestContext rwt :
  closes (txJournal (fst (fst (loadInTransaction compiled requestContext rwt))))
  = closes (txJournal rwt).
Proof.
  unfold loadInTransaction.
  pose proof (loadCompiled_closes compiled rwt) as Hc.
  destruct (loadCompiled compiled rwt) as [[rwt1 inputErrors] err]. cbn in Hc.
  destruct (notNil err || (0 <? List.length inputErrors)%nat); [ exact Hc | ].
  pose proof (loadTuples_closes (Relationships requestContext) rwt1) as Ht.
  destruct (loadTuples (Relationships requestContext) rwt1)
    as [[[rwt2 inputErrors2] err2] lg]. cbn in Ht.
  destruct (notNil err2 || (0 <? List.length inputErrors2)%nat); cbn; congruence.
Qed.

Lemma ReadWriteTx_closes {V : Type} ds
    (fn : ReadWriteTransaction -> ReadWriteTransaction * V * option error) :
  (forall rwt, closes (txJournal (fst (fst (fn rwt)))) = closes (txJournal rwt)) ->
  closes (journal (fst (fst (fst (ReadWriteTx ds fn))))) = closes (journal ds).
Proof.
  intros Hfn. unfold ReadWriteTx. specialize (Hfn (beginTx ds)).
  destruct (fn (beginTx ds)) as [[rwt v] [err|]]; cbn [fst journal] in *;
    rewrite !closes_app, Hfn; cbn; lia.
Qed.

(** Building the sandbox never closes the datastore it is given. *)
Lemma newDevContextWithDatastore_closes requestContext ds :
  closes (journal (store (newDevContextWithDatastore requestContext ds)))
  = closes (journal ds).
Proof.
  unfold newDevContextWithDatastore.
  destruct (CompileSchema (Schema requestContext)) as [[compiled devError] err].
  destruct (notNil err); [ reflexivity | ].
  destruct devError; [ reflexivity | ].
  pose proof (ReadWriteTx_closes ds (loadInTransaction compiled requestContext)
                (loadInTransaction_closes compiled requestContext)) as Htx.
  destruct (ReadWriteTx ds (loadInTransaction compiled requestContext))
    as [[[ds' [inputErrors lg]] rev] err']. cbn in Htx.
  destruct (notNil err' || (0 <? List.length inputErrors)%nat); [ exact Htx | ].
  destruct (RequestContext_Validate requestContext); exact Htx.
Qed.

(** A sandbox comes without developer errors and without error. *)
Lemma newDevContextWithDatastore_success requestContext ds :
  let b := newDevContextWithDatastore requestContext ds in
  (dctx b <> None <-> nerr b = None /\ devErrs b = None).
Proof.
  cbv zeta. unfold newDevContextWithDatastore.
  destruct (CompileSchema (Schema requestContext)) as [[compiled devError] err].
  destruct err as [e|]; cbn [notNil isNil negb].
  { cbn [dctx nerr devErrs].
    split; [ intros H; exfalso; apply H; reflexivity | intros [H _]; discriminate ]. }
  destruct devError.
  { cbn [dctx nerr devErrs].
    split; [ intros H; exfalso; apply H; reflexivity | intros [_ H]; discriminate ]. }
  destruct (ReadWriteTx ds (loadInTransaction compiled requestContext))
    as [[[ds' [inputErrors lg]] rev] err'].
  destruct (notNil err' || (0 <? List.length inputErrors)%nat).
  { cbn [dctx nerr devErrs].
    split; [ intros H; exfalso; apply H; reflexivity | intros [_ H]; discriminate ]. }
  destruct (RequestContext_Validate requestContext); cbn [dctx nerr devErrs].
  { split; [ intros H; exfalso; apply H; reflexivity | intros [H _]; discriminate ]. }
  split; [ intros _; split; reflexivity | intros _; discriminate ].
Qed.

(** C9. Whenever the construction of a sandbox fails, with an
    infrastructural error or with developer errors, the datastore that
    [NewDevContext] created has been closed, once and as the last thing done
    to it, by the time [NewDevContext] returns. *)
Theorem failed_construction_closes_datastore (requestContext : RequestContext)
    (ds : datastore_Datastore) :
  let r := NewDevContext requestContext in
  created r = Some ds ->
  failure r <> None \/ developerErrors r <> None ->
  sandbox r = None
  /\ exists j, journal ds = j ++ [OpClose] /\ closes j = 0.
Proof.
  cbv zeta. unfold NewDevContext, NewMemdbDatastore.
  destruct NewMemdbDatastore_failure as [err|]; [ discriminate | ].
  set (b := newDevContextWithDatastore requestContext _).
  pose proof (newDevContextWithDatastore_closes requestContext emptyStore) as Hc.
  pose proof (newDevContextWithDatastore_success requestContext emptyStore) as Hs.
  cbv zeta in Hs. fold b in Hc, Hs.
  destruct (notNil (nerr b) || notNil (devErrs b)) eqn:Hfail.
  - unfold Datastore_Close.
    assert (Hnone : dctx b = None).
    { destruct (dctx b) eqn:Hd; [ | reflexivity ].
      destruct Hs as [Hs _]. destruct Hs as [H1 H2]; [ discriminate | ].
      rewrite H1, H2 in Hfail. discriminate. }
    destruct (notNil (Datastore_Close_failure (store b))); cbn;
      intros [= <-] _; (split; [ try reflexivity; exact Hnone | ]);
      exists (journal (store b)); (split; [ reflexivity | exact Hc ]).
  - cbn. intros _ [H|H]; contradiction.
Qed.

(** C10. When the construction failed and closing the fresh datastore fails
    too, [NewDevContext] returns the error of the close alone: no sandbox, no
    developer errors, and not the error the construction failed with. *)
Theorem close_error_masks_construction_failure (requestContext : RequestContext)
    (ds0 : datastore_Datastore) (derr : error) :
  NewMemdbDatastore = (Some ds0, None) ->
  let b := newDevContextWithDatastore requestContext ds0 in
  nerr b <> None \/ devErrs b <> None ->
  Datastore_Close_failure (store b) = Some derr ->
  let r := NewDevContext requestContext in
  sandbox r = None /\ developerErrors r = None /\ failure r = Some derr.
Proof.
  intros Hnew b Hfail Hclose. cbv zeta. unfold NewDevContext. rewrite Hnew.
  fold b.
  assert (Hb : notNil (nerr b) || notNil (devErrs b) = true).
  { destruct Hfail as [H|H].
    - destruct (nerr b); [ reflexivity | contradiction ].
    - destruct (devErrs b); [ apply orb_true_r | contradiction ]. }
  rewrite Hb. unfold Datastore_Close. rewrite Hclose. cbn.
  repeat split.
Qed.

End Construction.

(** One invalid object definition: the construction fails with a developer
    error and the fresh datastore is closed. *)
Lemma failed_construction_closes_datastore_witness :
  exists ds,
    created (@NewDevContext Sample.env Sample.mixedDefinitions) = Some ds
    /\ developerErrors (@NewDevContext Sample.env Sample.mixedDefinitions) <> None
    /\ exists j, journal ds = j ++ [OpClose] /\ closes j = 0.
Proof.
  eexists. split; [ reflexivity | ]. split; [ discriminate | ].
  apply (@failed_construction_closes_datastore Sample.env Sample.mixedDefinitions).
  - reflexivity.
  - right. discriminate.
Defined.

(** The same request where the close fails: the developer error about
    [folder] is lost. *)
Lemma close_error_masks_construction_failure_witness :
  let r := @NewDevContext Sample.envFailingClose Sample.mixedDefinitions in
  sandbox r = None /\ developerErrors r = None /\ failure r = Some Sample.closeError.
Proof.
  apply (@close_error_masks_construction_failure Sample.envFailingClose
           Sample.mixedDefinitions emptyStore Sample.closeError).
  - reflexivity.
  - right. discriminate.
  - reflexivity.
Defined.

(* ================================================================== *)
(** ** Loading the schema *)

Section LoadingSchema.
Context {E : Environment}.
Hypothesis caveat_writes_succeed :
  forall rwt defs, WriteCaveats_failure rwt defs = None.
Hypothesis namespace_writes_succeed :
  forall rwt def, WriteNamespaces_failure rwt def = None.

Lemma afterWrites_nothing rwt : afterWrites rwt [] [] = rwt.
Proof.
  destruct rwt. unfold afterWrites. cbn. rewrite !app_nil_r. reflexivity.
Qed.

Lemma afterWrites_caveat rwt def cs :
  afterWrites (fst (WriteCaveats rwt [def])) cs [] = afterWrites rwt (def :: cs) [].
Proof.
  unfold WriteCaveats. rewrite caveat_writes_succeed.
  unfold afterWrites. cbn. rewrite <- !app_assoc. reflexivity.
Qed.

Lemma afterWrites_namespace rwt def ns :
  afterWrites (fst (WriteNamespaces rwt def)) [] ns = afterWrites rwt [] (def :: ns).
Proof.
  unfold WriteNamespaces. rewrite namespace_writes_succeed.
  unfold afterWrites. cbn. rewrite <- !app_assoc. reflexivity.
Qed.

Lemma afterWrites_then rwt cs ns :
  afterWrites (afterWrites rwt cs []) [] ns = afterWrites rwt cs ns.
Proof.
  unfold afterWrites. cbn. rewrite !app_nil_r, <- !app_assoc. reflexivity.
Qed.

(** The loop over the caveats writes the valid ones, one by one, and records
    one developer error for each of the others. *)
Lemma loadCaveats_all defs : forall rwt errors,
  loadCaveats defs rwt errors
  = (afterWrites rwt (filter validCaveat defs) [], errors ++ caveatIssues defs, None).
Proof.
  induction defs as [|def rest IH]; intros rwt errors.
  - cbn. rewrite afterWrites_nothing, app_nil_r. reflexivity.
  - cbn [loadCaveats filter caveatIssues flat_map]. unfold validCaveat at 1.
    destruct (ValidateCaveatDefinition def) as [cverr|] eqn:Hv; cbn [isNil].
    + rewrite IH. rewrite <- app_assoc. reflexivity.
    + pose proof (afterWrites_caveat rwt def (filter validCaveat rest)) as Hw.
      unfold WriteCaveats in *. rewrite caveat_writes_succeed in *. cbn [fst] in Hw.
      rewrite IH, Hw. reflexivity.
Qed.

Lemma loadNamespaces_all resolver defs : forall rwt errors,
  loadNamespaces resolver defs rwt errors
  = (afterWrites rwt [] (filter (validNamespace resolver) defs),
     errors ++ namespaceIssues resolver defs, None).
Proof.
  induction defs as [|def rest IH]; intros rwt errors.
  - cbn. rewrite afterWrites_nothing, app_nil_r. reflexivity.
  - cbn [loadNamespaces filter namespaceIssues flat_map].
    unfold validNamespace at 1. unfold namespaceError at 1 2.
    destruct (NewNamespaceTypeSystem def resolver) as [ts|terr].
    + destruct (TypeSystem_Validate ts) as [tverr|]; cbn [isNil].
      * rewrite IH. rewrite <- app_assoc. reflexivity.
      * pose proof (afterWrites_namespace rwt def
                      (filter (validNamespace resolver) rest)) as Hw.
        unfold WriteNamespaces in *. rewrite namespace_writes_succeed in *.
        cbn [fst] in Hw. rewrite IH, Hw. reflexivity.
    + cbn [isNil]. rewrite IH. rewrite <- app_assoc. reflexivity.
Qed.

Lemma loadCompiled_all compiled rwt :
  loadCompiled compiled rwt
  = (afterWrites rwt (filter validCaveat (CaveatDefinitions compiled))
       (filter (validNamespace (ObjectDefinitions compiled, CaveatDefinitions compiled))
          (ObjectDefinitions compiled)),
     schemaIssues compiled, None).
Proof.
  unfold loadCompiled, schemaIssues.
  rewrite loadCaveats_all, loadNamespaces_all, afterWrites_then. reflexivity.
Qed.

Lemma nonempty_length {A : Type} (l : list A) :
  l <> [] -> (0 <? List.length l)%nat = true.
Proof. destruct l; [ intros H; exfalso; apply H; reflexivity | reflexivity ]. Qed.

(** Developer errors alone never make the function run in the transaction
    return an error: with schema issues and no storage failure it returns
    nil, and with it the writes of the valid definitions stand. *)
Lemma loadInTransaction_schema_issues compiled requestContext rwt rwt1 errors :
  loadCompiled compiled rwt = (rwt1, errors, None) -> errors <> [] ->
  loadInTransaction compiled requestContext rwt = (rwt1, (errors, []), None).
Proof.
  intros Hload Hne. unfold loadInTransaction. rewrite Hload.
  rewrite (nonempty_length _ Hne). reflexivity.
Qed.

(** C2, as the code has it. For a request whose schema compiles and has at
    least one caveat or object definition that fails validation, and with a
    storage that reports no failure: no sandbox is returned and the list of
    developer errors is the non-empty list of the schema issues; the
    relationships are not loaded; but the transaction is not aborted: every
    valid caveat and object definition was written, the function run in the
    transaction returns no error, and the transaction is committed with
    exactly those definitions; none of the invalid definitions is written.
    The datastore is closed before [NewDevContext] returns. *)
Theorem schema_issues_reported_valid_definitions_committed
    (requestContext : RequestContext) (compiled : compiler_CompiledSchema) :
  NewMemdbDatastore_failure = None ->
  (forall ds, Datastore_Close_failure ds = None) ->
  CompileSchema (Schema requestContext) = (compiled, None, None) ->
  schemaIssues compiled <> [] ->
  let r := NewDevContext requestContext in
  let cs := filter validCaveat (CaveatDefinitions compiled) in
  let ns := filter (validNamespace (ObjectDefinitions compiled, CaveatDefinitions compiled))
              (ObjectDefinitions compiled) in
  sandbox r = None /\ failure r = None
  /\ developerErrors r = Some {| InputErrors := schemaIssues compiled |}
  /\ exists ds,
       created r = Some ds
       /\ storedCaveats ds = cs
       /\ storedNamespaces ds = ns
       /\ storedRelationships ds = []
       /\ journal ds = map (fun def => OpWriteCaveats [def]) cs
                       ++ map OpWriteNamespaces ns
                       ++ [OpCommit (revisionAt 1); OpClose].
Proof.
  intros Hnew Hclose Hcompile Hissues. cbv zeta.
  unfold NewDevContext, NewMemdbDatastore. rewrite Hnew.
  unfold newDevContextWithDatastore. rewrite Hcompile. cbn [notNil isNil negb].
  unfold ReadWriteTx, loadInTransaction. rewrite loadCompiled_all.
  rewrite (nonempty_length _ Hissues). cbn [notNil isNil negb orb].
  rewrite (nonempty_length _ Hissues). cbn [nerr devErrs notNil isNil negb orb store].
  unfold Datastore_Close. rewrite Hclose. cbn [notNil isNil negb].
  cbn [sandbox failure developerErrors created dctx nerr devErrs].
  repeat (split; [ reflexivity | ]).
  eexists. split; [ reflexivity | ].
  cbn. repeat split; try reflexivity.
  rewrite <- !app_assoc. reflexivity.
Qed.

End LoadingSchema.

(** One valid and one invalid object definition. *)
Lemma schema_issues_reported_valid_definitions_committed_witness :
  let r := @NewDevContext Sample.env Sample.mixedDefinitions in
  sandbox r = None
  /\ (exists issue, developerErrors r = Some {| InputErrors := [issue] |})
  /\ exists ds, created r = Some ds /\ storedNamespaces ds = [Sample.user].
Proof.
  destruct (@schema_issues_reported_valid_definitions_committed Sample.env
              (fun _ _ => eq_refl) (fun _ _ => eq_refl)
              Sample.mixedDefinitions
              {| ObjectDefinitions := [Sample.user; Sample.folder];
                 CaveatDefinitions := [] |}
              eq_refl (fun _ => eq_refl) eq_refl)
    as (Hs & _ & He & ds & Hds & _ & Hns & _).
  - discriminate.
  - cbv zeta. split; [ exact Hs | ]. split.
    + eexists. rewrite He. reflexivity.
    + exists ds. split; [ exact Hds | ]. rewrite Hns. reflexivity.
Defined.

(** C2, as the specification words it, fails: the valid definition is
    written and committed although the other one is rejected. *)
Lemma sandbox_abort_invariant_fails :
  ~ @sandbox_abort_invariant Sample.env Sample.mixedDefinitions.
Proof.
  unfold sandbox_abort_invariant. cbn [CompileSchema Sample.env].
  intros H.
  assert (Hiss : @schemaIssues Sample.env
                   {| ObjectDefinitions := [Sample.user; Sample.folder];
                      CaveatDefinitions := [] |} <> []) by discriminate.
  destruct (H Hiss) as [_ Hstore].
  destruct (Hstore _ eq_refl) as (_ & Hns & _).
  discriminate Hns.
Qed.

(* ================================================================== *)
(** ** Loading the relationships *)

Section LoadingRelationships.
Context {E : Environment}.

Lemma ONR_eqb_eq (a b : ObjectAndRelation) : ONR_eqb a b = true <-> a = b.
Proof.
  unfold ONR_eqb. destruct a as [n1 o1 r1], b as [n2 o2 r2]. cbn.
  rewrite !andb_true_iff, !String.eqb_eq. split.
  - intros [[-> ->] ->]. reflexivity.
  - intros [= -> -> ->]. repeat split.
Qed.

Lemma RelationTuple_eqb_eq (a b : RelationTuple) : RelationTuple_eqb a b = true <-> a = b.
Proof.
  unfold RelationTuple_eqb. destruct a as [r1 s1], b as [r2 s2]. cbn.
  rewrite andb_true_iff, !ONR_eqb_eq. split.
  - intros [-> ->]. reflexivity.
  - intros [= -> ->]. split; reflexivity.
Qed.

Lemma applyUpdate_Touch_keeps l tpl t : In t l -> In t (applyUpdate l (Touch tpl)).
Proof.
  unfold applyUpdate. cbn.
  destruct (existsb (RelationTuple_eqb tpl) l); [ trivial | ].
  intros H. apply in_or_app. left. exact H.
Qed.

Lemma applyUpdate_Touch_has l tpl : In tpl (applyUpdate l (Touch tpl)).
Proof.
  unfold applyUpdate. cbn.
  destruct (existsb (RelationTuple_eqb tpl) l) eqn:Hex.
  - apply existsb_exists in Hex. destruct Hex as (x & Hin & Heq).
    apply RelationTuple_eqb_eq in Heq. subst x. exact Hin.
  - apply in_or_app. right. left. reflexivity.
Qed.

(** After a batch of upserts every relationship of the batch is stored. *)
Lemma touched_are_stored tuples : forall l tpl,
  In tpl l \/ In tpl tuples -> In tpl (fold_left applyUpdate (map Touch tuples) l).
Proof.
  induction tuples as [|t rest IH]; intros l tpl.
  - cbn. intros [H|[]]. exact H.
  - cbn [map fold_left]. intros [H|[H|H]]; apply IH.
    + left. apply applyUpdate_Touch_keeps. exact H.
    + left. subst t. apply applyUpdate_Touch_has.
    + right. exact H.
Qed.

(** As long as no relationship aborts it, the scan runs to the end: it has
    recorded the developer error of each rejected relationship and gathered
    the upsert of each accepted one, in order. *)
Lemma scanTuples_finishes rwt tuples : forall devErrors updates lg,
  forallb (notAborted rwt) tuples = true ->
  scanTuples tuples rwt devErrors updates lg
  = scanFinished (devErrors ++ rejections rwt tuples)
      (updates ++ map Touch (accepted rwt tuples)) lg.
Proof.
  induction tuples as [|tpl rest IH]; intros devErrors updates lg Hall.
  - cbn. rewrite !app_nil_r. reflexivity.
  - cbn [forallb] in Hall. apply andb_true_iff in Hall. destruct Hall as [Hone Hrest].
    unfold accepted in *. cbn [scanTuples rejections flat_map filter].
    unfold isAccepted at 1. unfold notAborted in Hone.
    unfold relationshipVerdict in *.
    destruct (RelationTuple_Validate tpl) as [verr|].
    + rewrite (IH _ _ _ Hrest). unfold rejections. rewrite <- app_assoc. reflexivity.
    + destruct (validateTupleWrite tpl rwt) as [err|].
      * destruct (distinguishGraphError (Some err) RELATIONSHIP 0 0 (tuple_String tpl))
          as [[[devErr|] wireErr] lg'] eqn:Hd; [ | discriminate Hone ].
        destruct (distinguishGraphError_quiet _ _ _ _ _ _ _ _ Hd) as [-> _].
        rewrite (IH _ _ _ Hrest). unfold rejections.
        rewrite app_nil_r, <- app_assoc. reflexivity.
      * rewrite (IH _ _ _ Hrest). cbn [map]. rewrite <- app_assoc. reflexivity.
Qed.

Lemma loadTuples_finishes rwt tuples :
  forallb (notAborted rwt) tuples = true ->
  loadTuples tuples rwt
  = (fst (WriteRelationships rwt (map Touch (accepted rwt tuples))),
     rejections rwt tuples,
     snd (WriteRelationships rwt (map Touch (accepted rwt tuples))), []).
Proof.
  intros Hall. unfold loadTuples. rewrite (scanTuples_finishes _ _ _ _ _ Hall).
  cbn [app]. destruct (WriteRelationships rwt _). reflexivity.
Qed.

(** One developer error per bad relationship. *)
Lemma one_rejection_per_bad rwt tuples :
  forallb (notAborted rwt) tuples = true ->
  List.length (rejections rwt tuples) = List.length (filter (isBad rwt) tuples).
Proof.
  induction tuples as [|tpl rest IH]; intros Hall; [ reflexivity | ].
  cbn [forallb] in Hall. apply andb_true_iff in Hall. destruct Hall as [Hone Hrest].
  unfold rejections in *. cbn [flat_map filter]. rewrite length_app, (IH Hrest).
  unfold notAborted in Hone. unfold isBad at 2. unfold isAccepted.
  destruct (relationshipVerdict rwt tpl); [ reflexivity | reflexivity | discriminate ].
Qed.

Lemma some_bad_some_rejection rwt tuples :
  forallb (notAborted rwt) tuples = true ->
  existsb (isBad rwt) tuples = true ->
  (0 <? List.length (rejections rwt tuples))%nat = true.
Proof.
  intros Hall Hbad. rewrite (one_rejection_per_bad _ _ Hall).
  apply existsb_exists in Hbad. destruct Hbad as (tpl & Hin & Hb).
  assert (Hf : In tpl (filter (isBad rwt) tuples)) by (apply filter_In; auto).
  destruct (filter (isBad rwt) tuples); [ destruct Hf | reflexivity ].
Qed.

(** The same for the relationships: when the scan rejected some of them the
    batch of the others is written all the same, and the function run in
    the transaction returns the error of that write, nil when it succeeds. *)
Lemma loadInTransaction_rejections compiled requestContext rwt rwt1 :
  loadCompiled compiled rwt = (rwt1, [], None) ->
  forallb (notAborted rwt1) (Relationships requestContext) = true ->
  loadInTransaction compiled requestContext rwt
  = (fst (WriteRelationships rwt1
            (map Touch (accepted rwt1 (Relationships requestContext)))),
     (rejections rwt1 (Relationships requestContext), []),
     snd (WriteRelationships rwt1
            (map Touch (accepted rwt1 (Relationships requestContext))))).
Proof.
  intros Hload Hall. unfold loadInTransaction. rewrite Hload.
  change (0 <? List.length (@nil DeveloperError))%nat with false.
  cbn [notNil isNil negb orb]. rewrite (loadTuples_finishes _ _ Hall).
  destruct (WriteRelationships rwt1 _) as [rwt2 [err|]];
    cbn [fst snd notNil isNil negb orb]; [ reflexivity | ].
  destruct (0 <? _)%nat; reflexivity.
Qed.

(** C1, as the code has it. For a request for which the datastore is
    created, whose schema compiles and loads without error, whose scan of
    the relationships is not cut short by an infrastructural error and meets
    at least one bad relationship: the scan records exactly one developer
    error per bad relationship, in order; the batch write is not skipped:
    the upserts of the well-formed relationships are handed to one
    [WriteRelationships] call, whose error is what the function run in the
    transaction returns. When that write succeeds the transaction is not
    abandoned: it is committed with these relationships stored; when it
    fails the transaction is rolled back. In both cases no sandbox is
    returned and [NewDevContext] closes the datastore afterwards: when the
    close succeeds it returns the developer errors together with the error
    of the write (nil when the write succeeded), and when the close fails it
    returns the error of the close alone. *)
Theorem bad_relationships_reported_batch_written
    (requestContext : RequestContext) (compiled : compiler_CompiledSchema)
    (rwt1 : ReadWriteTransaction) :
  NewMemdbDatastore_failure = None ->
  CompileSchema (Schema requestContext) = (compiled, None, None) ->
  loadCompiled compiled (beginTx emptyStore) = (rwt1, [], None) ->
  forallb (notAborted rwt1) (Relationships requestContext) = true ->
  existsb (isBad rwt1) (Relationships requestContext) = true ->
  let r := NewDevContext requestContext in
  let good := accepted rwt1 (Relationships requestContext) in
  let devErrors := rejections rwt1 (Relationships requestContext) in
  let written := WriteRelationships rwt1 (map Touch good) in
  List.length devErrors
  = List.length (filter (isBad rwt1) (Relationships requestContext))
  /\ devErrors <> []
  /\ loadTuples (Relationships requestContext) rwt1
     = (fst written, devErrors, snd written, [])
  /\ loadInTransaction compiled requestContext (beginTx emptyStore)
     = (fst written, (devErrors, []), snd written)
  /\ sandbox r = None
  /\ exists ds,
       created r = Some (closedDatastore ds)
       /\ (Datastore_Close_failure ds = None ->
           developerErrors r = Some {| InputErrors := devErrors |}
           /\ failure r = snd written)
       /\ (forall derr, Datastore_Close_failure ds = Some derr ->
           developerErrors r = None /\ failure r = Some derr)
       /\ (snd written = None ->
           journal (closedDatastore ds)
           = txJournal rwt1 ++ [OpWriteRelationships (map Touch good);
                                OpCommit (revisionAt 1); OpClose]
           /\ storedRelationships (closedDatastore ds)
              = fold_left applyUpdate (map Touch good) (txRelationships rwt1)
           /\ forall tpl, In tpl good -> In tpl (storedRelationships (closedDatastore ds)))
       /\ (snd written <> None ->
           journal (closedDatastore ds) = txJournal rwt1 ++ [OpRollback; OpClose]
           /\ storedRelationships (closedDatastore ds) = []).
Proof.
  intros Hnew Hcompile Hload Hall Hbad. cbv zeta.
  pose proof (some_bad_some_rejection _ _ Hall Hbad) as Hsome.
  split; [ apply one_rejection_per_bad; exact Hall | ].
  split; [ intros Hnil; rewrite Hnil in Hsome; discriminate Hsome | ].
  split; [ apply loadTuples_finishes; exact Hall | ].
  split; [ apply loadInTransaction_rejections; assumption | ].
  unfold NewDevContext, NewMemdbDatastore. rewrite Hnew.
  unfold newDevContextWithDatastore. rewrite Hcompile. cbn [notNil isNil negb].
  unfold ReadWriteTx.
  rewrite (loadInTransaction_rejections _ _ _ _ Hload Hall).
  unfold closedDatastore, WriteRelationships.
  destruct (WriteRelationships_failure rwt1
              (map Touch (accepted rwt1 (Relationships requestContext))))
    as [werr|]; cbn [fst snd notNil isNil negb orb nerr devErrs store].
  - unfold Datastore_Close.
    match goal with
    | |- context [Datastore_Close_failure ?d] =>
        set (dsTx := d); destruct (Datastore_Close_failure dsTx) as [derr|] eqn:Hclose
    end; cbn [notNil isNil negb fst sandbox failure developerErrors created dctx nerr
              devErrs];
      (split; [ reflexivity | ]); exists dsTx; (split; [ reflexivity | ]).
    + split; [ intros Hc; rewrite Hclose in Hc; discriminate Hc | ].
      split; [ intros derr' Hc; rewrite Hclose in Hc; injection Hc as <-;
               split; reflexivity | ].
      split; [ discriminate | ]. intros _. subst dsTx.
      cbn [journal storedRelationships emptyStore app]. rewrite <- app_assoc.
      split; reflexivity.
    + split; [ intros _; split; reflexivity | ].
      split; [ intros derr' Hc; rewrite Hclose in Hc; discriminate Hc | ].
      split; [ discriminate | ]. intros _. subst dsTx.
      cbn [journal storedRelationships emptyStore app]. rewrite <- app_assoc.
      split; reflexivity.
  - rewrite Hsome. cbn [notNil isNil negb orb nerr devErrs store].
    unfold Datastore_Close.
    match goal with
    | |- context [Datastore_Close_failure ?d] =>
        set (dsTx := d); destruct (Datastore_Close_failure dsTx) as [derr|] eqn:Hclose
    end; cbn [notNil isNil negb fst sandbox failure developerErrors created dctx nerr
              devErrs];
      (split; [ reflexivity | ]); exists dsTx; (split; [ reflexivity | ]).
    + split; [ intros Hc; rewrite Hclose in Hc; discriminate Hc | ].
      split; [ intros derr' Hc; rewrite Hclose in Hc; injection Hc as <-;
               split; reflexivity | ].
      split; [ | intros Hw; exfalso; apply Hw; reflexivity ]. intros _. subst dsTx.
      cbn [journal storedRelationships txJournal txRelationships emptyStore app].
      split; [ rewrite <- !app_assoc; reflexivity | ].
      split; [ reflexivity | ].
      intros tpl Hin. apply touched_are_stored. right. exact Hin.
    + split; [ intros _; split; reflexivity | ].
      split; [ intros derr' Hc; rewrite Hclose in Hc; discriminate Hc | ].
      split; [ | intros Hw; exfalso; apply Hw; reflexivity ]. intros _. subst dsTx.
      cbn [journal storedRelationships txJournal txRelationships emptyStore app].
      split; [ rewrite <- !app_assoc; reflexivity | ].
      split; [ reflexivity | ].
      intros tpl Hin. apply touched_are_stored. right. exact Hin.
Qed.

End LoadingRelationships.

(** Three relationships, the second malformed: one developer error, and the
    first and the third are written and committed. *)
Lemma bad_relationships_reported_batch_written_witness :
  let r := @NewDevContext Sample.env Sample.threeRelationships in
  (exists devErr, developerErrors r = Some {| InputErrors := [devErr] |})
  /\ failure r = None
  /\ exists ds, created r = Some ds
       /\ In Sample.first (storedRelationships ds)
       /\ In Sample.third (storedRelationships ds).
Proof.
  destruct (@bad_relationships_reported_batch_written Sample.env
              Sample.threeRelationships
              {| ObjectDefinitions := [Sample.user; Sample.document];
                 CaveatDefinitions := [] |}
              {| txCaveats := []; txNamespaces := [Sample.user; Sample.document];
                 txRelationships := [];
                 txJournal := [OpWriteNamespaces Sample.user;
                               OpWriteNamespaces Sample.document] |}
              eq_refl eq_refl eq_refl eq_refl eq_refl)
    as (_ & _ & _ & _ & _ & ds & Hds & Hclosed & _ & Hwritten & _).
  destruct (Hclosed eq_refl) as [He Hf].
  destruct (Hwritten eq_refl) as (_ & _ & Hin).
  cbv zeta. split; [ eexists; rewrite He; reflexivity | ].
  split; [ rewrite Hf; reflexivity | ].
  eexists. split; [ exact Hds | ]. split; apply Hin.
  - left. reflexivity.
  - right. left. reflexivity.
Defined.

(** C1, as the specification words it, fails: with the second of three
    relationships malformed, the first and the third are written in a batch
    and the transaction is committed. *)
Lemma relationship_batch_invariant_fails :
  ~ @relationship_batch_invariant Sample.env Sample.threeRelationships.
Proof.
  unfold relationship_batch_invariant. intros H.
  destruct (H eq_refl) as [_ Hstore].
  destruct (Hstore _ eq_refl) as (Hrels & _).
  discriminate Hrels.
Qed.

(* ================================================================== *)
(** ** Sorting strings *)

Section SortingStrings.

Lemma leb_Lt_or_Eq (a b : string) :
  String.leb a b = true <-> String_as_OT.lt a b \/ a = b.
Proof.
  unfold String.leb. destruct (String.compare a b) eqn:Hc.
  - apply String_as_OT.cmp_eq in Hc. tauto.
  - apply String_as_OT.cmp_lt in Hc. tauto.
  - split; [ discriminate | ]. intros [Hlt| ->].
    + apply String_as_OT.cmp_lt in Hlt. unfold String_as_OT.cmp in Hlt. congruence.
    + assert (Heq : String_as_OT.cmp b b = Eq) by (apply String_as_OT.cmp_eq; reflexivity).
      unfold String_as_OT.cmp in Heq. congruence.
Qed.

Lemma leb_trans (a b c : string) :
  String.leb a b = true -> String.leb b c = true -> String.leb a c = true.
Proof.
  rewrite !leb_Lt_or_Eq. intros [Hab| ->] [Hbc| ->]; auto.
  left. eapply String_as_OT.lt_trans; eassumption.
Qed.

Lemma leb_flip (a b : string) : String.leb a b = false -> String.leb b a = true.
Proof.
  intros H. destruct (String.leb_total a b) as [Hab|Hba]; [ congruence | exact Hba ].
Qed.

Lemma insertString_Permutation (s : string) (l : list string) :
  Permutation (s :: l) (insertString s l).
Proof.
  induction l as [|x rest IH]; cbn; [ apply Permutation_refl | ].
  destruct (String.leb s x); [ apply Permutation_refl | ].
  eapply perm_trans; [ apply perm_swap | ]. apply perm_skip. exact IH.
Qed.

Lemma sort_Strings_Permutation (l : list string) : Permutation l (sort_Strings l).
Proof.
  induction l as [|x rest IH]; cbn; [ constructor | ].
  eapply perm_trans; [ apply perm_skip; exact IH | ]. apply insertString_Permutation.
Qed.

Lemma insertString_ascending (s : string) (l : list string) :
  ascending l -> ascending (insertString s l).
Proof.
  unfold ascending. induction l as [|x rest IH]; intros Hs; cbn.
  - constructor; constructor.
  - inversion Hs as [|? ? Hrest Hx]; subst.
    destruct (String.leb s x) eqn:Hsx.
    + constructor; [ exact Hs | ]. constructor; [ exact Hsx | ].
      eapply Forall_impl; [ | exact Hx ]. intros y Hy. cbv beta in *.
      eapply leb_trans; eassumption.
    + constructor; [ apply IH; exact Hrest | ].
      apply (Permutation_Forall (insertString_Permutation s rest)).
      constructor; [ apply leb_flip; exact Hsx | exact Hx ].
Qed.

Lemma sort_Strings_ascending (l : list string) : ascending (sort_Strings l).
Proof.
  induction l as [|x rest IH]; cbn; [ constructor | ].
  apply insertString_ascending. exact IH.
Qed.

(** Two ascending lists with the same elements are the same list. *)
Lemma ascending_unique (l1 : list string) : forall l2,
  ascending l1 -> ascending l2 -> Permutation l1 l2 -> l1 = l2.
Proof.
  unfold ascending.
  induction l1 as [|x1 r1 IH]; intros l2 H1 H2 Hp.
  - apply Permutation_nil in Hp. symmetry. exact Hp.
  - destruct l2 as [|x2 r2].
    + apply Permutation_sym, Permutation_nil in Hp. discriminate.
    + inversion H1 as [|? ? Hr1 Hx1]; subst. inversion H2 as [|? ? Hr2 Hx2]; subst.
      assert (Heq : x1 = x2).
      { assert (Hin2 : In x2 (x1 :: r1)).
        { apply (Permutation_in _ (Permutation_sym Hp)). left. reflexivity. }
        assert (Hin1 : In x1 (x2 :: r2)).
        { apply (Permutation_in _ Hp). left. reflexivity. }
        destruct Hin2 as [Heq|Hin2]; [ exact Heq | ].
        destruct Hin1 as [Heq|Hin1]; [ symmetry; exact Heq | ].
        rewrite Forall_forall in Hx1, Hx2.
        apply String.leb_antisym; [ apply Hx1; exact Hin2 | apply Hx2; exact Hin1 ]. }
      subst x2. f_equal. apply IH; try assumption.
      eapply Permutation_cons_inv. exact Hp.
Qed.

(** The order in which the strings come in does not show in the result. *)
Lemma sort_Strings_order_independent (l1 l2 : list string) :
  Permutation l1 l2 -> sort_Strings l1 = sort_Strings l2.
Proof.
  intros Hp. apply ascending_unique; try apply sort_Strings_ascending.
  eapply perm_trans; [ apply Permutation_sym, sort_Strings_Permutation | ].
  eapply perm_trans; [ exact Hp | apply sort_Strings_Permutation ].
Qed.

End SortingStrings.

(* ================================================================== *)
(** ** Found subjects *)

Section FoundSubjectProperties.
Import developmentmembership.

Lemma collectExcluded_unconditional excluded : forall acc,
  forallb unconditional excluded = true ->
  collectExcluded excluded acc = Returned (acc ++ map subject excluded).
Proof.
  induction excluded as [|x rest IH]; intros acc Hall; cbn.
  - rewrite app_nil_r. reflexivity.
  - cbn in Hall. apply andb_true_iff in Hall. destruct Hall as [Hx Hrest].
    unfold unconditional in Hx. unfold notNil. rewrite Hx. cbn.
    rewrite (IH _ Hrest), <- app_assoc. reflexivity.
Qed.

Lemma collectExcluded_conditional excluded : forall acc,
  existsb conditional excluded = true ->
  collectExcluded excluded acc = Panicked "not yet supported".
Proof.
  induction excluded as [|x rest IH]; intros acc Hex; cbn in *; [ discriminate | ].
  unfold conditional, unconditional, notNil in *.
  destruct (isNil (caveatExpression x)); cbn in *; [ apply IH; exact Hex | reflexivity ].
Qed.

Lemma ExcludedSubjectsFromWildcard_wildcard (fs : FoundSubject) :
  isWildcard fs = true -> forallb unconditional (excludedSubjects fs) = true ->
  ExcludedSubjectsFromWildcard fs = Returned (map subject (excludedSubjects fs), true).
Proof.
  unfold ExcludedSubjectsFromWildcard, isWildcard. intros Hw Hall.
  rewrite Hw, (collectExcluded_unconditional _ _ Hall). reflexivity.
Qed.

Lemma ExcludedSubjectsFromWildcard_other (fs : FoundSubject) :
  isWildcard fs = false -> ExcludedSubjectsFromWildcard fs = Returned ([], false).
Proof.
  unfold ExcludedSubjectsFromWildcard, isWildcard. intros Hw. rewrite Hw. reflexivity.
Qed.

Lemma ExcludedSubjectsFromWildcard_panics (fs : FoundSubject) :
  isWildcard fs = true -> existsb conditional (excludedSubjects fs) = true ->
  ExcludedSubjectsFromWildcard fs = Panicked "not yet supported".
Proof.
  unfold ExcludedSubjectsFromWildcard, isWildcard. intros Hw Hex.
  rewrite Hw, (collectExcluded_conditional _ _ Hex). reflexivity.
Qed.

(** C7. For a wildcard found subject whose excluded entries are all
    unconditional, [ExcludedSubjectsFromWildcard] returns the subjects of the
    excluded entries, in order, and true; for a found subject that is not a
    wildcard it returns the empty list and false; and when an excluded entry
    of a wildcard carries a caveat expression it panics with "not yet
    supported" instead of leaving that exclusion out. *)
Theorem ExcludedSubjectsFromWildcard_cases (fs : FoundSubject) :
  (isWildcard fs = true -> forallb unconditional (excludedSubjects fs) = true ->
   ExcludedSubjectsFromWildcard fs
   = Returned (map subject (excludedSubjects fs), true))
  /\ (isWildcard fs = false ->
      ExcludedSubjectsFromWildcard fs = Returned ([], false))
  /\ (isWildcard fs = true -> existsb conditional (excludedSubjects fs) = true ->
      ExcludedSubjectsFromWildcard fs = Panicked "not yet supported").
Proof.
  split; [ | split ].
  - apply ExcludedSubjectsFromWildcard_wildcard.
  - apply ExcludedSubjectsFromWildcard_other.
  - apply ExcludedSubjectsFromWildcard_panics.
Qed.

Lemma wildcard_StringONR (onr : ObjectAndRelation) :
  String.eqb (ObjectId onr) tuple.PublicWildcard = true ->
  tuple.StringONR onr = (Namespace onr ++ ":*#" ++ Relation onr)%string.
Proof.
  intros H. apply String.eqb_eq in H. unfold tuple.StringONR. rewrite H. reflexivity.
Qed.

Lemma append_assoc (a b c : string) : ((a ++ b) ++ c = a ++ (b ++ c))%string.
Proof. induction a as [|ch a IH]; cbn; [ reflexivity | rewrite IH; reflexivity ]. Qed.

Lemma ToValidationString_plain (fs : FoundSubject) :
  unconditional fs = true ->
  isWildcard fs = false \/ excludedSubjects fs = [] ->
  ToValidationString fs = Returned (tuple.StringONR (subject fs)).
Proof.
  unfold unconditional, ToValidationString, notNil. intros Hu Hcase. rewrite Hu. cbn.
  destruct (isWildcard fs) eqn:Hw.
  - destruct Hcase as [Hcase|Hcase]; [ discriminate | ].
    rewrite (ExcludedSubjectsFromWildcard_wildcard fs Hw)
      by (rewrite Hcase; reflexivity).
    rewrite Hcase. reflexivity.
  - rewrite (ExcludedSubjectsFromWildcard_other fs Hw). reflexivity.
Qed.

Lemma ToValidationString_wildcard (fs : FoundSubject) :
  unconditional fs = true -> isWildcard fs = true -> excludedSubjects fs <> [] ->
  forallb unconditional (excludedSubjects fs) = true ->
  ToValidationString fs
  = Returned (withExclusions (subject fs)
                (map tuple.StringONR (map subject (excludedSubjects fs)))).
Proof.
  unfold unconditional at 1. unfold ToValidationString, notNil.
  intros Hu Hw Hne Hall. rewrite Hu. cbn [negb].
  rewrite (ExcludedSubjectsFromWildcard_wildcard fs Hw Hall). cbn [bind andb].
  destruct (excludedSubjects fs) as [|x rest] eqn:Hex;
    [ exfalso; apply Hne; reflexivity | ].
  cbn [map List.length Nat.ltb Nat.leb]. unfold Subject, withExclusions.
  rewrite (wildcard_StringONR _ Hw), !append_assoc. reflexivity.
Qed.

(** C6, as the code has it. An unconditional found subject that is not a
    wildcard, or has no exclusions, renders as [namespace:objectId#relation];
    an unconditional wildcard with a non-empty set of exclusions that are all
    unconditional renders as [namespace:*#relation - {...}], the exclusions
    in ascending order whatever the order in which they were inserted; a
    found subject with a caveat expression makes the rendering panic; and so
    does an exclusion of a wildcard that carries a caveat expression. *)
Theorem ToValidationString_cases (fs : FoundSubject) :
  (unconditional fs = true ->
   isWildcard fs = false \/ excludedSubjects fs = [] ->
   ToValidationString fs
   = Returned (Namespace (subject fs) ++ ":" ++ ObjectId (subject fs)
               ++ "#" ++ Relation (subject fs))%string)
  /\ (unconditional fs = true -> isWildcard fs = true ->
      excludedSubjects fs <> [] ->
      forallb unconditional (excludedSubjects fs) = true ->
      let renderings := map tuple.StringONR (map subject (excludedSubjects fs)) in
      ToValidationString fs = Returned (withExclusions (subject fs) renderings)
      /\ ascending (sort_Strings renderings)
      /\ Permutation renderings (sort_Strings renderings)
      /\ forall fs', subject fs' = subject fs -> unconditional fs' = true ->
           Permutation (excludedSubjects fs) (excludedSubjects fs') ->
           ToValidationString fs' = ToValidationString fs)
  /\ (unconditional fs = false ->
      ToValidationString fs = Panicked "conditional found subjects not yet supported")
  /\ (unconditional fs = true -> isWildcard fs = true ->
      existsb conditional (excludedSubjects fs) = true ->
      ToValidationString fs = Panicked "not yet supported").
Proof.
  split; [ | split; [ | split ] ].
  - intros Hu Hcase. rewrite (ToValidationString_plain fs Hu Hcase). reflexivity.
  - intros Hu Hw Hne Hall renderings.
    split; [ apply ToValidationString_wildcard; assumption | ].
    split; [ apply sort_Strings_ascending | ].
    split; [ apply sort_Strings_Permutation | ].
    intros fs' Hsubj Hu' Hperm.
    rewrite (ToValidationString_wildcard fs Hu Hw Hne Hall).
    rewrite (ToValidationString_wildcard fs').
    + rewrite Hsubj. unfold withExclusions.
      rewrite (sort_Strings_order_independent
                 (map tuple.StringONR (map subject (excludedSubjects fs')))
                 (map tuple.StringONR (map subject (excludedSubjects fs)))).
      * reflexivity.
      * apply Permutation_sym, Permutation_map, Permutation_map. exact Hperm.
    + exact Hu'.
    + unfold isWildcard in *. rewrite Hsubj. exact Hw.
    + intros Hnil. rewrite Hnil in Hperm.
      apply Permutation_sym, Permutation_nil in Hperm. apply Hne. exact Hperm.
    + rewrite forallb_forall in *. intros x Hx. apply Hall.
      apply (Permutation_in _ (Permutation_sym Hperm)). exact Hx.
  - unfold unconditional, ToValidationString, notNil. intros Hu. rewrite Hu. reflexivity.
  - unfold unconditional at 1. unfold ToValidationString, notNil. intros Hu Hw Hex.
    rewrite Hu. cbn [negb].
    rewrite (ExcludedSubjectsFromWildcard_panics fs Hw Hex). reflexivity.
Qed.

End FoundSubjectProperties.

Section FoundSubjectExamples.
Import developmentmembership SampleSubjects.

Example ToValidationString_justAlice :
  ToValidationString justAlice = Returned "user:alice#...".
Proof. reflexivity. Qed.

Example ToValidationString_allButTwo :
  ToValidationString allButTwo = Returned "user:*#... - {user:alice#..., user:bob#...}".
Proof. reflexivity. Qed.

(** Everyone but bob and alice, inserted in that order: the exclusions are
    listed with alice first. *)
Lemma ToValidationString_cases_witness :
  ToValidationString allButTwo
  = Returned (withExclusions everyone ["user:bob#..."; "user:alice#..."])
  /\ sort_Strings ["user:bob#..."; "user:alice#..."] = ["user:alice#..."; "user:bob#..."]
  /\ ToValidationString justAlice = Returned "user:alice#..."
  /\ ToValidationString allButAliceIfOnsite
     = Panicked "conditional found subjects not yet supported"
  /\ ToValidationString allButMaybeBob = Panicked "not yet supported".
Proof.
  destruct (ToValidationString_cases allButTwo) as (_ & Hwild & _ & _).
  destruct (Hwild eq_refl eq_refl ltac:(discriminate) eq_refl) as (Hrender & _).
  split; [ exact Hrender | ]. split; [ reflexivity | ].
  destruct (ToValidationString_cases justAlice) as (Hplain & _).
  split; [ exact (Hplain eq_refl (or_introl eq_refl)) | ].
  destruct (ToValidationString_cases allButAliceIfOnsite) as (_ & _ & Hcond & _).
  split; [ exact (Hcond eq_refl) | ].
  destruct (ToValidationString_cases allButMaybeBob) as (_ & _ & _ & Hexcl).
  exact (Hexcl eq_refl eq_refl eq_refl).
Defined.

(** C6, as the specification words it, fails on a wildcard one of whose
    exclusions is conditional: there is no rendering, the call panics. *)
Lemma canonical_wildcard_rendering_fails :
  ~ canonical_wildcard_rendering allButMaybeBob.
Proof.
  unfold canonical_wildcard_rendering. intros H.
  specialize (H eq_refl eq_refl ltac:(discriminate)). discriminate H.
Qed.

Lemma ExcludedSubjectsFromWildcard_cases_witness :
  ExcludedSubjectsFromWildcard allButTwo = Returned ([bob; alice], true)
  /\ ExcludedSubjectsFromWildcard justAlice = Returned ([], false)
  /\ ExcludedSubjectsFromWildcard allButMaybeBob = Panicked "not yet supported".
Proof.
  destruct (ExcludedSubjectsFromWildcard_cases allButTwo) as (Hwild & _ & _).
  split; [ exact (Hwild eq_refl eq_refl) | ].
  destruct (ExcludedSubjectsFromWildcard_cases justAlice) as (_ & Hplain & _).
  split; [ exact (Hplain eq_refl) | ].
  destruct (ExcludedSubjectsFromWildcard_cases allButMaybeBob) as (_ & _ & Hpanic).
  exact (Hpanic eq_refl eq_refl).
Defined.

End FoundSubjectExamples.

(* ================================================================== *)
(** ** The subject tracking set *)

Section TrackingSet.
Import developmentmembership.

Lemma key_eqb_eq (k1 k2 : string * string * string) : key_eqb k1 k2 = true <-> k1 = k2.
Proof.
  destruct k1 as [[n1 o1] r1], k2 as [[n2 o2] r2]. cbn.
  rewrite !andb_true_iff, !String.eqb_eq. split.
  - intros [[-> ->] ->]. reflexivity.
  - intros [= -> -> ->]. repeat split.
Qed.

Lemma key_eqb_refl (k : string * string * string) : key_eqb k k = true.
Proof. apply key_eqb_eq. reflexivity. Qed.

Lemma subjectKey_subject (f g : FoundSubject) :
  subjectKey f = subjectKey g <-> subject f = subject g.
Proof.
  unfold subjectKey, GetSubjectId.
  destruct (subject f) as [n1 o1 r1], (subject g) as [n2 o2 r2]. cbn. split.
  - intros [= -> -> ->]. reflexivity.
  - intros [= -> -> ->]. reflexivity.
Qed.

Lemma ONR_eqb_refl (onr : ObjectAndRelation) : ONR_eqb onr onr = true.
Proof. apply ONR_eqb_eq. reflexivity. Qed.

Lemma ONR_eqb_sym (a b : ObjectAndRelation) : ONR_eqb a b = ONR_eqb b a.
Proof.
  apply eq_iff_eq_true. rewrite !ONR_eqb_eq. split; intros H; symmetry; exact H.
Qed.

(** The key of an entry against the key looked up, as a test on subjects. *)
Lemma key_eqb_keyOf (e : FoundSubject) (onr : ObjectAndRelation) :
  key_eqb (subjectKey e) (keyOf onr) = ONR_eqb (Subject e) onr.
Proof. reflexivity. Qed.

Lemma key_eqb_subjects (e f : FoundSubject) :
  key_eqb (subjectKey e) (subjectKey f) = ONR_eqb (Subject e) (Subject f).
Proof. reflexivity. Qed.

(** *** Sets of ONRs *)

Lemma ONRSet_Has_In (s : tuple.ONRSet) (onr : ObjectAndRelation) :
  tuple.ONRSet_Has s onr = true <-> In onr s.
Proof.
  unfold tuple.ONRSet_Has. rewrite existsb_exists. split.
  - intros (x & Hin & Heq). apply ONR_eqb_eq in Heq. subst x. exact Hin.
  - intros Hin. exists onr. split; [ exact Hin | apply ONR_eqb_refl ].
Qed.

Lemma ONRSet_Add_In (s : tuple.ONRSet) (x onr : ObjectAndRelation) :
  In onr (tuple.ONRSet_Add s x) <-> In onr s \/ onr = x.
Proof.
  unfold tuple.ONRSet_Add. destruct (tuple.ONRSet_Has s x) eqn:Hhas.
  - apply ONRSet_Has_In in Hhas. split; [ auto | ].
    intros [H| ->]; assumption.
  - rewrite in_app_iff. cbn. split.
    + intros [H|[H|[]]]; auto.
    + intros [H|H]; auto.
Qed.

Lemma ONRSet_Add_NoDup (s : tuple.ONRSet) (x : ObjectAndRelation) :
  NoDup s -> NoDup (tuple.ONRSet_Add s x).
Proof.
  intros Hs. unfold tuple.ONRSet_Add. destruct (tuple.ONRSet_Has s x) eqn:Hhas.
  - exact Hs.
  - apply NoDup_app; [ exact Hs | constructor; [ intros [] | constructor ] | ].
    intros y Hy [<-|[]].
    apply ONRSet_Has_In in Hy. congruence.
Qed.

Lemma ONRSet_fold_In (l : list ObjectAndRelation) : forall (s : tuple.ONRSet) onr,
  In onr (fold_left tuple.ONRSet_Add l s) <-> In onr s \/ In onr l.
Proof.
  induction l as [|x rest IH]; intros s onr; cbn [fold_left].
  - cbn. tauto.
  - rewrite IH, ONRSet_Add_In. cbn. split.
    + intros [[H|H]|H]; auto.
    + intros [H|[H|H]]; auto.
Qed.

Lemma ONRSet_fold_NoDup (l : list ObjectAndRelation) : forall (s : tuple.ONRSet),
  NoDup s -> NoDup (fold_left tuple.ONRSet_Add l s).
Proof.
  induction l as [|x rest IH]; intros s Hs; cbn [fold_left].
  - exact Hs.
  - apply IH, ONRSet_Add_NoDup, Hs.
Qed.

Lemma ONRSet_Union_Has (s t : tuple.ONRSet) (onr : ObjectAndRelation) :
  tuple.ONRSet_Has (tuple.ONRSet_Union s t) onr
  = tuple.ONRSet_Has s onr || tuple.ONRSet_Has t onr.
Proof.
  apply eq_iff_eq_true. unfold tuple.ONRSet_Union.
  rewrite orb_true_iff, !ONRSet_Has_In. apply ONRSet_fold_In.
Qed.

(** A union with what the set holds already changes nothing. *)
Lemma ONRSet_Union_absorbs (t : list ObjectAndRelation) : forall (s : tuple.ONRSet),
  (forall x, In x t -> In x s) -> tuple.ONRSet_Union s t = s.
Proof.
  unfold tuple.ONRSet_Union.
  induction t as [|x rest IH]; intros s Hsub; cbn [fold_left]; [ reflexivity | ].
  assert (Hx : tuple.ONRSet_Add s x = s).
  { unfold tuple.ONRSet_Add.
    replace (tuple.ONRSet_Has s x) with true; [ reflexivity | ].
    symmetry. apply ONRSet_Has_In, Hsub. left. reflexivity. }
  rewrite Hx. apply IH. intros y Hy. apply Hsub. right. exact Hy.
Qed.

(** *** Caveat expressions *)

Lemma CaveatExpression_eqb_eq (x : CaveatExpression) : forall y,
  CaveatExpression_eqb x y = true <-> x = y.
Proof.
  induction x as [n|a IHa b IHb|a IHa b IHb|a IHa]; intros [m|c d|c d|c];
    cbn [CaveatExpression_eqb];
    try (split; [ discriminate | intros [=] ]).
  - rewrite String.eqb_eq. split; [ intros ->; reflexivity | intros [= ->]; reflexivity ].
  - rewrite andb_true_iff, IHa, IHb.
    split; [ intros [-> ->]; reflexivity | intros [= -> ->]; split; reflexivity ].
  - rewrite andb_true_iff, IHa, IHb.
    split; [ intros [-> ->]; reflexivity | intros [= -> ->]; split; reflexivity ].
  - rewrite IHa. split; [ intros ->; reflexivity | intros [= ->]; reflexivity ].
Qed.

Lemma hasAlternative_refl (x : CaveatExpression) : hasAlternative x x = true.
Proof.
  assert (H : CaveatExpression_eqb x x = true) by (apply CaveatExpression_eqb_eq; reflexivity).
  destruct x; cbn [hasAlternative]; rewrite H; reflexivity.
Qed.

(** An alternative of a disjunction that holds makes the disjunction hold. *)
Lemma hasAlternative_holds (holds : string -> bool) (y : CaveatExpression) :
  forall x, hasAlternative x y = true ->
  evalCaveat holds y = true -> evalCaveat holds x = true.
Proof.
  induction x as [n|a IHa b IHb|a IHa b IHb|a IHa]; cbn [hasAlternative];
    intros Halt Hy;
    try (rewrite orb_false_r in Halt; apply CaveatExpression_eqb_eq in Halt;
         subst y; exact Hy).
  apply orb_true_iff in Halt. destruct Halt as [Heq|Halt].
  - apply CaveatExpression_eqb_eq in Heq. subst y. exact Hy.
  - cbn [evalCaveat]. apply orb_true_iff.
    apply orb_true_iff in Halt. destruct Halt as [Ha|Hb]; [ left | right ]; auto.
Qed.

Lemma evalCaveat_orCaveat (holds : string -> bool) (x y : CaveatExpression) :
  evalCaveat holds (orCaveat x y) = evalCaveat holds x || evalCaveat holds y.
Proof.
  unfold orCaveat. destruct (hasAlternative x y) eqn:Halt; [ | reflexivity ].
  destruct (evalCaveat holds y) eqn:Hy.
  - rewrite (hasAlternative_holds holds y x Halt Hy). reflexivity.
  - rewrite orb_false_r. reflexivity.
Qed.

Lemma granted_mergeCaveat (holds : string -> bool) (a b : option CaveatExpression) :
  granted holds (mergeCaveat a b) = granted holds a || granted holds b.
Proof.
  destruct a as [x|], b as [y|]; cbn [mergeCaveat granted]; try reflexivity.
  - apply evalCaveat_orCaveat.
  - rewrite orb_true_r. reflexivity.
Qed.

Lemma mergeCaveat_None (a b : option CaveatExpression) :
  mergeCaveat a b = None <-> a = None \/ b = None.
Proof.
  destruct a as [x|], b as [y|]; cbn [mergeCaveat]; split; auto;
    try discriminate.
  intros [H|H]; discriminate H.
Qed.

Lemma orCaveat_again (x y : CaveatExpression) : orCaveat (orCaveat x y) y = orCaveat x y.
Proof.
  unfold orCaveat at 2 3. destruct (hasAlternative x y) eqn:Halt.
  - unfold orCaveat. rewrite Halt. reflexivity.
  - unfold orCaveat. cbn [hasAlternative]. rewrite (hasAlternative_refl y).
    rewrite !orb_true_r. reflexivity.
Qed.

Lemma mergeCaveat_again (a b : option CaveatExpression) :
  mergeCaveat (mergeCaveat a b) b = mergeCaveat a b.
Proof.
  destruct a as [x|], b as [y|]; cbn [mergeCaveat]; try reflexivity.
  rewrite orCaveat_again. reflexivity.
Qed.

Lemma mergeCaveat_self (a : option CaveatExpression) : mergeCaveat a a = a.
Proof.
  destruct a as [x|]; cbn [mergeCaveat]; [ | reflexivity ].
  unfold orCaveat. rewrite hasAlternative_refl. reflexivity.
Qed.

(** *** Exclusions *)

Lemma excludes_intersection (a b : list FoundSubject) (k : string * string * string) :
  excludes (filter (fun x => excludes b (subjectKey x)) a) k
  = excludes a k && excludes b k.
Proof.
  apply eq_iff_eq_true. unfold excludes at 1 3.
  rewrite andb_true_iff, !existsb_exists. split.
  - intros (x & Hin & Hk). apply filter_In in Hin. destruct Hin as [Hin Hb].
    apply key_eqb_eq in Hk. subst k.
    split; [ exists x; split; [ exact Hin | apply key_eqb_refl ] | exact Hb ].
  - intros [(x & Hin & Hk) Hb]. exists x. split; [ | exact Hk ].
    apply filter_In. split; [ exact Hin | ].
    apply key_eqb_eq in Hk. rewrite Hk. exact Hb.
Qed.

Lemma someConditional_filter (p : FoundSubject -> bool) (l : list FoundSubject) :
  someConditional l = false -> someConditional (filter p l) = false.
Proof.
  unfold someConditional. induction l as [|x rest IH]; cbn [existsb filter]; [ trivial | ].
  intros H. apply orb_false_iff in H. destruct H as [Hx Hrest].
  destruct (p x); cbn [existsb]; [ rewrite Hx | ]; auto.
Qed.

Lemma filter_again {A : Type} (p : A -> bool) (l : list A) :
  filter p (filter p l) = filter p l.
Proof.
  induction l as [|x rest IH]; cbn [filter]; [ reflexivity | ].
  destruct (p x) eqn:Hp; cbn [filter]; [ rewrite Hp, IH; reflexivity | exact IH ].
Qed.

Lemma filter_all {A : Type} (p : A -> bool) (l : list A) :
  (forall x, In x l -> p x = true) -> filter p l = l.
Proof.
  induction l as [|x rest IH]; cbn [filter]; intros H; [ reflexivity | ].
  rewrite (H x (or_introl eq_refl)), IH; [ reflexivity | ].
  intros y Hy. apply H. right. exact Hy.
Qed.

(** *** The merge of two findings *)

Lemma mergeFound_cases (a b : FoundSubject) :
  mergeFound a b
  = if conditionalExclusion a || conditionalExclusion b
    then Panicked "not yet supported"
    else Returned (merged_of a b).
Proof.
  unfold mergeFound, mergeExcluded, conditionalExclusion.
  destruct (someConditional (excludedSubjects a) || someConditional (excludedSubjects b));
    reflexivity.
Qed.

Lemma mergeFound_returned (a b m : FoundSubject) :
  mergeFound a b = Returned m ->
  conditionalExclusion a || conditionalExclusion b = false /\ m = merged_of a b.
Proof.
  rewrite mergeFound_cases.
  destruct (conditionalExclusion a || conditionalExclusion b); [ discriminate | ].
  intros [= <-]. split; reflexivity.
Qed.

Lemma merged_of_supported (a b : FoundSubject) :
  conditionalExclusion a = false -> conditionalExclusion (merged_of a b) = false.
Proof. intros Ha. apply someConditional_filter. exact Ha. Qed.

(** Merging the same finding in a second time changes nothing. *)
Lemma mergeFound_again (a b m : FoundSubject) :
  mergeFound a b = Returned m -> mergeFound m b = Returned m.
Proof.
  intros Hm. apply mergeFound_returned in Hm. destruct Hm as [Hsup ->].
  apply orb_false_iff in Hsup. destruct Hsup as [Ha Hb].
  rewrite mergeFound_cases, (merged_of_supported a b Ha), Hb. cbn [orb].
  f_equal. unfold merged_of. cbn [subject excludedSubjects caveatExpression relationships].
  rewrite filter_again, mergeCaveat_again. f_equal.
  apply ONRSet_Union_absorbs. intros x Hx.
  apply ONRSet_Has_In. rewrite ONRSet_Union_Has.
  apply orb_true_iff. right. apply ONRSet_Has_In. exact Hx.
Qed.

(** Merging a finding with itself gives it back. *)
Lemma mergeFound_self (f : FoundSubject) :
  conditionalExclusion f = false -> mergeFound f f = Returned f.
Proof.
  intros Hf. rewrite mergeFound_cases, Hf. cbn [orb]. f_equal.
  destruct f as [s ex c rels]. unfold merged_of.
  cbn [subject excludedSubjects caveatExpression relationships].
  rewrite mergeCaveat_self, ONRSet_Union_absorbs by auto.
  rewrite filter_all; [ reflexivity | ].
  intros x Hx. unfold excludes. apply existsb_exists.
  exists x. split; [ exact Hx | apply key_eqb_refl ].
Qed.

(** The merge does not depend on which of the two findings came first,
    as far as what they grant goes. *)
Lemma mergeFound_commutes (a b : FoundSubject) :
  Subject a = Subject b ->
  match mergeFound a b, mergeFound b a with
  | Returned m, Returned m' => sameFinding m m'
  | Panicked msg, Panicked msg' => msg = msg'
  | _, _ => False
  end.
Proof.
  intros Hsub. rewrite !mergeFound_cases.
  rewrite (orb_comm (conditionalExclusion b)).
  destruct (conditionalExclusion a || conditionalExclusion b) eqn:Hsup; [ reflexivity | ].
  apply orb_false_iff in Hsup. destruct Hsup as [Ha Hb].
  unfold sameFinding.
  split; [ exact Hsub | ].
  split; [ intros k; cbn [merged_of excludedSubjects];
           rewrite !excludes_intersection; apply andb_comm | ].
  split; [ rewrite !merged_of_supported by assumption; reflexivity | ].
  split; [ cbn [merged_of caveatExpression]; rewrite !mergeCaveat_None; tauto | ].
  split; [ intros holds; cbn [merged_of caveatExpression];
           rewrite !granted_mergeCaveat; apply orb_comm | ].
  intros onr. cbn [merged_of relationships]. rewrite !ONRSet_Union_Has. apply orb_comm.
Qed.

(** *** Adding to the set *)

Lemma Get_subject (onr : ObjectAndRelation) (tss : TrackingSubjectSet) (e : FoundSubject) :
  Get onr tss = Some e -> In e tss /\ Subject e = onr.
Proof.
  unfold Get. intros H. apply find_some in H. destruct H as [Hin Hk].
  rewrite key_eqb_keyOf in Hk. apply ONR_eqb_eq in Hk. split; assumption.
Qed.

Lemma Get_found (onr : ObjectAndRelation) (tss : TrackingSubjectSet) :
  (exists e, Get onr tss = Some e) <-> In onr (map Subject tss).
Proof.
  split.
  - intros (e & He). apply Get_subject in He. destruct He as [Hin <-].
    apply in_map. exact Hin.
  - intros Hin. apply in_map_iff in Hin. destruct Hin as (e & He & Hin).
    destruct (Get onr tss) as [e'|] eqn:Hget; [ exists e'; reflexivity | ].
    unfold Get in Hget. pose proof (find_none _ _ Hget e Hin) as Hno.
    cbv beta in Hno. rewrite key_eqb_keyOf, He, ONR_eqb_refl in Hno. discriminate Hno.
Qed.

(** In a set without two entries of one subject, every entry is the one
    found under its subject. *)
Lemma Get_entry (tss : TrackingSubjectSet) :
  NoDup (map Subject tss) -> forall e, In e tss -> Get (Subject e) tss = Some e.
Proof.
  unfold Get. induction tss as [|x rest IH]; intros Hnd e Hin; [ destruct Hin | ].
  cbn [map] in Hnd. inversion Hnd as [|? ? Hnot Hrest]; subst.
  cbn [find]. rewrite key_eqb_keyOf. destruct Hin as [<-|Hin].
  - rewrite ONR_eqb_refl. reflexivity.
  - destruct (ONR_eqb (Subject x) (Subject e)) eqn:Hk.
    + apply ONR_eqb_eq in Hk. exfalso. apply Hnot. rewrite Hk. apply in_map. exact Hin.
    + apply IH; assumption.
Qed.

(** The subjects of the entries after an [Add]: those before, and the
    subject added if it was not among them. *)
Lemma Add_subjects (fs : FoundSubject) : forall (tss tss' : TrackingSubjectSet),
  Add fs tss = Returned tss' ->
  map Subject tss' = tuple.ONRSet_Add (map Subject tss) (Subject fs).
Proof.
  induction tss as [|existing rest IH]; intros tss' Hadd; cbn [Add] in Hadd.
  - injection Hadd as <-. reflexivity.
  - unfold tuple.ONRSet_Add, tuple.ONRSet_Has. cbn [map existsb].
    rewrite key_eqb_subjects in Hadd. rewrite (ONR_eqb_sym (Subject fs)).
    destruct (ONR_eqb (Subject existing) (Subject fs)) eqn:Hk; cbn [orb].
    + destruct (mergeFound existing fs) as [m|msg] eqn:Hm; [ | discriminate Hadd ].
      cbn [bind] in Hadd. injection Hadd as <-.
      apply mergeFound_returned in Hm. destruct Hm as [_ ->]. reflexivity.
    + destruct (Add fs rest) as [rest'|msg] eqn:Hrest; [ | discriminate Hadd ].
      cbn [bind] in Hadd. injection Hadd as <-.
      cbn [map]. rewrite (IH rest' eq_refl).
      unfold tuple.ONRSet_Add, tuple.ONRSet_Has.
      destruct (existsb (ONR_eqb (Subject fs)) (map Subject rest)); reflexivity.
Qed.

(** The entry of the subject added is that finding, joined to the entry
    there was. *)
Lemma Get_Add (fs : FoundSubject) : forall (tss tss' : TrackingSubjectSet),
  Add fs tss = Returned tss' ->
  exists m, joined (Get (Subject fs) tss) fs = Returned m
            /\ Get (Subject fs) tss' = Some m.
Proof.
  unfold Get.
  induction tss as [|existing rest IH]; intros tss' Hadd; cbn [Add] in Hadd.
  - injection Hadd as <-. exists fs. cbn [find joined].
    rewrite key_eqb_keyOf, ONR_eqb_refl. split; reflexivity.
  - cbn [find]. change (keyOf (Subject fs)) with (subjectKey fs) in *.
    destruct (key_eqb (subjectKey existing) (subjectKey fs)) eqn:Hk.
    + destruct (mergeFound existing fs) as [m|msg] eqn:Hm; [ | discriminate Hadd ].
      cbn [bind] in Hadd. injection Hadd as <-. exists m. cbn [joined find].
      split; [ exact Hm | ].
      apply mergeFound_returned in Hm. destruct Hm as [_ Hm].
      assert (Hkey : subjectKey m = subjectKey existing) by (rewrite Hm; reflexivity).
      rewrite Hkey, Hk. reflexivity.
    + destruct (Add fs rest) as [rest'|msg] eqn:Hrest; [ | discriminate Hadd ].
      cbn [bind] in Hadd. injection Hadd as <-. cbn [find]. rewrite Hk.
      apply IH. reflexivity.
Qed.

(** The entries of the other subjects are left as they were. *)
Lemma Get_Add_other (fs : FoundSubject) (onr : ObjectAndRelation) :
  Subject fs <> onr ->
  forall (tss tss' : TrackingSubjectSet),
  Add fs tss = Returned tss' -> Get onr tss' = Get onr tss.
Proof.
  intros Hother. unfold Get.
  induction tss as [|existing rest IH]; intros tss' Hadd; cbn [Add] in Hadd.
  - injection Hadd as <-. cbn [find]. rewrite key_eqb_keyOf.
    destruct (ONR_eqb (Subject fs) onr) eqn:Hk; [ | reflexivity ].
    apply ONR_eqb_eq in Hk. contradiction.
  - rewrite key_eqb_subjects in Hadd.
    destruct (ONR_eqb (Subject existing) (Subject fs)) eqn:Hk.
    + destruct (mergeFound existing fs) as [m|msg] eqn:Hm; [ | discriminate Hadd ].
      cbn [bind] in Hadd. injection Hadd as <-.
      apply mergeFound_returned in Hm. destruct Hm as [_ Hm].
      assert (Hkey : Subject m = Subject existing) by (rewrite Hm; reflexivity).
      cbn [find]. rewrite !key_eqb_keyOf, Hkey.
      apply ONR_eqb_eq in Hk.
      destruct (ONR_eqb (Subject existing) onr) eqn:Hk'; [ | reflexivity ].
      apply ONR_eqb_eq in Hk'. congruence.
    + destruct (Add fs rest) as [rest'|msg] eqn:Hrest; [ | discriminate Hadd ].
      cbn [bind] in Hadd. injection Hadd as <-. cbn [find].
      rewrite (IH rest' eq_refl). reflexivity.
Qed.

(** [Add] fails or returns as the joining of the finding to the entry of
    its subject does. *)
Lemma Add_outcome (fs : FoundSubject) : forall (tss : TrackingSubjectSet),
  match joined (Get (Subject fs) tss) fs with
  | Returned _ => exists tss', Add fs tss = Returned tss'
  | Panicked msg => Add fs tss = Panicked msg
  end.
Proof.
  unfold Get. induction tss as [|existing rest IH]; cbn [Add find].
  - cbn [joined]. eexists. reflexivity.
  - change (keyOf (Subject fs)) with (subjectKey fs) in *.
    destruct (key_eqb (subjectKey existing) (subjectKey fs)) eqn:Hk.
    + cbn [joined]. destruct (mergeFound existing fs) as [m|msg]; cbn [bind].
      * eexists. reflexivity.
      * reflexivity.
    + destruct (joined (find (fun e => key_eqb (subjectKey e) (subjectKey fs)) rest) fs)
        as [m|msg].
      * destruct IH as (rest' & ->). cbn [bind]. eexists. reflexivity.
      * rewrite IH. reflexivity.
Qed.

(** Adding a finding a second time changes nothing. *)
Lemma Add_idempotent (fs : FoundSubject) : forall (tss tss' : TrackingSubjectSet),
  conditionalExclusion fs = false ->
  Add fs tss = Returned tss' -> Add fs tss' = Returned tss'.
Proof.
  intros tss tss' Hsup. revert tss'.
  induction tss as [|existing rest IH]; intros tss' Hadd; cbn [Add] in Hadd.
  - injection Hadd as <-. cbn [Add]. rewrite key_eqb_refl, (mergeFound_self fs Hsup).
    reflexivity.
  - destruct (key_eqb (subjectKey existing) (subjectKey fs)) eqn:Hk.
    + destruct (mergeFound existing fs) as [m|msg] eqn:Hm; [ | discriminate Hadd ].
      cbn [bind] in Hadd. injection Hadd as <-. cbn [Add].
      pose proof (mergeFound_again _ _ _ Hm) as Hagain.
      apply mergeFound_returned in Hm. destruct Hm as [_ Hm].
      assert (Hkey : subjectKey m = subjectKey existing) by (rewrite Hm; reflexivity).
      rewrite Hkey, Hk, Hagain. reflexivity.
    + destruct (Add fs rest) as [rest'|msg] eqn:Hrest; [ | discriminate Hadd ].
      cbn [bind] in Hadd. injection Hadd as <-. cbn [Add]. rewrite Hk.
      rewrite (IH rest' eq_refl). reflexivity.
Qed.

(** *** Adding many *)

Lemma Add_supported (fs : FoundSubject) (tss : TrackingSubjectSet) :
  supported fs -> Forall supported tss ->
  exists tss', Add fs tss = Returned tss' /\ Forall supported tss'.
Proof.
  intros Hfs. induction tss as [|existing rest IH]; intros Hall; cbn [Add].
  - eexists. split; [ reflexivity | constructor; [ exact Hfs | constructor ] ].
  - inversion Hall as [|? ? Hex Hrest]; subst.
    destruct (key_eqb (subjectKey existing) (subjectKey fs)).
    + rewrite mergeFound_cases. unfold supported in Hex, Hfs. rewrite Hex, Hfs.
      cbn [orb bind]. eexists. split; [ reflexivity | ].
      constructor; [ apply merged_of_supported; exact Hex | exact Hrest ].
    + destruct (IH Hrest) as (rest' & -> & Hall'). cbn [bind].
      eexists. split; [ reflexivity | constructor; assumption ].
Qed.

Lemma AddAll_supported (added : list FoundSubject) : forall (tss : TrackingSubjectSet),
  forallb (fun fs => negb (conditionalExclusion fs)) added = true ->
  Forall supported tss ->
  exists tss', AddAll added tss = Returned tss'.
Proof.
  induction added as [|fs rest IH]; intros tss Hadded Hall; cbn [AddAll].
  - eexists. reflexivity.
  - cbn [forallb] in Hadded. apply andb_true_iff in Hadded. destruct Hadded as [Hfs Hrest].
    apply negb_true_iff in Hfs.
    destruct (Add_supported fs tss Hfs Hall) as (tss1 & -> & Hall1). cbn [bind].
    apply IH; assumption.
Qed.

Lemma AddAll_subjects (added : list FoundSubject) : forall (tss0 tss : TrackingSubjectSet),
  AddAll added tss0 = Returned tss ->
  map Subject tss = fold_left tuple.ONRSet_Add (map Subject added) (map Subject tss0).
Proof.
  induction added as [|fs rest IH]; intros tss0 tss Hall; cbn [AddAll] in Hall.
  - injection Hall as <-. reflexivity.
  - destruct (Add fs tss0) as [tss1|msg] eqn:Hadd; [ | discriminate Hall ].
    cbn [bind] in Hall. cbn [map fold_left].
    rewrite <- (Add_subjects _ _ _ Hadd). apply IH. exact Hall.
Qed.

(** The entry of a subject is the merge of the findings of that subject,
    in order of arrival. *)
Lemma AddAll_entries (onr : ObjectAndRelation) (added : list FoundSubject) :
  forall (tss0 tss : TrackingSubjectSet),
  AddAll added tss0 = Returned tss ->
  mergeOnto (Get onr tss0) (findingsOf onr added) = Returned (Get onr tss).
Proof.
  induction added as [|fs rest IH]; intros tss0 tss Hall; cbn [AddAll] in Hall.
  - injection Hall as <-. reflexivity.
  - destruct (Add fs tss0) as [tss1|msg] eqn:Hadd; [ | discriminate Hall ].
    cbn [bind] in Hall. unfold findingsOf. cbn [filter]. fold (findingsOf onr rest).
    destruct (ONR_eqb (Subject fs) onr) eqn:Hk.
    + apply ONR_eqb_eq in Hk. subst onr.
      destruct (Get_Add _ _ _ Hadd) as (m & Hjoin & Hget).
      cbn [mergeOnto]. rewrite Hjoin. cbn [bind]. rewrite <- Hget.
      apply IH. exact Hall.
    + assert (Hother : Subject fs <> onr).
      { intros Heq. apply ONR_eqb_eq in Heq. congruence. }
      rewrite <- (Get_Add_other fs onr Hother _ _ Hadd). apply IH. exact Hall.
Qed.

(** C3. Two found subjects are the same entry of the tracking set exactly
    when their subjects are equal as ONRs, namespace, object id (the
    wildcard marker as any other) and relation, whatever their exclusions,
    caveat expressions and relationships. Whatever found subjects are added
    to the empty set, one after the other: the adding returns when none of
    them carries a conditional exclusion; and when it returns, no two
    entries of the set have the same subject, the subjects of the entries
    are those of the found subjects added, the entry looked up under a
    subject is the merge of exactly the found subjects added with that
    subject, the entries listed are the entries looked up, and two of the
    found subjects added are looked up to one entry exactly when namespace,
    object id and relation of their subjects are equal. *)
Theorem same_entry_iff_same_subject (added : list FoundSubject) :
  (forallb (fun fs => negb (conditionalExclusion fs)) added = true ->
   exists tss, AddAll added NewTrackingSubjectSet = Returned tss)
  /\ forall tss, AddAll added NewTrackingSubjectSet = Returned tss ->
       NoDup (map Subject (ToSlice tss))
       /\ (forall onr, In onr (map Subject (ToSlice tss)) <-> In onr (map Subject added))
       /\ (forall onr, mergeAll (findingsOf onr added) = Returned (Get onr tss))
       /\ (forall e, In e (ToSlice tss) -> Get (Subject e) tss = Some e)
       /\ (forall f g, In f added -> In g added ->
             ((exists e, Get (Subject f) tss = Some e /\ Get (Subject g) tss = Some e)
              <-> Namespace (Subject f) = Namespace (Subject g)
                  /\ ObjectId (Subject f) = ObjectId (Subject g)
                  /\ Relation (Subject f) = Relation (Subject g))).
Proof.
  split.
  { intros Hsup. apply AddAll_supported; [ exact Hsup | constructor ]. }
  intros tss Hall. unfold ToSlice, NewTrackingSubjectSet in *.
  pose proof (AddAll_subjects _ _ _ Hall) as Hsubjects. cbn [map] in Hsubjects.
  assert (Hnd : NoDup (map Subject tss)).
  { rewrite Hsubjects. apply ONRSet_fold_NoDup. constructor. }
  assert (Hin : forall onr, In onr (map Subject tss) <-> In onr (map Subject added)).
  { intros onr. rewrite Hsubjects, ONRSet_fold_In. cbn. tauto. }
  split; [ exact Hnd | ]. split; [ exact Hin | ].
  split; [ intros onr; exact (AddAll_entries onr _ _ _ Hall) | ].
  split; [ apply Get_entry; exact Hnd | ].
  intros f g Hf Hg. split.
  - intros (e & Hef & Heg).
    apply Get_subject in Hef. apply Get_subject in Heg.
    destruct Hef as [_ Hef], Heg as [_ Heg]. rewrite <- Hef, <- Heg. repeat split.
  - intros (Hn & Ho & Hr).
    assert (Heq : Subject f = Subject g).
    { destruct (Subject f), (Subject g). cbn in Hn, Ho, Hr. subst. reflexivity. }
    assert (Hfound : exists e, Get (Subject f) tss = Some e).
    { apply Get_found, Hin, in_map. exact Hf. }
    destruct Hfound as (e & He). exists e. split; [ exact He | ].
    rewrite <- Heq. exact He.
Qed.

(** C5. When a found subject [b] is added to a tracking set that holds an
    entry [a] of the same subject key (a wildcard among them), the entry of
    that key becomes their merge. When [a] or [b] carries a conditional
    exclusion, the adding fails as unsupported, whichever of the two came
    first. Otherwise it returns: a subject is excluded from the merged
    entry exactly when both [a] and [b] exclude it, and no exclusion of it
    is conditional; its caveat expression is the logical OR of the two, and
    it is unconditional exactly when [a] or [b] is; its relationships are
    those of [a] and of [b]; the entries of the other subjects are left as
    they were; and had [b] come first and [a] second, the merged entry would
    grant the same. *)
Theorem merge_intersects_exclusions_and_ors_caveats
    (tss : TrackingSubjectSet) (a b : FoundSubject) :
  Get (Subject b) tss = Some a ->
  (conditionalExclusion a || conditionalExclusion b = true ->
   Add b tss = Panicked "not yet supported"
   /\ forall tss2, Get (Subject a) tss2 = Some b ->
        Add a tss2 = Panicked "not yet supported")
  /\ (conditionalExclusion a || conditionalExclusion b = false ->
      exists tss' merged,
        Add b tss = Returned tss'
        /\ Get (Subject b) tss' = Some merged
        /\ Subject merged = Subject b
        /\ (forall k, excludes (excludedSubjects merged) k
                      = excludes (excludedSubjects a) k && excludes (excludedSubjects b) k)
        /\ conditionalExclusion merged = false
        /\ (forall holds, granted holds (caveatExpression merged)
                          = granted holds (caveatExpression a)
                            || granted holds (caveatExpression b))
        /\ (caveatExpression merged = None
            <-> caveatExpression a = None \/ caveatExpression b = None)
        /\ (forall onr, tuple.ONRSet_Has (relationships merged) onr
                        = tuple.ONRSet_Has (relationships a) onr
                          || tuple.ONRSet_Has (relationships b) onr)
        /\ (forall onr, onr <> Subject b -> Get onr tss' = Get onr tss)
        /\ forall tss2, Get (Subject a) tss2 = Some b ->
             exists tss2' merged2,
               Add a tss2 = Returned tss2'
               /\ Get (Subject a) tss2' = Some merged2
               /\ sameFinding merged merged2).
Proof.
  intros Hget.
  pose proof (Get_subject _ _ _ Hget) as [_ Hsub].
  pose proof (Add_outcome b tss) as Hout. rewrite Hget in Hout. cbn [joined] in Hout.
  assert (Hrev : forall tss2, Get (Subject a) tss2 = Some b ->
                 match mergeFound b a with
                 | Returned m2 => exists tss2', Add a tss2 = Returned tss2'
                                                /\ Get (Subject a) tss2' = Some m2
                 | Panicked msg => Add a tss2 = Panicked msg
                 end).
  { intros tss2 Hget2. pose proof (Add_outcome a tss2) as Hout2.
    rewrite Hget2 in Hout2. cbn [joined] in Hout2.
    destruct (mergeFound b a) as [m2|msg] eqn:Hm2; [ | exact Hout2 ].
    destruct Hout2 as (tss2' & Hadd2). exists tss2'. split; [ exact Hadd2 | ].
    destruct (Get_Add _ _ _ Hadd2) as (m & Hjoin & Hgot).
    rewrite Hget2 in Hjoin. cbn [joined] in Hjoin. congruence. }
  pose proof (mergeFound_commutes a b Hsub) as Hcomm.
  rewrite mergeFound_cases in Hout, Hcomm. split.
  - intros Hcond. rewrite Hcond in Hout, Hcomm. split; [ exact Hout | ].
    intros tss2 Hget2. specialize (Hrev tss2 Hget2).
    destruct (mergeFound b a) as [m2|msg]; [ destruct Hcomm | ].
    rewrite Hcomm. exact Hrev.
  - intros Hsup. rewrite Hsup in Hout, Hcomm.
    destruct Hout as (tss' & Hadd). exists tss', (merged_of a b).
    split; [ exact Hadd | ].
    destruct (Get_Add _ _ _ Hadd) as (m & Hjoin & Hgot).
    rewrite Hget in Hjoin. cbn [joined] in Hjoin.
    rewrite mergeFound_cases, Hsup in Hjoin. injection Hjoin as <-.
    split; [ exact Hgot | ].
    split; [ exact Hsub | ].
    split; [ intros k; apply excludes_intersection | ].
    apply orb_false_iff in Hsup. destruct Hsup as [Ha Hb].
    split; [ apply merged_of_supported; exact Ha | ].
    split; [ intros holds; apply granted_mergeCaveat | ].
    split; [ apply mergeCaveat_None | ].
    split; [ intros onr; apply ONRSet_Union_Has | ].
    split; [ intros onr Hother; apply (Get_Add_other b onr); [ congruence | exact Hadd ] | ].
    intros tss2 Hget2. specialize (Hrev tss2 Hget2).
    destruct (mergeFound b a) as [m2|msg]; [ | destruct Hcomm ].
    destruct Hrev as (tss2' & Hadd2 & Hgot2).
    exists tss2', m2. split; [ exact Hadd2 | ]. split; [ exact Hgot2 | exact Hcomm ].
Qed.

End TrackingSet.

Section TrackingSetExamples.
Import developmentmembership SampleSubjects.

(** Three findings, two of them of everyone with different exclusions,
    caveats and relationships: two entries, one for everyone and one for
    alice; the findings of everyone are looked up to one entry, a finding of
    everyone and that of alice are not. *)
Lemma same_entry_iff_same_subject_witness :
  exists tss,
    AddAll [allButAliceIfOnsite; justAlice; allButTwo] NewTrackingSubjectSet = Returned tss
    /\ map Subject (ToSlice tss) = [everyone; alice]
    /\ (exists e, Get (Subject allButAliceIfOnsite) tss = Some e
                  /\ Get (Subject allButTwo) tss = Some e)
    /\ ~ (exists e, Get (Subject allButTwo) tss = Some e
                    /\ Get (Subject justAlice) tss = Some e).
Proof.
  destruct (same_entry_iff_same_subject [allButAliceIfOnsite; justAlice; allButTwo])
    as [Hreturns Hset].
  destruct (Hreturns eq_refl) as (tss & Hall).
  destruct (Hset tss Hall) as (_ & _ & _ & _ & Hsame).
  exists tss. split; [ exact Hall | ].
  split; [ cbn in Hall; injection Hall as <-; reflexivity | ].
  split.
  - apply (Hsame allButAliceIfOnsite allButTwo); cbn; auto.
  - intros He. apply (Hsame allButTwo justAlice) in He; cbn; auto.
    destruct He as (_ & Ho & _). discriminate Ho.
Defined.

(** Everyone but bob and alice by one path, everyone but alice on a condition
    by another: everyone but alice, unconditionally. *)
Lemma merge_intersects_exclusions_and_ors_caveats_witness :
  exists tss merged,
    Add allButTwo [allButAliceIfOnsite] = Returned tss
    /\ Get everyone tss = Some merged
    /\ map subject (excludedSubjects merged) = [alice]
    /\ caveatExpression merged = None.
Proof.
  assert (Hsup : conditionalExclusion allButAliceIfOnsite || conditionalExclusion allButTwo
                 = false) by reflexivity.
  pose proof (merge_intersects_exclusions_and_ors_caveats
                [allButAliceIfOnsite] allButAliceIfOnsite allButTwo eq_refl) as [_ H].
  destruct (H Hsup) as (tss & merged & Hadd & Hget & _ & _ & _ & _ & Hnone & _).
  exists tss, merged. split; [ exact Hadd | ]. split; [ exact Hget | ].
  split; [ | apply Hnone; right; reflexivity ].
  cbn in Hadd. injection Hadd as <-. cbn in Hget. injection Hget as <-. reflexivity.
Defined.

End TrackingSetExamples.

(* ================================================================== *)
(** * Further properties *)

(** ** The infrastructural mapping *)

Section InfrastructuralMapping.

Lemma firstCode_cases (err : option error) (c : codes) :
  firstCode err = Some c ->
  rewriteACLError err
  = (status_Errorf c (statusPrefix c ++ fmt_s err),
     match c with
     | Internal => [ {| logErr := err; logMsg := "internal graph error in devcontext" |} ]
     | _ => []
     end).
Proof.
  unfold firstCode, infrastructuralTable, rewriteACLError. cbn [find fst].
  destruct (errors_As err isUnknownNamespaceError); [ intros [= <-]; reflexivity | ].
  destruct (errors_As err isUnknownRelationError); [ intros [= <-]; reflexivity | ].
  destruct (errors_As err isErrRequestCanceled); [ intros [= <-]; reflexivity | ].
  destruct (errors_As err isErrInvalidArgument); [ intros [= <-]; reflexivity | ].
  destruct (errors_As err isErrInvalidRevision); [ intros [= <-]; reflexivity | ].
  destruct (errors_As err isErrRelationMissingTypeInfo); [ intros [= <-]; reflexivity | ].
  destruct (errors_As err isErrAlwaysFail); [ intros [= <-]; reflexivity | ].
  destruct (errors_As err isInvalidRelationError); [ intros [= <-]; reflexivity | ].
  discriminate.
Qed.

Lemma firstCode_none (err : option error) :
  firstCode err = None ->
  rewriteACLError err
  = (err, [ {| logErr := err; logMsg := "unexpected graph error in devcontext" |} ]).
Proof.
  unfold firstCode, infrastructuralTable, rewriteACLError. cbn [find fst].
  destruct (errors_As err isUnknownNamespaceError); [ discriminate | ].
  destruct (errors_As err isUnknownRelationError); [ discriminate | ].
  destruct (errors_As err isErrRequestCanceled); [ discriminate | ].
  destruct (errors_As err isErrInvalidArgument); [ discriminate | ].
  destruct (errors_As err isErrInvalidRevision); [ discriminate | ].
  destruct (errors_As err isErrRelationMissingTypeInfo); [ discriminate | ].
  destruct (errors_As err isErrAlwaysFail); [ discriminate | ].
  destruct (errors_As err isInvalidRelationError); [ discriminate | ].
  reflexivity.
Qed.

(** X1. [rewriteACLError] goes by the first row of its table that the error
    chain matches: the result is then a fresh status error of that row's
    code, which does not wrap the original error but carries its text after
    the row's prefix, and only the internal sentinel is logged; when no row
    matches, the error comes back unchanged and is logged as unexpected. *)
Theorem rewriteACLError_first_row_decides (err : option error) :
  match firstCode err with
  | Some c =>
      fst (rewriteACLError err)
      = Some (errNew (statusError c) (statusPrefix c ++ fmt_s err))
      /\ List.length (snd (rewriteACLError err))
         = match c with Internal => 1 | _ => 0 end
  | None =>
      fst (rewriteACLError err) = err
      /\ snd (rewriteACLError err)
         = [ {| logErr := err; logMsg := "unexpected graph error in devcontext" |} ]
  end.
Proof.
  destruct (firstCode err) as [c|] eqn:Hc.
  - rewrite (firstCode_cases err c Hc). cbn [fst snd].
    split; [ reflexivity | destruct c; reflexivity ].
  - rewrite (firstCode_none err Hc). split; reflexivity.
Qed.

Lemma firstMatch_none (err : option error) :
  firstMatch err = None ->
  errors_Is err isErrMaxDepth = false
  /\ errors_As err isUnknownNamespaceError = false
  /\ errors_As err isUnknownRelationError = false
  /\ errors_As err isInvalidRelationError = false.
Proof.
  unfold firstMatch, classificationTable, errors_Is. cbn [find fst].
  destruct (errors_As err isErrMaxDepth); [ discriminate | ].
  destruct (errors_As err isUnknownNamespaceError); [ discriminate | ].
  destruct (errors_As err isUnknownRelationError); [ discriminate | ].
  destruct (errors_As err isInvalidRelationError); [ discriminate | ].
  intros _. repeat split.
Qed.

Lemma no_developer_error (err : option error) (source : DeveloperError_Source)
    (line column : N) (context : string) :
  fst (fst (distinguishGraphError err source line column context)) = None ->
  firstMatch err = None.
Proof.
  destruct (firstMatch err) as [kind|] eqn:Hm; [ | reflexivity ].
  rewrite (distinguishGraphError_developer err source line column context kind Hm).
  discriminate.
Qed.

(** X2. When [DistinguishGraphError] yields no developer error, the error
    chain holds no depth-limit, unknown-namespace, unknown-relation or
    invalid-relation error. The infrastructural error is then decided by the
    five remaining rows alone: on this path the two "canceled" rows for
    unknown namespace and unknown relation, and the invalid-relation case,
    of [rewriteACLError] are never taken. *)
Theorem DistinguishGraphError_reaches_five_rows (err : option error)
    (source : DeveloperError_Source) (line column : N) (context : string) :
  fst (fst (DistinguishGraphError err source line column context)) = None ->
  errors_Is err isErrMaxDepth = false
  /\ errors_As err isUnknownNamespaceError = false
  /\ errors_As err isUnknownRelationError = false
  /\ errors_As err isInvalidRelationError = false
  /\ snd (fst (DistinguishGraphError err source line column context))
     = fst (rewriteACLError err)
  /\ firstCode err = reachableCode err.
Proof.
  unfold DistinguishGraphError. intros Hnone.
  pose proof (no_developer_error _ _ _ _ _ Hnone) as Hm.
  destruct (firstMatch_none err Hm) as (Hd & Hn & Hr & Hi).
  repeat (split; [ assumption | ]).
  split.
  - rewrite (distinguishGraphError_infrastructural _ source line column context Hm).
    reflexivity.
  - unfold firstCode, reachableCode, infrastructuralTable, reachableTable.
    cbn [find fst]. rewrite Hn, Hr.
    destruct (errors_As err isErrRequestCanceled); [ reflexivity | ].
    destruct (errors_As err isErrInvalidArgument); [ reflexivity | ].
    destruct (errors_As err isErrInvalidRevision); [ reflexivity | ].
    destruct (errors_As err isErrRelationMissingTypeInfo); [ reflexivity | ].
    destruct (errors_As err isErrAlwaysFail); [ reflexivity | ].
    rewrite Hi. reflexivity.
Qed.

(** An invalid revision wrapped in a plain error: out of range. *)
Lemma DistinguishGraphError_reaches_five_rows_witness :
  let err := Some (errWrap errorString "check failed" SampleFaults.expired) in
  fst (fst (DistinguishGraphError err RELATIONSHIP 0 0 "")) = None
  /\ firstCode err = Some OutOfRange
  /\ reachableCode err = Some OutOfRange.
Proof.
  cbv zeta.
  destruct (DistinguishGraphError_reaches_five_rows
              (Some (errWrap errorString "check failed" SampleFaults.expired))
              RELATIONSHIP 0 0 "" eq_refl) as (_ & _ & _ & _ & _ & Hcode).
  split; [ reflexivity | ]. split; [ reflexivity | ].
  rewrite <- Hcode. reflexivity.
Defined.

Lemma chainFind_wrapper (p : ErrorType -> bool) (ty : ErrorType) (msg : string)
    (e : error) :
  p ty = false -> chainFind p (errWrap ty msg e) = chainFind p e.
Proof. intros H. cbn. rewrite H. reflexivity. Qed.

Lemma firstMatch_wrapper (ty : ErrorType) (msg : string) (e : error) :
  plainWrapper ty = true ->
  firstMatch (Some (errWrap ty msg e)) = firstMatch (Some e).
Proof.
  unfold plainWrapper. rewrite negb_true_iff, !orb_false_iff.
  intros [[[Hd Hn] Hr] Hi].
  unfold firstMatch, classificationTable, errors_As. cbn [find fst].
  rewrite !chainFind_wrapper by assumption. reflexivity.
Qed.

(** X3. Wrapping an error, as [fmt.Errorf] does with [%w], in an error of a
    type the classifier does not look for leaves the classification as it
    was: the same developer-error kind, or none in both cases. Only the
    message changes: it is the wrapper's. *)
Theorem wrapping_keeps_classification (ty : ErrorType) (msg : string) (e : error)
    (source : DeveloperError_Source) (line column : N) (context : string) :
  plainWrapper ty = true ->
  let wrapped := DistinguishGraphError (Some (errWrap ty msg e)) source line column context in
  let bare := DistinguishGraphError (Some e) source line column context in
  option_map Kind (fst (fst wrapped)) = option_map Kind (fst (fst bare))
  /\ option_map Message (fst (fst wrapped))
     = option_map (fun _ => msg) (fst (fst bare)).
Proof.
  intros Hty. cbv zeta. unfold DistinguishGraphError.
  pose proof (firstMatch_wrapper ty msg e Hty) as Hw.
  destruct (firstMatch (Some e)) as [kind|] eqn:Hm.
  - rewrite (distinguishGraphError_developer _ source line column context kind Hw).
    rewrite (distinguishGraphError_developer _ source line column context kind Hm).
    split; reflexivity.
  - rewrite (distinguishGraphError_infrastructural _ source line column context Hw).
    rewrite (distinguishGraphError_infrastructural _ source line column context Hm).
    split; reflexivity.
Qed.

Lemma wrapping_keeps_classification_witness :
  let wrapped :=
    DistinguishGraphError
      (Some (errWrap errorString "while checking document:readme"
               (errNew UnknownNamespaceError "object definition `team` not found")))
      RELATIONSHIP 0 0 "" in
  option_map Kind (fst (fst wrapped)) = Some UNKNOWN_OBJECT_TYPE
  /\ option_map Message (fst (fst wrapped)) = Some "while checking document:readme".
Proof.
  cbv zeta.
  destruct (wrapping_keeps_classification errorString "while checking document:readme"
              (errNew UnknownNamespaceError "object definition `team` not found")
              RELATIONSHIP 0 0 "" eq_refl) as [Hk Hm].
  split; [ rewrite Hk | rewrite Hm ]; reflexivity.
Defined.

End InfrastructuralMapping.

(* ================================================================== *)
(** ** Loading, whatever the storage does *)

Section LoadingAnyStorage.
Context {E : Environment}.

Lemma isPrefixOf_nil {A : Type} (l : list A) : isPrefixOf [] l.
Proof. exists l. reflexivity. Qed.

Lemma isPrefixOf_refl {A : Type} (l : list A) : isPrefixOf l l.
Proof. exists []. rewrite app_nil_r. reflexivity. Qed.

Lemma isPrefixOf_cons {A : Type} (x : A) (l1 l2 : list A) :
  isPrefixOf l1 l2 -> isPrefixOf (x :: l1) (x :: l2).
Proof. intros [rest ->]. exists rest. reflexivity. Qed.

Lemma isPrefixOf_app {A : Type} (l l1 l2 : list A) :
  isPrefixOf l1 l2 -> isPrefixOf (l ++ l1) (l ++ l2).
Proof. intros [rest ->]. exists rest. rewrite app_assoc. reflexivity. Qed.

Lemma isPrefixOf_weaken {A : Type} (l1 l2 l3 : list A) :
  isPrefixOf l1 l2 -> isPrefixOf l1 (l2 ++ l3).
Proof. intros [rest ->]. exists (rest ++ l3). rewrite app_assoc. reflexivity. Qed.

Lemma afterWrites_one_caveat rwt def cs :
  afterWrites
    {| txCaveats := txCaveats rwt ++ [def]; txNamespaces := txNamespaces rwt;
       txRelationships := txRelationships rwt;
       txJournal := txJournal rwt ++ [OpWriteCaveats [def]] |} cs []
  = afterWrites rwt (def :: cs) [].
Proof. unfold afterWrites. cbn. rewrite <- !app_assoc. reflexivity. Qed.

Lemma afterWrites_one_namespace rwt def ns :
  afterWrites
    {| txCaveats := txCaveats rwt; txNamespaces := txNamespaces rwt ++ [def];
       txRelationships := txRelationships rwt;
       txJournal := txJournal rwt ++ [OpWriteNamespaces def] |} [] ns
  = afterWrites rwt [] (def :: ns).
Proof. unfold afterWrites. cbn. rewrite <- !app_assoc. reflexivity. Qed.

Lemma afterWrites_empty rwt : afterWrites rwt [] [] = rwt.
Proof. destruct rwt. unfold afterWrites. cbn. rewrite !app_nil_r. reflexivity. Qed.

Lemma afterWrites_compose rwt cs ns :
  afterWrites (afterWrites rwt cs []) [] ns = afterWrites rwt cs ns.
Proof. unfold afterWrites. cbn. rewrite !app_nil_r, <- !app_assoc. reflexivity. Qed.

(** What the loop over the caveats has done when it ends, either way. *)
Lemma loadCaveats_prefix defs : forall rwt errors rwt' errors' err,
  loadCaveats defs rwt errors = (rwt', errors', err) ->
  exists cs es,
    rwt' = afterWrites rwt cs [] /\ errors' = errors ++ es
    /\ isPrefixOf cs (filter validCaveat defs)
    /\ isPrefixOf es (caveatIssues defs)
    /\ (err = None -> cs = filter validCaveat defs /\ es = caveatIssues defs)
    /\ (forall e, err = Some e ->
        exists rwt0 def, In def defs /\ validCaveat def = true
                         /\ WriteCaveats_failure rwt0 [def] = Some e).
Proof.
  induction defs as [|def rest IH]; intros rwt errors rwt' errors' err Hload.
  - cbn in Hload. injection Hload as <- <- <-. exists [], [].
    rewrite afterWrites_empty, app_nil_r.
    repeat split; try apply isPrefixOf_nil. discriminate.
  - cbn [loadCaveats] in Hload. cbn [filter caveatIssues flat_map].
    destruct (ValidateCaveatDefinition def) as [cverr|] eqn:Hv.
    + assert (Hvd : validCaveat def = false)
        by (unfold validCaveat; rewrite Hv; reflexivity).
      rewrite Hvd.
      destruct (IH _ _ _ _ _ Hload) as (cs & es & Hrwt & Herr & Hcs & Hes & Hall & Hprov).
      exists cs, (schemaIssue (Some cverr) (CaveatDefinition_Name def) :: es).
      split; [ exact Hrwt | ].
      split; [ rewrite Herr, <- app_assoc; reflexivity | ].
      split; [ exact Hcs | ].
      split; [ apply (isPrefixOf_app [_]); exact Hes | ].
      split.
      * intros Hnone. destruct (Hall Hnone) as [-> ->]. split; reflexivity.
      * intros e He. destruct (Hprov e He) as (rwt0 & d & Hin & Hvalid & Hfail).
        exists rwt0, d. split; [ right; exact Hin | ]. split; assumption.
    + assert (Hvd : validCaveat def = true)
        by (unfold validCaveat; rewrite Hv; reflexivity).
      rewrite Hvd. unfold WriteCaveats in Hload.
      destruct (WriteCaveats_failure rwt [def]) as [e0|] eqn:Hw.
      * injection Hload as <- <- <-. exists [], [].
        rewrite afterWrites_empty, app_nil_r.
        repeat split; try apply isPrefixOf_nil; try discriminate.
        intros e [= <-]. exists rwt, def. split; [ left; reflexivity | ].
        split; [ exact Hvd | exact Hw ].
      * destruct (IH _ _ _ _ _ Hload) as (cs & es & Hrwt & Herr & Hcs & Hes & Hall & Hprov).
        exists (def :: cs), es.
        split; [ rewrite Hrwt; apply afterWrites_one_caveat | ].
        split; [ exact Herr | ].
        split; [ apply isPrefixOf_cons; exact Hcs | ].
        split; [ exact Hes | ].
        split.
        -- intros Hnone. destruct (Hall Hnone) as [-> ->]. split; reflexivity.
        -- intros e He. destruct (Hprov e He) as (rwt0 & d & Hin & Hvalid & Hfail).
           exists rwt0, d. split; [ right; exact Hin | ]. split; assumption.
Qed.

Lemma loadNamespaces_prefix resolver defs : forall rwt errors rwt' errors' err,
  loadNamespaces resolver defs rwt errors = (rwt', errors', err) ->
  exists ns es,
    rwt' = afterWrites rwt [] ns /\ errors' = errors ++ es
    /\ isPrefixOf ns (filter (validNamespace resolver) defs)
    /\ isPrefixOf es (namespaceIssues resolver defs)
    /\ (err = None ->
        ns = filter (validNamespace resolver) defs /\ es = namespaceIssues resolver defs)
    /\ (forall e, err = Some e ->
        exists rwt0 def, In def defs /\ validNamespace resolver def = true
                         /\ WriteNamespaces_failure rwt0 def = Some e).
Proof.
  induction defs as [|def rest IH]; intros rwt errors rwt' errors' err Hload.
  - cbn in Hload. injection Hload as <- <- <-. exists [], [].
    rewrite afterWrites_empty, app_nil_r.
    repeat split; try apply isPrefixOf_nil. discriminate.
  - cbn [loadNamespaces] in Hload. cbn [filter namespaceIssues flat_map].
    assert (Hrejected : forall verr,
               namespaceError resolver def = Some verr ->
               loadNamespaces resolver rest rwt
                 (errors ++ [schemaIssue (Some verr) (NamespaceDefinition_Name def)])
               = (rwt', errors', err) ->
               exists ns es,
                 rwt' = afterWrites rwt [] ns /\ errors' = errors ++ es
                 /\ isPrefixOf ns (filter (validNamespace resolver) rest)
                 /\ isPrefixOf es
                      (schemaIssue (Some verr) (NamespaceDefinition_Name def)
                       :: namespaceIssues resolver rest)
                 /\ (err = None ->
                     ns = filter (validNamespace resolver) rest
                     /\ es = schemaIssue (Some verr) (NamespaceDefinition_Name def)
                             :: namespaceIssues resolver rest)
                 /\ (forall e, err = Some e ->
                     exists rwt0 d, In d (def :: rest)
                                    /\ validNamespace resolver d = true
                                    /\ WriteNamespaces_failure rwt0 d = Some e)).
    { intros verr _ Hl.
      destruct (IH _ _ _ _ _ Hl) as (ns & es & Hrwt & Herr & Hns & Hes & Hall & Hprov).
      exists ns, (schemaIssue (Some verr) (NamespaceDefinition_Name def) :: es).
      split; [ exact Hrwt | ].
      split; [ rewrite Herr, <- app_assoc; reflexivity | ].
      split; [ exact Hns | ].
      split; [ apply (isPrefixOf_app [_]); exact Hes | ].
      split.
      - intros Hnone. destruct (Hall Hnone) as [-> ->]. split; reflexivity.
      - intros e He. destruct (Hprov e He) as (rwt0 & d & Hin & Hvalid & Hfail).
        exists rwt0, d. split; [ right; exact Hin | ]. split; assumption. }
    destruct (namespaceError resolver def) as [verr|] eqn:Hne.
    + assert (Hvd : validNamespace resolver def = false)
        by (unfold validNamespace; rewrite Hne; reflexivity).
      rewrite Hvd.
      apply (Hrejected verr eq_refl). unfold namespaceError in Hne.
      destruct (NewNamespaceTypeSystem def resolver) as [ts|terr].
      * destruct (TypeSystem_Validate ts) as [tverr|]; [ | discriminate ].
        injection Hne as <-. exact Hload.
      * injection Hne as <-. exact Hload.
    + assert (Hvd : validNamespace resolver def = true)
        by (unfold validNamespace; rewrite Hne; reflexivity).
      rewrite Hvd. unfold namespaceError in Hne.
      destruct (NewNamespaceTypeSystem def resolver) as [ts|terr]; [ | discriminate ].
      destruct (TypeSystem_Validate ts) as [tverr|] eqn:Hts; [ discriminate | ].
      unfold WriteNamespaces in Hload.
      destruct (WriteNamespaces_failure rwt def) as [e0|] eqn:Hw.
      * injection Hload as <- <- <-. exists [], [].
        rewrite afterWrites_empty, app_nil_r.
        repeat split; try apply isPrefixOf_nil; try discriminate.
        intros e [= <-]. exists rwt, def. split; [ left; reflexivity | ].
        split; [ exact Hvd | exact Hw ].
      * destruct (IH _ _ _ _ _ Hload) as (ns & es & Hrwt & Herr & Hns & Hes & Hall & Hprov).
        exists (def :: ns), es.
        split; [ rewrite Hrwt; apply afterWrites_one_namespace | ].
        split; [ exact Herr | ].
        split; [ apply isPrefixOf_cons; exact Hns | ].
        split; [ exact Hes | ].
        split.
        -- intros Hnone. destruct (Hall Hnone) as [-> ->]. split; reflexivity.
        -- intros e He. destruct (Hprov e He) as (rwt0 & d & Hin & Hvalid & Hfail).
           exists rwt0, d. split; [ right; exact Hin | ]. split; assumption.
Qed.

Lemma schemaIssue_isSchemaIssue (verr : option error) (name : string) :
  isSchemaIssue (schemaIssue verr name).
Proof. unfold schemaIssue. destruct (AsErrorWithSource verr); split; reflexivity. Qed.

Lemma schemaIssues_all compiled : Forall isSchemaIssue (schemaIssues compiled).
Proof.
  unfold schemaIssues, caveatIssues, namespaceIssues.
  apply Forall_app. split; apply Forall_flat_map, Forall_forall; intros def _.
  - destruct (ValidateCaveatDefinition def);
      [ constructor; [ apply schemaIssue_isSchemaIssue | constructor ] | constructor ].
  - destruct (namespaceError _ def);
      [ constructor; [ apply schemaIssue_isSchemaIssue | constructor ] | constructor ].
Qed.

Lemma isPrefixOf_Forall {A : Type} (P : A -> Prop) (l1 l2 : list A) :
  isPrefixOf l1 l2 -> Forall P l2 -> Forall P l1.
Proof. intros [rest ->] H. apply Forall_app in H. apply H. Qed.

(** What [loadCompiled] has done when it returns, either way. *)
Lemma loadCompiled_prefix compiled rwt rwt' errors err :
  loadCompiled compiled rwt = (rwt', errors, err) ->
  let resolver := (ObjectDefinitions compiled, CaveatDefinitions compiled) in
  exists cs ns,
    rwt' = afterWrites rwt cs ns
    /\ isPrefixOf cs (filter validCaveat (CaveatDefinitions compiled))
    /\ isPrefixOf ns (filter (validNamespace resolver) (ObjectDefinitions compiled))
    /\ (ns <> [] -> cs = filter validCaveat (CaveatDefinitions compiled))
    /\ isPrefixOf errors (schemaIssues compiled)
    /\ (err = None ->
        cs = filter validCaveat (CaveatDefinitions compiled)
        /\ ns = filter (validNamespace resolver) (ObjectDefinitions compiled)
        /\ errors = schemaIssues compiled)
    /\ (forall e, err = Some e ->
        (exists rwt0 def, In def (CaveatDefinitions compiled)
                          /\ validCaveat def = true
                          /\ WriteCaveats_failure rwt0 [def] = Some e)
        \/ (exists rwt0 def, In def (ObjectDefinitions compiled)
                             /\ validNamespace resolver def = true
                             /\ WriteNamespaces_failure rwt0 def = Some e)).
Proof.
  unfold loadCompiled. cbv zeta. intros Hload.
  destruct (loadCaveats (CaveatDefinitions compiled) rwt [])
    as [[rwt1 errors1] err1] eqn:Hc.
  destruct (loadCaveats_prefix _ _ _ _ _ _ Hc)
    as (cs & es & Hrwt1 & Herr1 & Hcs & Hes & Hall1 & Hprov1).
  cbn [app] in Herr1. subst errors1.
  destruct err1 as [e1|].
  - injection Hload as <- <- <-. exists cs, []. 
    split; [ exact Hrwt1 | ]. split; [ exact Hcs | ].
    split; [ apply isPrefixOf_nil | ].
    split; [ intros H; exfalso; apply H; reflexivity | ].
    split; [ apply isPrefixOf_weaken; exact Hes | ].
    split; [ discriminate | ].
    intros e He. left. apply Hprov1. exact He.
  - destruct (Hall1 eq_refl) as [-> ->].
    destruct (loadNamespaces_prefix _ _ _ _ _ _ _ Hload)
      as (ns & es2 & Hrwt & Herr & Hns & Hes2 & Hall2 & Hprov2).
    exists (filter validCaveat (CaveatDefinitions compiled)), ns.
    split; [ rewrite Hrwt, Hrwt1; apply afterWrites_compose | ].
    split; [ apply isPrefixOf_refl | ]. split; [ exact Hns | ].
    split; [ reflexivity | ].
    split; [ rewrite Herr; apply isPrefixOf_app; exact Hes2 | ].
    split.
    + intros Hnone. destruct (Hall2 Hnone) as [-> ->]. rewrite Herr. repeat split.
    + intros e He. right. apply Hprov2. exact He.
Qed.

(** X4. Whatever the storage does, [loadCompiled] writes valid definitions
    only, in the order of the schema and the caveats first: what it has
    written when it returns is a prefix of the valid caveats followed by a
    prefix of the valid object definitions, the latter only after all the
    valid caveats; the developer errors it returns are a prefix of the
    schema issues, all of kind SCHEMA_ISSUE and source SCHEMA; and when it
    returns no error, nothing is missing from any of the three. *)
Theorem loadCompiled_writes_valid_definitions_in_order
    (compiled : compiler_CompiledSchema) (rwt : ReadWriteTransaction) :
  let resolver := (ObjectDefinitions compiled, CaveatDefinitions compiled) in
  let validCs := filter validCaveat (CaveatDefinitions compiled) in
  let validNs := filter (validNamespace resolver) (ObjectDefinitions compiled) in
  let '(rwt', errors, err) := loadCompiled compiled rwt in
  exists cs ns,
    rwt' = afterWrites rwt cs ns
    /\ isPrefixOf cs validCs /\ isPrefixOf ns validNs
    /\ (ns <> [] -> cs = validCs)
    /\ isPrefixOf errors (schemaIssues compiled)
    /\ Forall isSchemaIssue errors
    /\ (err = None -> cs = validCs /\ ns = validNs /\ errors = schemaIssues compiled).
Proof.
  cbv zeta. destruct (loadCompiled compiled rwt) as [[rwt' errors] err] eqn:Hload.
  destruct (loadCompiled_prefix _ _ _ _ _ Hload)
    as (cs & ns & Hrwt & Hcs & Hns & Horder & Herrors & Hall & _).
  exists cs, ns. repeat (split; [ assumption | ]).
  split; [ | exact Hall ].
  apply (isPrefixOf_Forall _ _ _ Herrors), schemaIssues_all.
Qed.

(** X5. An error returned by [loadCompiled] is always the failure of a
    write, of a caveat or of an object definition of the schema that passed
    validation: a definition that fails validation never makes it return an
    error, only a developer error. *)
Theorem loadCompiled_error_is_a_failed_write
    (compiled : compiler_CompiledSchema) (rwt : ReadWriteTransaction) (e : error) :
  snd (loadCompiled compiled rwt) = Some e ->
  (exists rwt0 def, In def (CaveatDefinitions compiled)
                    /\ validCaveat def = true
                    /\ WriteCaveats_failure rwt0 [def] = Some e)
  \/ (exists rwt0 def,
        In def (ObjectDefinitions compiled)
        /\ validNamespace (ObjectDefinitions compiled, CaveatDefinitions compiled) def
           = true
        /\ WriteNamespaces_failure rwt0 def = Some e).
Proof.
  destruct (loadCompiled compiled rwt) as [[rwt' errors] err] eqn:Hload.
  cbn [snd]. intros ->.
  destruct (loadCompiled_prefix _ _ _ _ _ Hload) as (cs & ns & _ & _ & _ & _ & _ & _ & Hprov).
  apply Hprov. reflexivity.
Qed.

Lemma caveatIssues_length defs :
  List.length (caveatIssues defs)
  = List.length (filter (fun def => negb (validCaveat def)) defs).
Proof.
  unfold caveatIssues. induction defs as [|def rest IH]; [ reflexivity | ].
  cbn [flat_map filter]. rewrite length_app, IH. unfold validCaveat at 2.
  destruct (ValidateCaveatDefinition def); reflexivity.
Qed.

Lemma namespaceIssues_length resolver defs :
  List.length (namespaceIssues resolver defs)
  = List.length (filter (fun def => negb (validNamespace resolver def)) defs).
Proof.
  unfold namespaceIssues. induction defs as [|def rest IH]; [ reflexivity | ].
  cbn [flat_map filter]. rewrite length_app, IH. unfold validNamespace at 2.
  destruct (namespaceError resolver def); reflexivity.
Qed.

Lemma filter_partition_length {A : Type} (p : A -> bool) (l : list A) :
  List.length (filter p l) + List.length (filter (fun x => negb (p x)) l)
  = List.length l.
Proof.
  induction l as [|x rest IH]; [ reflexivity | ].
  cbn [filter]. destruct (p x); cbn [negb List.length]; lia.
Qed.

(** X6. With a storage whose writes of definitions do not fail,
    [loadCompiled] accounts for every definition of the schema exactly once:
    it returns no error, it has written exactly the valid caveats and object
    definitions, and it returns one developer error per definition that is
    not valid. *)
Theorem loadCompiled_writes_or_reports_each_definition
    (compiled : compiler_CompiledSchema) (rwt : ReadWriteTransaction) :
  (forall rwt0 defs, WriteCaveats_failure rwt0 defs = None) ->
  (forall rwt0 def, WriteNamespaces_failure rwt0 def = None) ->
  let resolver := (ObjectDefinitions compiled, CaveatDefinitions compiled) in
  let '(rwt', errors, err) := loadCompiled compiled rwt in
  err = None
  /\ txCaveats rwt' = txCaveats rwt ++ filter validCaveat (CaveatDefinitions compiled)
  /\ txNamespaces rwt'
     = txNamespaces rwt ++ filter (validNamespace resolver) (ObjectDefinitions compiled)
  /\ List.length errors
     = List.length (filter (fun def => negb (validCaveat def))
                      (CaveatDefinitions compiled))
       + List.length (filter (fun def => negb (validNamespace resolver def))
                        (ObjectDefinitions compiled))
  /\ (List.length (txCaveats rwt') - List.length (txCaveats rwt))
     + (List.length (txNamespaces rwt') - List.length (txNamespaces rwt))
     + List.length errors
     = List.length (CaveatDefinitions compiled)
       + List.length (ObjectDefinitions compiled).
Proof.
  intros Hc Hn. cbv zeta.
  destruct (loadCompiled compiled rwt) as [[rwt' errors] err] eqn:Hload.
  destruct (loadCompiled_prefix _ _ _ _ _ Hload)
    as (cs & ns & Hrwt & _ & _ & _ & _ & Hall & Hprov).
  assert (Herr : err = None).
  { destruct err as [e|]; [ | reflexivity ].
    destruct (Hprov e eq_refl) as [(rwt0 & def & _ & _ & Hf)|(rwt0 & def & _ & _ & Hf)].
    - rewrite Hc in Hf. discriminate.
    - rewrite Hn in Hf. discriminate. }
  destruct (Hall Herr) as (-> & -> & ->). subst rwt'.
  split; [ exact Herr | ]. cbn [afterWrites txCaveats txNamespaces].
  split; [ reflexivity | ]. split; [ reflexivity | ].
  assert (Hlen : List.length (schemaIssues compiled)
                 = List.length (filter (fun def => negb (validCaveat def))
                                  (CaveatDefinitions compiled))
                   + List.length
                       (filter (fun def =>
                                  negb (validNamespace
                                          (ObjectDefinitions compiled,
                                           CaveatDefinitions compiled) def))
                          (ObjectDefinitions compiled))).
  { unfold schemaIssues.
    rewrite length_app, caveatIssues_length, namespaceIssues_length. reflexivity. }
  split; [ exact Hlen | ].
  rewrite Hlen, !length_app.
  pose proof (filter_partition_length validCaveat (CaveatDefinitions compiled)).
  pose proof (filter_partition_length
                (validNamespace (ObjectDefinitions compiled, CaveatDefinitions compiled))
                (ObjectDefinitions compiled)).
  lia.
Qed.

End LoadingAnyStorage.

(** The write of [document] fails: that failure is what comes back. *)
Lemma loadCompiled_error_is_a_failed_write_witness :
  snd (@loadCompiled SampleFaults.envFailingWrites
         {| ObjectDefinitions := [Sample.user; Sample.document];
            CaveatDefinitions := [] |} (beginTx emptyStore))
  = Some SampleFaults.writeError
  /\ exists rwt0,
       @WriteNamespaces_failure SampleFaults.envFailingWrites rwt0 Sample.document
       = Some SampleFaults.writeError.
Proof.
  split; [ reflexivity | ].
  destruct (@loadCompiled_error_is_a_failed_write SampleFaults.envFailingWrites
              {| ObjectDefinitions := [Sample.user; Sample.document];
                 CaveatDefinitions := [] |} (beginTx emptyStore)
              SampleFaults.writeError eq_refl)
    as [(rwt0 & def & Hin & _)|(rwt0 & def & Hin & _ & Hf)].
  - destruct Hin.
  - exists rwt0. destruct Hin as [<-|[<-|[]]]; [ discriminate Hf | exact Hf ].
Defined.

(** One valid and one invalid object definition: one written, one
    reported. *)
Lemma loadCompiled_writes_or_reports_each_definition_witness :
  let '(rwt', errors, err) :=
    @loadCompiled Sample.env
      {| ObjectDefinitions := [Sample.user; Sample.folder]; CaveatDefinitions := [] |}
      (beginTx emptyStore) in
  err = None /\ txNamespaces rwt' = [Sample.user] /\ List.length errors = 1.
Proof.
  pose proof (@loadCompiled_writes_or_reports_each_definition Sample.env
                {| ObjectDefinitions := [Sample.user; Sample.folder];
                   CaveatDefinitions := [] |}
                (beginTx emptyStore) (fun _ _ => eq_refl) (fun _ _ => eq_refl)) as H.
  cbv zeta in H.
  destruct (@loadCompiled Sample.env _ _) as [[rwt' errors] err].
  destruct H as (He & _ & Hns & Hlen & _).
  split; [ exact He | ]. split; [ rewrite Hns | rewrite Hlen ]; reflexivity.
Defined.

(* ================================================================== *)
(** ** The scan of the relationships *)

Section ScanningRelationships.
Context {E : Environment}.

(** One turn of the loop on a relationship that does not abort it. *)
Lemma scanTuples_step rwt tpl rest devErrors updates lg :
  notAborted rwt tpl = true ->
  scanTuples (tpl :: rest) rwt devErrors updates lg
  = scanTuples rest rwt (devErrors ++ rejections rwt [tpl])
      (updates ++ map Touch (accepted rwt [tpl])) lg.
Proof.
  unfold notAborted, rejections, accepted, isAccepted. cbn [flat_map filter scanTuples].
  unfold relationshipVerdict.
  destruct (RelationTuple_Validate tpl) as [verr|]; [ intros _ | ].
  { cbn [app map]. rewrite !app_nil_r. reflexivity. }
  destruct (validateTupleWrite tpl rwt) as [err|]; [ | intros _ ].
  - destruct (distinguishGraphError (Some err) RELATIONSHIP 0 0 (tuple_String tpl))
      as [[[devErr|] wireErr] lg'] eqn:Hd; [ intros _ | discriminate ].
    destruct (distinguishGraphError_quiet _ _ _ _ _ _ _ _ Hd) as [-> _].
    cbn [app map]. rewrite !app_nil_r. reflexivity.
  - cbn [app map]. rewrite app_nil_r. reflexivity.
Qed.

Lemma rejections_app rwt l1 l2 :
  rejections rwt (l1 ++ l2) = rejections rwt l1 ++ rejections rwt l2.
Proof. unfold rejections. apply flat_map_app. Qed.

Lemma aborted_not_nil rwt tpl wireErr :
  relationshipVerdict rwt tpl = Aborted wireErr -> wireErr <> None.
Proof.
  unfold relationshipVerdict.
  destruct (RelationTuple_Validate tpl); [ discriminate | ].
  destruct (validateTupleWrite tpl rwt) as [err|]; [ | discriminate ].
  destruct (distinguishGraphError (Some err) RELATIONSHIP 0 0 (tuple_String tpl))
    as [[[devErr|] wireErr'] lg'] eqn:Hd; [ discriminate | ].
  intros [= <-].
  assert (Hm : firstMatch (Some err) = None).
  { apply (no_developer_error _ RELATIONSHIP 0%N 0%N (tuple_String tpl)).
    rewrite Hd. reflexivity. }
  rewrite (distinguishGraphError_infrastructural _ RELATIONSHIP 0 0 (tuple_String tpl) Hm)
    in Hd.
  injection Hd as <- _. apply rewriteACLError_not_nil.
Qed.

Lemma scanTuples_aborts rwt before tpl after wireErr : forall devErrors updates lg,
  forallb (notAborted rwt) before = true ->
  relationshipVerdict rwt tpl = Aborted wireErr ->
  exists lg',
    scanTuples (before ++ tpl :: after) rwt devErrors updates lg
    = scanReturned (devErrors ++ rejections rwt before) wireErr lg'.
Proof.
  induction before as [|x rest IH]; intros devErrors updates lg Hall Hverdict.
  - cbn [app scanTuples rejections flat_map]. rewrite app_nil_r.
    unfold relationshipVerdict in Hverdict.
    destruct (RelationTuple_Validate tpl); [ discriminate | ].
    destruct (validateTupleWrite tpl rwt) as [err|]; [ | discriminate ].
    destruct (distinguishGraphError (Some err) RELATIONSHIP 0 0 (tuple_String tpl))
      as [[[devErr|] wireErr'] lg']; [ discriminate | ].
    injection Hverdict as <-. eexists. reflexivity.
  - cbn [forallb] in Hall. apply andb_true_iff in Hall. destruct Hall as [Hx Hrest].
    cbn [app]. rewrite (scanTuples_step _ _ _ _ _ _ Hx).
    destruct (IH (devErrors ++ rejections rwt [x])
                (updates ++ map Touch (accepted rwt [x])) lg Hrest Hverdict)
      as [lg' Hscan].
    exists lg'. rewrite Hscan. change (x :: rest) with ([x] ++ rest).
    rewrite rejections_app, app_assoc. reflexivity.
Qed.

(** X7. When the write-time validation of a relationship fails with an
    error that is no developer error, [loadTuples] returns at once: with that
    infrastructural error, never nil, and the developer errors of the
    relationships before it; it has written nothing, not even the
    relationships it had accepted so far, and does not look at the
    relationships after it. *)
Theorem loadTuples_stops_at_infrastructural_error
    (rwt : ReadWriteTransaction) (before after : list RelationTuple)
    (tpl : RelationTuple) (wireErr : option error) :
  forallb (notAborted rwt) before = true ->
  relationshipVerdict rwt tpl = Aborted wireErr ->
  let '(rwt', devErrors, err, _) := loadTuples (before ++ tpl :: after) rwt in
  rwt' = rwt /\ devErrors = rejections rwt before /\ err = wireErr /\ err <> None.
Proof.
  intros Hall Hverdict. unfold loadTuples.
  destruct (scanTuples_aborts rwt before tpl after wireErr [] [] [] Hall Hverdict)
    as [lg' ->].
  cbn [app]. repeat split. apply (aborted_not_nil _ _ _ Hverdict).
Qed.

Lemma all_accepted rwt tuples :
  forallb (isAccepted rwt) tuples = true ->
  forallb (notAborted rwt) tuples = true
  /\ accepted rwt tuples = tuples /\ rejections rwt tuples = [].
Proof.
  unfold accepted, rejections.
  induction tuples as [|tpl rest IH]; [ repeat split | ].
  cbn [forallb filter flat_map]. intros H. apply andb_true_iff in H.
  destruct H as [Hone Hrest]. destruct (IH Hrest) as (Ha & Hb & Hc).
  rewrite Hone, Ha, Hb, Hc. unfold notAborted. unfold isAccepted in Hone.
  destruct (relationshipVerdict rwt tpl); try discriminate. repeat split.
Qed.

Lemma loadTuples_all_accepted rwt tuples :
  forallb (isAccepted rwt) tuples = true ->
  loadTuples tuples rwt
  = (fst (WriteRelationships rwt (map Touch tuples)), [],
     snd (WriteRelationships rwt (map Touch tuples)), []).
Proof.
  intros Hall. destruct (all_accepted _ _ Hall) as (Hna & Hacc & Hrej).
  rewrite (loadTuples_finishes _ _ Hna), Hacc, Hrej. reflexivity.
Qed.

(** X8. When every relationship passes both validations, [loadTuples]
    returns no developer error and has issued exactly one write, the batch
    of the upserts of all the relationships in their order, whose error is
    its own; this also when there is no relationship at all: an empty batch
    is written all the same. *)
Theorem loadTuples_writes_one_batch
    (rwt : ReadWriteTransaction) (tuples : list RelationTuple) :
  forallb (isAccepted rwt) tuples = true ->
  loadTuples tuples rwt
  = (fst (WriteRelationships rwt (map Touch tuples)), [],
     snd (WriteRelationships rwt (map Touch tuples)), [])
  /\ (WriteRelationships_failure rwt (map Touch tuples) = None ->
      txJournal (fst (fst (fst (loadTuples tuples rwt))))
      = txJournal rwt ++ [OpWriteRelationships (map Touch tuples)])
  /\ (WriteRelationships_failure rwt [] = None ->
      txJournal (fst (fst (fst (loadTuples [] rwt))))
      = txJournal rwt ++ [OpWriteRelationships []]).
Proof.
  intros Hall. split; [ apply loadTuples_all_accepted; exact Hall | ]. split.
  - intros Hw. rewrite (loadTuples_all_accepted _ _ Hall).
    unfold WriteRelationships. rewrite Hw. reflexivity.
  - intros Hw. rewrite (loadTuples_all_accepted rwt [] eq_refl).
    unfold WriteRelationships. cbn [map]. rewrite Hw. reflexivity.
Qed.

End ScanningRelationships.

(** A malformed relationship, then one on which the check of the revision
    fails, then a good one: one developer error, an out-of-range error, and
    the first relationship, though accepted, is not written. *)
Lemma loadTuples_stops_at_infrastructural_error_witness :
  let '(rwt', devErrors, err, _) :=
    @loadTuples SampleFaults.envStrict (Relationships SampleFaults.withEve)
      SampleFaults.loaded in
  rwt' = SampleFaults.loaded /\ List.length devErrors = 1
  /\ err = Some (errNew (statusError OutOfRange)
                   "invalid zookie: revision is no longer valid").
Proof.
  pose proof (@loadTuples_stops_at_infrastructural_error SampleFaults.envStrict
                SampleFaults.loaded [Sample.first; Sample.second] [Sample.third]
                SampleFaults.eve
                (Some (errNew (statusError OutOfRange)
                         "invalid zookie: revision is no longer valid"))
                eq_refl eq_refl) as H.
  cbn [app] in H. unfold SampleFaults.withEve. cbn [Relationships].
  destruct (@loadTuples SampleFaults.envStrict _ _) as [[[rwt' devErrors] err] lg].
  destruct H as (Hrwt & Hdev & Herr & _).
  split; [ exact Hrwt | ]. split; [ rewrite Hdev; reflexivity | exact Herr ].
Defined.

Lemma loadTuples_writes_one_batch_witness :
  txJournal (fst (fst (fst (@loadTuples Sample.env [Sample.first; Sample.third]
                              SampleFaults.loaded))))
  = txJournal SampleFaults.loaded
    ++ [OpWriteRelationships [Touch Sample.first; Touch Sample.third]]
  /\ txJournal (fst (fst (fst (@loadTuples Sample.env [] SampleFaults.loaded))))
     = txJournal SampleFaults.loaded ++ [OpWriteRelationships []].
Proof.
  destruct (@loadTuples_writes_one_batch Sample.env SampleFaults.loaded
              [Sample.first; Sample.third] eq_refl) as (_ & Hbatch & Hempty).
  split; [ exact (Hbatch eq_refl) | exact (Hempty eq_refl) ].
Defined.

(* ================================================================== *)
(** ** What [NewDevContext] returns *)

Section Outcomes.
Context {E : Environment}.

Lemma no_caveatIssues defs : caveatIssues defs = [] -> filter validCaveat defs = defs.
Proof.
  unfold caveatIssues. induction defs as [|def rest IH]; [ reflexivity | ].
  cbn [flat_map filter]. unfold validCaveat at 1.
  destruct (ValidateCaveatDefinition def); [ discriminate | ].
  cbn [app isNil]. intros H. rewrite (IH H). reflexivity.
Qed.

Lemma no_namespaceIssues resolver defs :
  namespaceIssues resolver defs = [] -> filter (validNamespace resolver) defs = defs.
Proof.
  unfold namespaceIssues. induction defs as [|def rest IH]; [ reflexivity | ].
  cbn [flat_map filter]. unfold validNamespace at 1.
  destruct (namespaceError resolver def); [ discriminate | ].
  cbn [app isNil]. intros H. rewrite (IH H). reflexivity.
Qed.

(** The transaction of a request without fault: committed at the first
    checkpoint, with everything in it. *)
Lemma load_commits requestContext compiled :
  storageNeverFails ->
  schemaIssues compiled = [] ->
  forallb (isAccepted (loadedSchema compiled)) (Relationships requestContext) = true ->
  ReadWriteTx emptyStore (loadInTransaction compiled requestContext)
  = (committedStore compiled (Relationships requestContext), ([], []),
     revisionAt 1, None).
Proof.
  intros (Hc & Hn & Hr) Hissues Hall.
  unfold ReadWriteTx, loadInTransaction.
  rewrite (loadCompiled_all Hc Hn), Hissues.
  unfold schemaIssues in Hissues. apply app_eq_nil in Hissues.
  destruct Hissues as [Hci Hni].
  rewrite (no_caveatIssues _ Hci), (no_namespaceIssues _ _ Hni).
  change (afterWrites (beginTx emptyStore) (CaveatDefinitions compiled)
            (ObjectDefinitions compiled)) with (loadedSchema compiled).
  change (0 <? List.length (@nil DeveloperError))%nat with false.
  cbn [notNil isNil negb orb].
  rewrite (loadTuples_all_accepted _ _ Hall).
  unfold WriteRelationships. rewrite Hr. cbn [fst snd].
  change (0 <? List.length (@nil DeveloperError))%nat with false.
  cbn [notNil isNil negb orb].
  unfold committedStore, loadedSchema, afterWrites, beginTx, emptyStore.
  cbn [txCaveats txNamespaces txRelationships txJournal storedCaveats
       storedNamespaces storedRelationships checkpoint journal app].
  rewrite <- !app_assoc. reflexivity.
Qed.

Lemma committedStore_closes compiled tuples :
  closes (journal (committedStore compiled tuples)) = 0.
Proof.
  unfold committedStore. cbn [journal]. rewrite !closes_app.
  assert (H1 : forall defs : list CaveatDefinition,
             closes (map (fun def => OpWriteCaveats [def]) defs) = 0)
    by (induction defs; [ reflexivity | assumption ]).
  assert (H2 : forall defs : list NamespaceDefinition,
             closes (map OpWriteNamespaces defs) = 0)
    by (induction defs; [ reflexivity | assumption ]).
  rewrite H1, H2. reflexivity.
Qed.

(** X9. A request without fault (the schema compiles and validates, every
    relationship passes both validations, the request validates, the storage
    does not fail) gets a sandbox and nothing else: no developer errors and
    no error. The sandbox holds the compiled schema, the revision of the one
    committed transaction, a dispatcher of depth 10, and the datastore, left
    open, in which all the definitions and all the relationships are
    stored. *)
Theorem NewDevContext_builds_the_sandbox
    (requestContext : RequestContext) (compiled : compiler_CompiledSchema) :
  NewMemdbDatastore_failure = None ->
  storageNeverFails ->
  CompileSchema (Schema requestContext) = (compiled, None, None) ->
  schemaIssues compiled = [] ->
  forallb (isAccepted (loadedSchema compiled)) (Relationships requestContext) = true ->
  RequestContext_Validate requestContext = None ->
  let r := NewDevContext requestContext in
  let ds := committedStore compiled (Relationships requestContext) in
  sandbox r = Some {| Datastore := Some ds; Revision := revisionAt 1;
                      CompiledSchema := compiled;
                      Dispatcher := Some {| maxDepth := 10; dispatcherClosed := 0 |} |}
  /\ developerErrors r = None /\ failure r = None
  /\ created r = Some ds
  /\ closes (journal ds) = 0
  /\ (forall tpl, In tpl (Relationships requestContext) ->
      In tpl (storedRelationships ds)).
Proof.
  intros Hnew Hstorage Hcompile Hissues Hall Hvalid. cbv zeta.
  unfold NewDevContext, NewMemdbDatastore. rewrite Hnew.
  unfold newDevContextWithDatastore. rewrite Hcompile. cbn [notNil isNil negb].
  rewrite (load_commits _ _ Hstorage Hissues Hall).
  change (0 <? List.length (@nil DeveloperError))%nat with false.
  cbn [notNil isNil negb orb]. rewrite Hvalid.
  cbn [nerr devErrs dctx store notNil isNil negb orb sandbox developerErrors
       failure created].
  repeat (split; [ reflexivity | ]).
  split; [ apply committedStore_closes | ].
  intros tpl Hin. unfold committedStore. cbn [storedRelationships].
  apply touched_are_stored. right. exact Hin.
Qed.

(** X10. The validation of the request as a whole comes last, after the
    transaction has been committed: when it is the only thing that fails,
    [NewDevContext] returns its error alone, no sandbox and no developer
    errors, and closes the datastore that by then holds the committed
    schema and relationships. *)
Theorem NewDevContext_validates_the_request_last
    (requestContext : RequestContext) (compiled : compiler_CompiledSchema)
    (verr : error) :
  NewMemdbDatastore_failure = None ->
  (forall ds, Datastore_Close_failure ds = None) ->
  storageNeverFails ->
  CompileSchema (Schema requestContext) = (compiled, None, None) ->
  schemaIssues compiled = [] ->
  forallb (isAccepted (loadedSchema compiled)) (Relationships requestContext) = true ->
  RequestContext_Validate requestContext = Some verr ->
  let r := NewDevContext requestContext in
  let ds := committedStore compiled (Relationships requestContext) in
  sandbox r = None /\ developerErrors r = None /\ failure r = Some verr
  /\ created r = Some (closedDatastore ds)
  /\ journal (closedDatastore ds) = journal ds ++ [OpClose].
Proof.
  intros Hnew Hclose Hstorage Hcompile Hissues Hall Hvalid. cbv zeta.
  unfold NewDevContext, NewMemdbDatastore. rewrite Hnew.
  unfold newDevContextWithDatastore. rewrite Hcompile. cbn [notNil isNil negb].
  rewrite (load_commits _ _ Hstorage Hissues Hall).
  change (0 <? List.length (@nil DeveloperError))%nat with false.
  cbn [notNil isNil negb orb]. rewrite Hvalid.
  cbn [nerr devErrs dctx store notNil isNil negb orb].
  unfold closedDatastore, Datastore_Close. rewrite Hclose.
  cbn [notNil isNil negb fst sandbox developerErrors failure created].
  repeat split.
Qed.

Lemma newDevContextWithDatastore_handles requestContext ds dc :
  dctx (newDevContextWithDatastore requestContext ds) = Some dc ->
  Datastore dc = Some (store (newDevContextWithDatastore requestContext ds))
  /\ Dispatcher dc = Some (NewLocalOnlyDispatcher 10).
Proof.
  unfold newDevContextWithDatastore.
  destruct (CompileSchema (Schema requestContext)) as [[compiled devError] err].
  destruct (notNil err); [ discriminate | ].
  destruct devError; [ discriminate | ].
  destruct (ReadWriteTx ds (loadInTransaction compiled requestContext))
    as [[[ds' [inputErrors lg]] rev] err'].
  destruct (notNil err' || (0 <? List.length inputErrors)%nat); [ discriminate | ].
  destruct (RequestContext_Validate requestContext); [ discriminate | ].
  cbn [dctx store]. intros [= <-]. split; reflexivity.
Qed.

(** X11. [NewDevContext] returns a sandbox exactly when it returns neither
    developer errors nor an error. A sandbox it returns always holds both
    handles: the datastore it created, never closed so far, and a fresh
    dispatcher of depth 10. *)
Theorem NewDevContext_sandbox_or_errors (requestContext : RequestContext) :
  let r := NewDevContext requestContext in
  (sandbox r <> None <-> developerErrors r = None /\ failure r = None)
  /\ forall dc, sandbox r = Some dc ->
       exists ds, created r = Some ds /\ Datastore dc = Some ds
                  /\ closes (journal ds) = 0
                  /\ Dispatcher dc = Some {| maxDepth := 10; dispatcherClosed := 0 |}.
Proof.
  cbv zeta. unfold NewDevContext, NewMemdbDatastore.
  destruct NewMemdbDatastore_failure as [err|].
  { cbn [sandbox developerErrors failure]. split.
    - split; [ intros H; exfalso; apply H; reflexivity | intros [_ H]; discriminate ].
    - discriminate. }
  pose proof (newDevContextWithDatastore_success requestContext emptyStore) as Hs.
  pose proof (newDevContextWithDatastore_closes requestContext emptyStore) as Hc.
  pose proof (newDevContextWithDatastore_handles requestContext emptyStore) as Hh.
  cbv zeta in Hs.
  destruct (newDevContextWithDatastore requestContext emptyStore) as [st dc de ne lg].
  cbn [dctx nerr devErrs store] in *.
  destruct ne as [e|]; cbn [notNil isNil negb orb].
  { assert (Hdc : dc = None).
    { destruct dc; [ | reflexivity ]. destruct Hs as [Hs _].
      destruct Hs as [H _]; [ discriminate | discriminate ]. }
    subst dc. unfold Datastore_Close.
    destruct (Datastore_Close_failure st);
      cbn [notNil isNil negb sandbox developerErrors failure]; split;
      try discriminate;
      (split; [ intros H; exfalso; apply H; reflexivity | intros [_ H]; discriminate ]). }
  destruct de as [d|]; cbn [notNil isNil negb orb].
  { assert (Hdc : dc = None).
    { destruct dc; [ | reflexivity ]. destruct Hs as [Hs _].
      destruct Hs as [_ H]; [ discriminate | discriminate ]. }
    subst dc. unfold Datastore_Close.
    destruct (Datastore_Close_failure st);
      cbn [notNil isNil negb sandbox developerErrors failure]; split;
      try discriminate.
    - split; [ intros H; exfalso; apply H; reflexivity | intros [_ H]; discriminate ].
    - split; [ intros H; exfalso; apply H; reflexivity | intros [H _]; discriminate ]. }
  cbn [sandbox developerErrors failure created]. split.
  - split; [ intros _; split; reflexivity | ].
    intros _. apply Hs. split; reflexivity.
  - intros dc' ->. destruct (Hh dc' eq_refl) as [Hds Hdisp].
    exists st. repeat split; assumption.
Qed.

End Outcomes.

Lemma NewDevContext_builds_the_sandbox_witness :
  exists dc,
    sandbox (@NewDevContext Sample.env Sample.wellFormed) = Some dc
    /\ Revision dc = revisionAt 1
    /\ option_map storedRelationships (Datastore dc) = Some [Sample.first; Sample.third]
    /\ developerErrors (@NewDevContext Sample.env Sample.wellFormed) = None.
Proof.
  destruct (@NewDevContext_builds_the_sandbox Sample.env Sample.wellFormed
              {| ObjectDefinitions := [Sample.user; Sample.document];
                 CaveatDefinitions := [] |}
              eq_refl
              (conj (fun _ _ => eq_refl) (conj (fun _ _ => eq_refl) (fun _ _ => eq_refl)))
              eq_refl eq_refl eq_refl eq_refl)
    as (Hs & Hd & _).
  eexists. split; [ exact Hs | ]. split; [ reflexivity | ].
  split; [ reflexivity | exact Hd ].
Defined.

Lemma NewDevContext_validates_the_request_last_witness :
  let r := @NewDevContext SampleFaults.envInvalidRequest Sample.wellFormed in
  sandbox r = None /\ developerErrors r = None
  /\ failure r = Some SampleFaults.invalidRequest
  /\ option_map storedNamespaces (created r) = Some [Sample.user; Sample.document].
Proof.
  destruct (@NewDevContext_validates_the_request_last SampleFaults.envInvalidRequest
              Sample.wellFormed
              {| ObjectDefinitions := [Sample.user; Sample.document];
                 CaveatDefinitions := [] |}
              SampleFaults.invalidRequest
              eq_refl (fun _ => eq_refl)
              (conj (fun _ _ => eq_refl) (conj (fun _ _ => eq_refl) (fun _ _ => eq_refl)))
              eq_refl eq_refl eq_refl eq_refl)
    as (Hs & Hd & Hf & Hc & _).
  cbv zeta. split; [ exact Hs | ]. split; [ exact Hd | ]. split; [ exact Hf | ].
  rewrite Hc. reflexivity.
Defined.

Lemma NewDevContext_sandbox_or_errors_witness :
  sandbox (@NewDevContext Sample.env Sample.wellFormed) <> None
  /\ sandbox (@NewDevContext Sample.env Sample.threeRelationships) = None.
Proof.
  split.
  - apply (@NewDevContext_sandbox_or_errors Sample.env Sample.wellFormed).
    split; reflexivity.
  - destruct (sandbox (@NewDevContext Sample.env Sample.threeRelationships)) eqn:Hs;
      [ | reflexivity ].
    assert (Hne : sandbox (@NewDevContext Sample.env Sample.threeRelationships) <> None)
      by (rewrite Hs; discriminate).
    apply (@NewDevContext_sandbox_or_errors Sample.env Sample.threeRelationships) in Hne.
    destruct Hne as [Hd _]. discriminate Hd.
Defined.

(* ================================================================== *)
(** ** Failures of the construction, and disposal again *)

Section FailuresAndDisposal.
Context {E : Environment}.

(** X12. When the function run in the transaction returns an error, a
    failed write or an infrastructural error of the write-time validation,
    [NewDevContext] returns that error and, with it, a non-nil
    [DeveloperErrors] that holds the developer errors gathered until then,
    possibly none; there is no sandbox, and the transaction is rolled back:
    the datastore, closed on return, holds nothing. *)
Theorem NewDevContext_returns_error_with_developer_errors
    (requestContext : RequestContext) (compiled : compiler_CompiledSchema)
    (rwt : ReadWriteTransaction) (errs : list DeveloperError) (lg : list LogEntry)
    (e : error) :
  NewMemdbDatastore_failure = None ->
  (forall ds, Datastore_Close_failure ds = None) ->
  CompileSchema (Schema requestContext) = (compiled, None, None) ->
  loadInTransaction compiled requestContext (beginTx emptyStore)
  = (rwt, (errs, lg), Some e) ->
  let r := NewDevContext requestContext in
  sandbox r = None
  /\ developerErrors r = Some {| InputErrors := errs |}
  /\ failure r = Some e
  /\ exists ds, created r = Some ds
       /\ storedCaveats ds = [] /\ storedNamespaces ds = []
       /\ storedRelationships ds = []
       /\ journal ds = txJournal rwt ++ [OpRollback; OpClose].
Proof.
  intros Hnew Hclose Hcompile Hload. cbv zeta.
  unfold NewDevContext, NewMemdbDatastore. rewrite Hnew.
  unfold newDevContextWithDatastore. rewrite Hcompile. cbn [notNil isNil negb].
  unfold ReadWriteTx. rewrite Hload. cbn [notNil isNil negb orb].
  cbn [nerr devErrs dctx store notNil isNil negb orb].
  unfold Datastore_Close. rewrite Hclose.
  cbn [notNil isNil negb sandbox developerErrors failure created].
  repeat (split; [ reflexivity | ]).
  eexists. split; [ reflexivity | ].
  cbn [storedCaveats storedNamespaces storedRelationships journal emptyStore app].
  repeat split. rewrite <- app_assoc. reflexivity.
Qed.

(** X13. A schema that does not compile ends the construction before any
    transaction: with a developer error of the compiler, [NewDevContext]
    returns exactly that one developer error and no error; with an error of
    the compiler it returns that error and no developer errors, even if the
    compiler gave a developer error as well. In both cases nothing was
    done to the datastore but closing it. *)
Theorem NewDevContext_stops_at_compile_failure
    (requestContext : RequestContext) (compiled : compiler_CompiledSchema)
    (devError : option DeveloperError) (err : option error) :
  NewMemdbDatastore_failure = None ->
  (forall ds, Datastore_Close_failure ds = None) ->
  CompileSchema (Schema requestContext) = (compiled, devError, err) ->
  err <> None \/ devError <> None ->
  let r := NewDevContext requestContext in
  sandbox r = None
  /\ failure r = err
  /\ developerErrors r
     = match err, devError with
       | None, Some d => Some {| InputErrors := [d] |}
       | _, _ => None
       end
  /\ option_map journal (created r) = Some [OpClose].
Proof.
  intros Hnew Hclose Hcompile Hfail. cbv zeta.
  unfold NewDevContext, NewMemdbDatastore. rewrite Hnew.
  unfold newDevContextWithDatastore. rewrite Hcompile.
  destruct err as [e|]; cbn [notNil isNil negb].
  - cbn [nerr devErrs dctx store notNil isNil negb orb].
    unfold Datastore_Close. rewrite Hclose.
    cbn [notNil isNil negb sandbox developerErrors failure created option_map
         journal emptyStore app].
    repeat split.
  - destruct devError as [d|].
    + cbn [nerr devErrs dctx store notNil isNil negb orb].
      unfold Datastore_Close. rewrite Hclose.
      cbn [notNil isNil negb sandbox developerErrors failure created option_map
           journal emptyStore app].
      repeat split.
    + destruct Hfail as [H|H]; exfalso; apply H; reflexivity.
Qed.

(** The handles of a sandbox that [NewDevContext] returns. *)
Lemma sandbox_handles requestContext dc :
  sandbox (NewDevContext requestContext) = Some dc ->
  exists ds, Datastore dc = Some ds /\ closes (journal ds) = 0
             /\ Dispatcher dc = Some (NewLocalOnlyDispatcher 10).
Proof.
  unfold NewDevContext, NewMemdbDatastore.
  destruct NewMemdbDatastore_failure as [err|]; [ discriminate | ].
  pose proof (newDevContextWithDatastore_success requestContext emptyStore) as Hs.
  pose proof (newDevContextWithDatastore_closes requestContext emptyStore) as Hc.
  pose proof (newDevContextWithDatastore_handles requestContext emptyStore) as Hh.
  cbv zeta in Hs.
  destruct (newDevContextWithDatastore requestContext emptyStore) as [st dc0 de ne lg].
  cbn [dctx nerr devErrs store] in *.
  destruct (notNil ne || notNil de) eqn:Hf.
  - unfold Datastore_Close.
    destruct (notNil (Datastore_Close_failure st)); cbn [sandbox]; [ discriminate | ].
    intros ->. destruct Hs as [Hs _].
    destruct Hs as [-> ->]; [ discriminate | discriminate ].
  - cbn [sandbox]. intros ->. destruct (Hh dc eq_refl) as [Hds Hdisp].
    exists st. repeat split; assumption.
Qed.

(** X14. Disposing a sandbox that [NewDevContext] returned never panics: it
    closes its dispatcher, then its datastore, each for the first time. *)
Theorem Dispose_of_a_built_sandbox (requestContext : RequestContext) (dc : DevContext) :
  sandbox (NewDevContext requestContext) = Some dc ->
  exists dc' events d' ds',
    Dispose dc = Returned (dc', events)
    /\ closeEvents events = [EvDispatcherClose; EvDatastoreClose]
    /\ Dispatcher dc' = Some d' /\ dispatcherClosed d' = 1
    /\ Datastore dc' = Some ds' /\ closes (journal ds') = 1.
Proof.
  intros Hs. destruct (sandbox_handles _ _ Hs) as (ds & Hds & Hc & Hd).
  rewrite (Dispose_both dc _ ds Hd Hds).
  eexists. eexists. eexists. eexists. split; [ reflexivity | ].
  cbn [Datastore Dispatcher]. split.
  - destruct (Dispatcher_Close_failure _), (Datastore_Close_failure ds); reflexivity.
  - split; [ reflexivity | ]. split; [ reflexivity | ]. split; [ reflexivity | ].
    unfold closedDatastore, Datastore_Close. cbn [fst journal].
    rewrite closes_app, Hc. reflexivity.
Qed.

(** X15. [Dispose] keeps no record of having run: on a sandbox that holds
    both handles a second call closes the dispatcher and the datastore a
    second time, in the same order. *)
Theorem Dispose_twice_closes_twice (dc : DevContext) (d : dispatch_Dispatcher)
    (ds : datastore_Datastore) :
  Dispatcher dc = Some d -> Datastore dc = Some ds ->
  exists dc1 events1 dc2 events2 d2 ds2,
    Dispose dc = Returned (dc1, events1)
    /\ Dispose dc1 = Returned (dc2, events2)
    /\ closeEvents (events1 ++ events2)
       = [EvDispatcherClose; EvDatastoreClose; EvDispatcherClose; EvDatastoreClose]
    /\ Dispatcher dc2 = Some d2 /\ dispatcherClosed d2 = S (S (dispatcherClosed d))
    /\ Datastore dc2 = Some ds2 /\ closes (journal ds2) = closes (journal ds) + 2.
Proof.
  intros Hd Hds.
  pose (dc1 := {| Datastore := Some (closedDatastore ds); Revision := Revision dc;
                  CompiledSchema := CompiledSchema dc;
                  Dispatcher := Some (closedDispatcher d) |}).
  pose proof (Dispose_both dc d ds Hd Hds) as H1.
  pose proof (Dispose_both dc1 (closedDispatcher d) (closedDatastore ds)
                eq_refl eq_refl) as H2.
  exists dc1. eexists. eexists. eexists. eexists. eexists.
  split; [ exact H1 | ]. split; [ exact H2 | ]. split.
  - unfold closeEvents. rewrite !filter_app. cbn [filter logFailure].
    destruct (Dispatcher_Close_failure d), (Datastore_Close_failure ds),
      (Dispatcher_Close_failure (closedDispatcher d)),
      (Datastore_Close_failure (closedDatastore ds)); reflexivity.
  - cbn [Datastore Dispatcher]. split; [ reflexivity | ]. split; [ reflexivity | ].
    split; [ reflexivity | ].
    unfold closedDatastore, Datastore_Close. cbn [fst journal].
    rewrite !closes_app. cbn. lia.
Qed.

End FailuresAndDisposal.

(** The write of [document] fails after [user] was written: the error, an
    empty list of developer errors, and an empty datastore. *)
Lemma NewDevContext_returns_error_with_developer_errors_witness :
  let r := @NewDevContext SampleFaults.envFailingWrites Sample.wellFormed in
  developerErrors r = Some {| InputErrors := [] |}
  /\ failure r = Some SampleFaults.writeError
  /\ option_map storedNamespaces (created r) = Some [].
Proof.
  destruct (@NewDevContext_returns_error_with_developer_errors
              SampleFaults.envFailingWrites Sample.wellFormed
              {| ObjectDefinitions := [Sample.user; Sample.document];
                 CaveatDefinitions := [] |}
              {| txCaveats := []; txNamespaces := [Sample.user]; txRelationships := [];
                 txJournal := [OpWriteNamespaces Sample.user] |}
              [] [] SampleFaults.writeError eq_refl (fun _ => eq_refl) eq_refl eq_refl)
    as (_ & Hd & Hf & ds & Hc & _ & Hns & _).
  cbv zeta. split; [ exact Hd | ]. split; [ exact Hf | ].
  rewrite Hc. cbn [option_map]. rewrite Hns. reflexivity.
Defined.

Lemma NewDevContext_stops_at_compile_failure_witness :
  let r := @NewDevContext Sample.env SampleFaults.unparsable in
  developerErrors r = Some {| InputErrors := [Sample.parseError] |}
  /\ failure r = None
  /\ option_map journal (created r) = Some [OpClose].
Proof.
  assert (Hfail : @None error <> None \/ Some Sample.parseError <> None)
    by (right; discriminate).
  pose proof (@NewDevContext_stops_at_compile_failure Sample.env SampleFaults.unparsable
                {| ObjectDefinitions := []; CaveatDefinitions := [] |}
                (Some Sample.parseError) None eq_refl (fun _ => eq_refl) eq_refl Hfail)
    as H.
  destruct H as (_ & Hf & Hd & Hj).
  split; [ exact Hd | ]. split; [ exact Hf | exact Hj ].
Defined.

Lemma Dispose_of_a_built_sandbox_witness :
  exists dc dc' events,
    sandbox (@NewDevContext Sample.env Sample.wellFormed) = Some dc
    /\ @Dispose Sample.env dc = Returned (dc', events)
    /\ closeEvents events = [EvDispatcherClose; EvDatastoreClose].
Proof.
  assert (Hs : exists dc,
             sandbox (@NewDevContext Sample.env Sample.wellFormed) = Some dc)
    by (eexists; reflexivity).
  destruct Hs as [dc Hs].
  destruct (@Dispose_of_a_built_sandbox Sample.env Sample.wellFormed dc Hs)
    as (dc' & events & d' & ds' & Hrun & Hev & _).
  exists dc, dc', events. split; [ exact Hs | ]. split; [ exact Hrun | exact Hev ].
Defined.

Lemma Dispose_twice_closes_twice_witness :
  let dc := {| Datastore := Some emptyStore; Revision := revisionAt 1;
               CompiledSchema := {| ObjectDefinitions := []; CaveatDefinitions := [] |};
               Dispatcher := Some (NewLocalOnlyDispatcher 10) |} in
  exists dc1 events1 dc2 events2,
    @Dispose Sample.env dc = Returned (dc1, events1)
    /\ @Dispose Sample.env dc1 = Returned (dc2, events2)
    /\ option_map dispatcherClosed (Dispatcher dc2) = Some 2.
Proof.
  cbv zeta.
  destruct (@Dispose_twice_closes_twice Sample.env
              {| Datastore := Some emptyStore; Revision := revisionAt 1;
                 CompiledSchema := {| ObjectDefinitions := []; CaveatDefinitions := [] |};
                 Dispatcher := Some (NewLocalOnlyDispatcher 10) |}
              (NewLocalOnlyDispatcher 10) emptyStore eq_refl eq_refl)
    as (dc1 & events1 & dc2 & events2 & d2 & ds2 & H1 & H2 & _ & Hd & Hcount & _).
  exists dc1, events1, dc2, events2. split; [ exact H1 | ]. split; [ exact H2 | ].
  rewrite Hd. cbn [option_map]. rewrite Hcount. reflexivity.
Defined.

(* ================================================================== *)
(** ** Found subjects: when the functions panic, and how they agree *)

Section FoundSubjectPanics.
Import developmentmembership.

Lemma some_conditional (l : list FoundSubject) :
  forallb unconditional l = false -> existsb conditional l = true.
Proof.
  unfold conditional. induction l as [|x rest IH]; [ discriminate | ].
  cbn [forallb existsb]. destruct (unconditional x); cbn [negb andb orb]; auto.
Qed.

Lemma collectExcludedIDs_unconditional excluded : forall acc,
  forallb unconditional excluded = true ->
  collectExcludedIDs excluded acc
  = Returned (acc ++ map ObjectId (map subject excluded)).
Proof.
  induction excluded as [|x rest IH]; intros acc Hall; cbn.
  - rewrite app_nil_r. reflexivity.
  - cbn in Hall. apply andb_true_iff in Hall. destruct Hall as [Hx Hrest].
    unfold unconditional in Hx. unfold notNil. rewrite Hx. cbn.
    rewrite (IH _ Hrest), <- app_assoc. reflexivity.
Qed.

Lemma collectExcludedIDs_conditional excluded : forall acc,
  existsb conditional excluded = true ->
  collectExcludedIDs excluded acc = Panicked "not yet supported".
Proof.
  induction excluded as [|x rest IH]; intros acc Hex; cbn in *; [ discriminate | ].
  unfold conditional, unconditional, notNil in *.
  destruct (isNil (caveatExpression x)); cbn in *; [ apply IH; exact Hex | reflexivity ].
Qed.

Lemma ExcludedSubjectsFromWildcard_returns (fs : FoundSubject) :
  returns (ExcludedSubjectsFromWildcard fs)
  = negb (isWildcard fs) || forallb unconditional (excludedSubjects fs).
Proof.
  destruct (isWildcard fs) eqn:Hw; cbn [negb orb].
  - destruct (forallb unconditional (excludedSubjects fs)) eqn:Hall.
    + rewrite (ExcludedSubjectsFromWildcard_wildcard fs Hw Hall). reflexivity.
    + rewrite (ExcludedSubjectsFromWildcard_panics fs Hw (some_conditional _ Hall)).
      reflexivity.
  - rewrite (ExcludedSubjectsFromWildcard_other fs Hw). reflexivity.
Qed.

(** X16. The three functions that may panic do so in exactly these cases:
    [ExcludedSubjectsFromWildcard] when the subject is a wildcard and one of
    its excluded entries carries a caveat expression; [ToValidationString]
    in that case and when the found subject itself carries one;
    [excludedSubjectIDs] when an excluded entry carries one, wildcard or
    not. In every other case they return. *)
Theorem found_subject_panics_exactly_when (fs : FoundSubject) :
  returns (ExcludedSubjectsFromWildcard fs)
  = negb (isWildcard fs) || forallb unconditional (excludedSubjects fs)
  /\ returns (ToValidationString fs)
     = unconditional fs
       && (negb (isWildcard fs) || forallb unconditional (excludedSubjects fs))
  /\ returns (excludedSubjectIDs fs) = forallb unconditional (excludedSubjects fs).
Proof.
  split; [ apply ExcludedSubjectsFromWildcard_returns | ]. split.
  - rewrite <- ExcludedSubjectsFromWildcard_returns.
    unfold ToValidationString, unconditional, notNil.
    destruct (isNil (caveatExpression fs)); cbn [negb andb]; [ | reflexivity ].
    destruct (ExcludedSubjectsFromWildcard fs) as [[excluded wildcard]|msg];
      cbn [bind returns]; [ | reflexivity ].
    destruct (wildcard && (0 <? List.length excluded)%nat); reflexivity.
  - unfold excludedSubjectIDs.
    destruct (forallb unconditional (excludedSubjects fs)) eqn:Hall.
    + rewrite (collectExcludedIDs_unconditional _ _ Hall). reflexivity.
    + rewrite (collectExcludedIDs_conditional _ _ (some_conditional _ Hall)).
      reflexivity.
Qed.

(** X17. On a wildcard, [excludedSubjectIDs] is [ExcludedSubjectsFromWildcard]
    followed by taking the object ids: the same panic, or the object ids of
    the same subjects in the same order. On a found subject that is not a
    wildcard the two differ: [ExcludedSubjectsFromWildcard] returns the empty
    list without looking at the excluded entries, [excludedSubjectIDs] still
    walks them. *)
Theorem excludedSubjectIDs_follows_ExcludedSubjectsFromWildcard (fs : FoundSubject) :
  (isWildcard fs = true ->
   excludedSubjectIDs fs
   = (r <- ExcludedSubjectsFromWildcard fs ;; Returned (map ObjectId (fst r))))
  /\ (isWildcard fs = false ->
      ExcludedSubjectsFromWildcard fs = Returned ([], false)
      /\ (forallb unconditional (excludedSubjects fs) = true ->
          excludedSubjectIDs fs
          = Returned (map ObjectId (map subject (excludedSubjects fs))))
      /\ (forallb unconditional (excludedSubjects fs) = false ->
          excludedSubjectIDs fs = Panicked "not yet supported")).
Proof.
  unfold excludedSubjectIDs. split.
  - intros Hw. destruct (forallb unconditional (excludedSubjects fs)) eqn:Hall.
    + rewrite (ExcludedSubjectsFromWildcard_wildcard fs Hw Hall).
      rewrite (collectExcludedIDs_unconditional _ _ Hall). reflexivity.
    + rewrite (ExcludedSubjectsFromWildcard_panics fs Hw (some_conditional _ Hall)).
      rewrite (collectExcludedIDs_conditional _ _ (some_conditional _ Hall)).
      reflexivity.
  - intros Hw. split; [ apply ExcludedSubjectsFromWildcard_other; exact Hw | ]. split.
    + intros Hall. rewrite (collectExcludedIDs_unconditional _ _ Hall). reflexivity.
    + intros Hall.
      apply (collectExcludedIDs_conditional _ _ (some_conditional _ Hall)).
Qed.

(** X18. [WildcardType] and [ExcludedSubjectsFromWildcard] agree on what a
    wildcard is, the object id alone deciding it: whenever the latter
    returns, its flag is that of [WildcardType]; with the flag goes the
    namespace of the subject, and without it the empty string and an empty
    list of exclusions. *)
Theorem WildcardType_agrees_with_ExcludedSubjectsFromWildcard (fs : FoundSubject) :
  snd (WildcardType fs) = String.eqb (ObjectId (Subject fs)) tuple.PublicWildcard
  /\ fst (WildcardType fs)
     = (if snd (WildcardType fs) then Namespace (Subject fs) else "")
  /\ forall excluded wildcard,
       ExcludedSubjectsFromWildcard fs = Returned (excluded, wildcard) ->
       wildcard = snd (WildcardType fs) /\ (wildcard = false -> excluded = []).
Proof.
  unfold WildcardType, ExcludedSubjectsFromWildcard, Subject.
  destruct (String.eqb (ObjectId (subject fs)) tuple.PublicWildcard); cbn [fst snd].
  - split; [ reflexivity | ]. split; [ reflexivity | ].
    intros excluded wildcard.
    destruct (collectExcluded (excludedSubjects fs) []); cbn [bind]; [ | discriminate ].
    intros [= _ <-]. split; [ reflexivity | discriminate ].
  - split; [ reflexivity | ]. split; [ reflexivity | ].
    intros excluded wildcard [= <- <-]. split; reflexivity.
Qed.

(** X19. A found subject made by [NewFoundSubject] is unconditional and has
    no exclusions, whatever its subject and resources; so none of the
    functions panics on it, its rendering is that of its subject alone, a
    wildcard included, and its list of excluded subjects is empty. *)
Theorem NewFoundSubject_is_plain (onr : ObjectAndRelation)
    (resources : list ObjectAndRelation) :
  let fs := NewFoundSubject onr resources in
  Subject fs = onr
  /\ GetCaveatExpression fs = None /\ GetExcludedSubjects fs = []
  /\ ToValidationString fs = Returned (tuple.StringONR onr)
  /\ ExcludedSubjectsFromWildcard fs = Returned ([], snd (WildcardType fs))
  /\ excludedSubjectIDs fs = Returned [].
Proof.
  cbv zeta. split; [ reflexivity | ]. split; [ reflexivity | ].
  split; [ reflexivity | ]. split.
  - apply (ToValidationString_plain (NewFoundSubject onr resources) eq_refl).
    right. reflexivity.
  - split; [ | reflexivity ].
    unfold ExcludedSubjectsFromWildcard, WildcardType, NewFoundSubject.
    cbn [subject excludedSubjects].
    destruct (String.eqb (ObjectId onr) tuple.PublicWildcard); reflexivity.
Qed.

Lemma collectExcluded_same (l1 l2 : list FoundSubject) : forall acc,
  map (fun x => (subject x, unconditional x)) l1
  = map (fun x => (subject x, unconditional x)) l2 ->
  collectExcluded l1 acc = collectExcluded l2 acc.
Proof.
  revert l2. induction l1 as [|x r1 IH]; intros [|y r2] acc Hmap;
    try discriminate; [ reflexivity | ].
  cbn [map] in Hmap. injection Hmap as Hs Hu Hrest.
  cbn [collectExcluded]. unfold unconditional in Hu. unfold notNil.
  rewrite Hu, Hs. destruct (isNil (caveatExpression y)); cbn [negb];
    [ apply IH; exact Hrest | reflexivity ].
Qed.

(** X20. The rendering of a found subject looks at nothing but its subject,
    whether it carries a caveat expression, and, of each excluded entry, the
    subject and whether it carries one: the relationships, the caveat
    expressions themselves and whatever the excluded entries hold besides
    make no difference, to the result or to the panic. *)
Theorem ToValidationString_depends_on_subjects_only (fs fs' : FoundSubject) :
  subject fs = subject fs' ->
  unconditional fs = unconditional fs' ->
  map (fun x => (subject x, unconditional x)) (excludedSubjects fs)
  = map (fun x => (subject x, unconditional x)) (excludedSubjects fs') ->
  ToValidationString fs = ToValidationString fs'
  /\ ExcludedSubjectsFromWildcard fs = ExcludedSubjectsFromWildcard fs'.
Proof.
  intros Hs Hu Hex.
  assert (Hsame : ExcludedSubjectsFromWildcard fs = ExcludedSubjectsFromWildcard fs').
  { unfold ExcludedSubjectsFromWildcard. rewrite Hs.
    rewrite (collectExcluded_same _ _ [] Hex). reflexivity. }
  split; [ | exact Hsame ].
  unfold ToValidationString, Subject. unfold unconditional in Hu. unfold notNil.
  rewrite Hsame, Hs, Hu. reflexivity.
Qed.

End FoundSubjectPanics.

Section FoundSubjectPanicsExamples.
Import developmentmembership SampleSubjects.

(** Alice, a concrete subject, with an exclusion that is conditional. *)
Lemma excludedSubjectIDs_follows_ExcludedSubjectsFromWildcard_witness :
  excludedSubjectIDs allButTwo = Returned ["bob"; "alice"]
  /\ ExcludedSubjectsFromWildcard
       (mkFoundSubject alice (excludedSubjects allButMaybeBob) None []) 
     = Returned ([], false)
  /\ excludedSubjectIDs (mkFoundSubject alice (excludedSubjects allButMaybeBob) None [])
     = Panicked "not yet supported".
Proof.
  destruct (excludedSubjectIDs_follows_ExcludedSubjectsFromWildcard allButTwo)
    as [Hwild _].
  split; [ rewrite (Hwild eq_refl); reflexivity | ].
  destruct (excludedSubjectIDs_follows_ExcludedSubjectsFromWildcard
              (mkFoundSubject alice (excludedSubjects allButMaybeBob) None []))
    as [_ Hother].
  destruct (Hother eq_refl) as (Hempty & _ & Hpanic).
  split; [ exact Hempty | exact (Hpanic eq_refl) ].
Defined.

Lemma WildcardType_agrees_with_ExcludedSubjectsFromWildcard_witness :
  WildcardType allButTwo = ("user", true) /\ WildcardType justAlice = ("", false)
  /\ snd (WildcardType allButTwo) = true.
Proof.
  destruct (WildcardType_agrees_with_ExcludedSubjectsFromWildcard allButTwo)
    as (_ & _ & Hflag).
  destruct (Hflag [bob; alice] true eq_refl) as [Hw _].
  split; [ reflexivity | ]. split; [ reflexivity | ]. symmetry. exact Hw.
Defined.

(** The same wildcard found through other relationships, with exclusions
    that have exclusions and relationships of their own. *)
Lemma ToValidationString_depends_on_subjects_only_witness :
  ToValidationString
    (mkFoundSubject everyone
       [mkFoundSubject bob [banned alice] None [plan]; banned alice] None [plan])
  = ToValidationString allButTwo.
Proof.
  apply (ToValidationString_depends_on_subjects_only
           (mkFoundSubject everyone
              [mkFoundSubject bob [banned alice] None [plan]; banned alice] None [plan])
           allButTwo); reflexivity.
Defined.

End FoundSubjectPanicsExamples.

(* ================================================================== *)
(** ** The namespace storage of package [postgres] *)

Section NamespaceStorage.
Import postgres.
Context {D : Driver}.

Lemma loadNamespace_results (name : string) (tx : Database) :
  match loadNamespace name tx with
  | (loaded, version, None) => loaded <> None
  | (loaded, version, Some _) => loaded = None /\ version = NoRevision
  end.
Proof.
  unfold loadNamespace.
  destruct (ToSql _) as [sql|err]; [ | split; reflexivity ].
  destruct (QueryRowScan tx sql) as [[config version]|err].
  - destruct (proto_Unmarshal config); [ discriminate | split; reflexivity ].
  - destruct (isErrNoRows err); split; reflexivity.
Qed.

(** X21. [WriteNamespace] is all or nothing. When it returns an error, that
    error is the failure that occurred wrapped under "unable to write
    namespace config", the revision is [NoRevision], and the database is as
    it was. When it returns no error, the database is what
    [createNewTransaction] left with one row added to the namespace table,
    carrying the name, the serialized definition and the new transaction as
    its creation; the revision returned is that of the new transaction. *)
Theorem WriteNamespace_all_or_nothing (db : Database) (newConfig : NamespaceDefinition) :
  let '(db', rev, err) := WriteNamespace db newConfig in
  match err with
  | Some e =>
      db' = db /\ rev = NoRevision
      /\ exists cause, e = wrapError errUnableToWriteConfig cause
  | None =>
      exists serialized tx newTxnID,
        proto_Marshal newConfig = inl serialized
        /\ createNewTransaction db = (tx, newTxnID, None)
        /\ rev = revisionFromTransaction newTxnID
        /\ tableNamespace db'
           = tableNamespace tx
             ++ [insertedRow (NamespaceDefinition_Name newConfig) serialized newTxnID]
        /\ tableTuple db' = tableTuple tx /\ otherTables db' = otherTables tx
  end.
Proof.
  unfold WriteNamespace, BeginTxx, ToSql, ExecContext, Commit, writeNamespace, fmt_Errorf.
  destruct (proto_Marshal newConfig) as [serialized|err];
    [ | repeat split; eexists; reflexivity ].
  destruct (BeginTxx_failure db); [ repeat split; eexists; reflexivity | ].
  destruct (createNewTransaction db) as [[tx newTxnID] [err|]] eqn:Hnew;
    [ repeat split; eexists; reflexivity | ].
  destruct (ToSql_failure _); [ repeat split; eexists; reflexivity | ].
  destruct (ExecContext_failure tx _); [ repeat split; eexists; reflexivity | ].
  destruct (Commit_failure _); [ repeat split; eexists; reflexivity | ].
  exists serialized, tx, newTxnID. repeat split.
Qed.

(** X22. [ReadNamespace] never changes the database. When it returns no
    error it returns a definition. When it returns an error it returns no
    definition and [NoRevision], and the error is either
    [ErrNamespaceNotFound] itself, unwrapped, or a failure wrapped under
    "unable to read namespace config". *)
Theorem ReadNamespace_reads_only (db : Database) (nsName : string) :
  let '(db', loaded, rev, err) := ReadNamespace db nsName in
  db' = db
  /\ match err with
     | None => loaded <> None
     | Some e =>
         loaded = None /\ rev = NoRevision
         /\ (e = ErrNamespaceNotFound
             \/ exists cause, e = wrapError errUnableToReadConfig cause)
     end.
Proof.
  unfold ReadNamespace, BeginTxx, fmt_Errorf.
  destruct (BeginTxx_failure db) as [err|].
  { split; [ reflexivity | ]. repeat split. right. eexists. reflexivity. }
  pose proof (loadNamespace_results nsName db) as Hload.
  destruct (loadNamespace nsName db) as [[loaded version] [e|]].
  - destruct e; (split; [ reflexivity | ]); repeat split;
      first [ left; reflexivity | right; eexists; reflexivity ].
  - split; [ reflexivity | exact Hload ].
Qed.

Lemma matches_liveRow (name : string) (row : NamespaceRow) :
  forallb (namespaceRowMatches row) (readNamespace ++ [EqNamespace name])
  = liveRow name row.
Proof.
  unfold readNamespace, liveRow. cbn. rewrite andb_true_r. reflexivity.
Qed.

Lemma filter_matches_liveRow (name : string) (rows : list NamespaceRow) :
  filter (fun row => forallb (namespaceRowMatches row) (readNamespace ++ [EqNamespace name]))
    rows
  = filter (liveRow name) rows.
Proof. apply filter_ext. intros row. apply matches_liveRow. Qed.

Lemma loadNamespace_found (name : string) (tx : Database) (row : NamespaceRow)
    (others : list NamespaceRow) (def : NamespaceDefinition) :
  faultless ->
  filter (liveRow name) (tableNamespace tx) = row :: others ->
  proto_Unmarshal (colConfig row) = inl def ->
  loadNamespace name tx = (Some def, scanRevision (colCreatedTxn row), None).
Proof.
  intros (_ & Hsql & _ & Hscan & _) Hrows Hdef.
  unfold loadNamespace, ToSql, QueryRowScan. rewrite Hsql, Hscan.
  rewrite filter_matches_liveRow, Hrows, Hdef. reflexivity.
Qed.

Lemma loadNamespace_missing (name : string) (tx : Database) :
  faultless ->
  filter (liveRow name) (tableNamespace tx) = [] ->
  loadNamespace name tx = (None, NoRevision, Some ErrNamespaceNotFound).
Proof.
  intros (_ & Hsql & _ & Hscan & _) Hrows.
  unfold loadNamespace, ToSql, QueryRowScan. rewrite Hsql, Hscan.
  rewrite filter_matches_liveRow, Hrows. reflexivity.
Qed.

(** X23. Round trip: on a database that reports no failure and holds no
    live definition of the name, writing a definition and reading its name
    back gives that definition, at the revision read from the transaction of
    the write. This needs three things from outside the file: that
    [Unmarshal] undoes [Marshal] on the definition, that an inserted row is
    live, and that [createNewTransaction] leaves the namespace table
    alone. *)
Theorem ReadNamespace_after_WriteNamespace
    (db tx : Database) (newConfig : NamespaceDefinition) (serialized : string)
    (newTxnID : N) :
  faultless ->
  deletedTxnDefault = liveDeletedTxnID ->
  proto_Marshal newConfig = inl serialized ->
  proto_Unmarshal serialized = inl newConfig ->
  createNewTransaction db = (tx, newTxnID, None) ->
  tableNamespace tx = tableNamespace db ->
  filter (liveRow (NamespaceDefinition_Name newConfig)) (tableNamespace db) = [] ->
  let '(db', rev, err) := WriteNamespace db newConfig in
  err = None /\ rev = revisionFromTransaction newTxnID
  /\ ReadNamespace db' (NamespaceDefinition_Name newConfig)
     = (db', Some newConfig, scanRevision newTxnID, None).
Proof.
  intros Hfault Hdefault Hmarshal Hunmarshal Hnew Hkeeps Hnone.
  pose proof Hfault as (Hbegin & Hsql & Hexec & Hscan & Hcommit).
  unfold WriteNamespace, BeginTxx, ToSql, ExecContext, Commit, writeNamespace.
  rewrite Hmarshal, Hbegin, Hnew, Hsql, Hexec, Hcommit.
  split; [ reflexivity | ]. split; [ reflexivity | ].
  unfold ReadNamespace, BeginTxx. rewrite Hbegin.
  rewrite (loadNamespace_found (NamespaceDefinition_Name newConfig) _
             (insertedRow (NamespaceDefinition_Name newConfig) serialized newTxnID)
             [] newConfig Hfault).
  - reflexivity.
  - cbn [tableNamespace]. rewrite filter_app, Hkeeps, Hnone. cbn [app filter].
    unfold liveRow, insertedRow. cbn [colDeletedTxn colNamespace].
    rewrite Hdefault, N.eqb_refl, String.eqb_refl. reflexivity.
  - exact Hunmarshal.
Qed.

Lemma deleteNamespaceRow_retireRow txn name created row :
  deleteNamespaceRow txn (deleteNamespace ++ [EqNamespace name; EqCreatedTxn created]) row
  = retireRow txn name created row.
Proof.
  unfold deleteNamespaceRow, retireRow, deleteNamespace, liveRow. cbn.
  rewrite andb_true_r, andb_assoc. reflexivity.
Qed.

Lemma deleteTupleRow_retireTuple txn name row :
  deleteTupleRow txn (deleteNamespaceTuples ++ [EqNamespace name]) row
  = retireTuple txn name row.
Proof.
  unfold deleteTupleRow, retireTuple, deleteNamespaceTuples, liveTuple. cbn.
  rewrite andb_true_r. reflexivity.
Qed.

Lemma DeleteNamespace_run (db tx : Database) (nsName : string) (row : NamespaceRow)
    (others : list NamespaceRow) (def : NamespaceDefinition) (newTxnID : N) :
  faultless ->
  filter (liveRow nsName) (tableNamespace db) = row :: others ->
  proto_Unmarshal (colConfig row) = inl def ->
  revisionValue (scanRevision (colCreatedTxn row)) = colCreatedTxn row ->
  createNewTransaction db = (tx, newTxnID, None) ->
  DeleteNamespace db nsName
  = ({| tableNamespace :=
          map (retireRow newTxnID nsName (colCreatedTxn row)) (tableNamespace tx);
        tableTuple := map (retireTuple newTxnID nsName) (tableTuple tx);
        otherTables := otherTables tx |},
     scanRevision (colCreatedTxn row), None).
Proof.
  intros Hfault Hrows Hdef Hrev Hnew.
  pose proof Hfault as (Hbegin & Hsql & Hexec & Hscan & Hcommit).
  unfold DeleteNamespace, BeginTxx. rewrite Hbegin.
  rewrite (loadNamespace_found nsName db row others def Hfault Hrows Hdef).
  rewrite Hnew. unfold ToSql, ExecContext, Commit.
  rewrite !Hsql, !Hexec, Hcommit, Hrev.
  cbn [tableNamespace tableTuple otherTables].
  f_equal. f_equal. f_equal.
  - apply map_ext. intros r. apply deleteNamespaceRow_retireRow.
  - apply map_ext. intros r. apply deleteTupleRow_retireTuple.
Qed.

(** X24. On a database that reports no failure, [DeleteNamespace] of a name
    that has a live definition marks as deleted, at the new transaction,
    the live rows of that name created at the transaction of the definition
    it loaded, and every live tuple of that name; all other rows and tuples
    are as [createNewTransaction] left them. It returns the revision at
    which the deleted definition was created, not that of the deleting
    transaction. *)
Theorem DeleteNamespace_marks_definition_and_tuples
    (db tx : Database) (nsName : string) (row : NamespaceRow)
    (others : list NamespaceRow) (def : NamespaceDefinition) (newTxnID : N) :
  faultless ->
  filter (liveRow nsName) (tableNamespace db) = row :: others ->
  proto_Unmarshal (colConfig row) = inl def ->
  revisionValue (scanRevision (colCreatedTxn row)) = colCreatedTxn row ->
  createNewTransaction db = (tx, newTxnID, None) ->
  let '(db', rev, err) := DeleteNamespace db nsName in
  err = None
  /\ rev = scanRevision (colCreatedTxn row)
  /\ tableNamespace db'
     = map (retireRow newTxnID nsName (colCreatedTxn row)) (tableNamespace tx)
  /\ tableTuple db' = map (retireTuple newTxnID nsName) (tableTuple tx)
  /\ otherTables db' = otherTables tx
  /\ (forall t, In t (tableTuple tx) -> liveTuple nsName t = false ->
      In t (tableTuple db'))
  /\ (forall t, In t (tableTuple db') -> String.eqb (tupleNamespace t) nsName = true ->
      tupleDeletedTxn t = newTxnID \/ N.eqb (tupleDeletedTxn t) liveDeletedTxnID = false).
Proof.
  intros Hfault Hrows Hdef Hrev Hnew.
  rewrite (DeleteNamespace_run db tx nsName row others def newTxnID
             Hfault Hrows Hdef Hrev Hnew).
  cbn [tableNamespace tableTuple otherTables].
  repeat (split; [ reflexivity | ]). split.
  - intros t Hin Hdead. apply in_map_iff. exists t. split; [ | exact Hin ].
    unfold retireTuple. rewrite Hdead. reflexivity.
  - intros t Hin Hname. apply in_map_iff in Hin. destruct Hin as (t0 & <- & _).
    unfold retireTuple, liveTuple in *.
    destruct (N.eqb (tupleDeletedTxn t0) liveDeletedTxnID) eqn:Hlive;
      cbn [andb] in *.
    + destruct (String.eqb (tupleNamespace t0) nsName) eqn:Hn.
      * left. reflexivity.
      * cbn [tupleNamespace] in Hname. congruence.
    + right. exact Hlive.
Qed.

Lemma retired_rows_not_live txn name created (rows : list NamespaceRow) :
  txn <> liveDeletedTxnID ->
  (forall r, In r rows -> liveRow name r = true -> colCreatedTxn r = created) ->
  filter (liveRow name) (map (retireRow txn name created) rows) = [].
Proof.
  intros Htxn. induction rows as [|r rest IH]; intros Hall; [ reflexivity | ].
  cbn [map filter]. rewrite IH by (intros r' Hin; apply Hall; right; exact Hin).
  unfold retireRow. destruct (liveRow name r) eqn:Hlive; cbn [andb].
  - rewrite (Hall r (or_introl eq_refl) Hlive), N.eqb_refl.
    unfold liveRow. cbn [colDeletedTxn colNamespace].
    apply N.eqb_neq in Htxn. rewrite Htxn. reflexivity.
  - rewrite Hlive. reflexivity.
Qed.

(** X25. A namespace that has no live definition is reported by
    [ReadNamespace] and by [DeleteNamespace] as [ErrNamespaceNotFound]
    itself, unwrapped, and the database is left as it was. That is the case
    in particular after a [DeleteNamespace] of a name all of whose live
    definitions were created at one transaction, provided the new
    transaction is not the live marker and [createNewTransaction] leaves the
    namespace table alone. *)
Theorem namespace_not_found_after_delete
    (db tx : Database) (nsName : string) (row : NamespaceRow)
    (others : list NamespaceRow) (def : NamespaceDefinition) (newTxnID : N) :
  faultless ->
  (forall db0, filter (liveRow nsName) (tableNamespace db0) = [] ->
     ReadNamespace db0 nsName = (db0, None, NoRevision, Some ErrNamespaceNotFound)
     /\ DeleteNamespace db0 nsName = (db0, NoRevision, Some ErrNamespaceNotFound))
  /\ (filter (liveRow nsName) (tableNamespace db) = row :: others ->
      (forall r, In r (tableNamespace db) -> liveRow nsName r = true ->
         colCreatedTxn r = colCreatedTxn row) ->
      proto_Unmarshal (colConfig row) = inl def ->
      revisionValue (scanRevision (colCreatedTxn row)) = colCreatedTxn row ->
      createNewTransaction db = (tx, newTxnID, None) ->
      tableNamespace tx = tableNamespace db ->
      newTxnID <> liveDeletedTxnID ->
      let '(db', _, _) := DeleteNamespace db nsName in
      ReadNamespace db' nsName = (db', None, NoRevision, Some ErrNamespaceNotFound)).
Proof.
  intros Hfault. pose proof Hfault as (Hbegin & _).
  assert (Hmissing : forall db0,
             filter (liveRow nsName) (tableNamespace db0) = [] ->
             ReadNamespace db0 nsName
             = (db0, None, NoRevision, Some ErrNamespaceNotFound)
             /\ DeleteNamespace db0 nsName
                = (db0, NoRevision, Some ErrNamespaceNotFound)).
  { intros db0 Hnone. unfold ReadNamespace, DeleteNamespace, BeginTxx.
    rewrite Hbegin, (loadNamespace_missing nsName db0 Hfault Hnone).
    split; reflexivity. }
  split; [ exact Hmissing | ].
  intros Hrows Hunique Hdef Hrev Hnew Hkeeps Htxn.
  rewrite (DeleteNamespace_run db tx nsName row others def newTxnID
             Hfault Hrows Hdef Hrev Hnew).
  apply Hmissing. cbn [tableNamespace]. rewrite Hkeeps.
  apply retired_rows_not_live; assumption.
Qed.

End NamespaceStorage.

Section NamespaceStorageExamples.
Import postgres SamplePostgres.

Lemma sample_faultless : @faultless driver.
Proof. repeat split. Qed.

(** Writing [user] into the empty database and reading it back. *)
Lemma ReadNamespace_after_WriteNamespace_witness :
  let '(db', rev, err) := @WriteNamespace driver emptyDatabase Sample.user in
  err = None /\ rev = 1%N
  /\ @ReadNamespace driver db' "user" = (db', Some Sample.user, 1%N, None).
Proof.
  exact (@ReadNamespace_after_WriteNamespace driver emptyDatabase
           {| tableNamespace := []; tableTuple := []; otherTables := [1%N] |}
           Sample.user "user" 1%N sample_faultless eq_refl eq_refl eq_refl eq_refl
           eq_refl eq_refl).
Defined.

(** Deleting [user]: its definition and its two tuples are marked at
    transaction 2, the tuple of [document] stays live, and the revision
    returned is 1, that of the definition. *)
Lemma DeleteNamespace_marks_definition_and_tuples_witness :
  let '(db', rev, err) := @DeleteNamespace driver populated "user" in
  err = None /\ rev = 1%N
  /\ map tupleDeletedTxn (tableTuple db') = [2%N; live; 2%N]
  /\ map colDeletedTxn (tableNamespace db') = [2%N].
Proof.
  pose proof (@DeleteNamespace_marks_definition_and_tuples driver populated
                {| tableNamespace := tableNamespace populated;
                   tableTuple := tableTuple populated; otherTables := [1%N; 2%N] |}
                "user"
                {| colNamespace := "user"; colConfig := "user";
                   colCreatedTxn := 1; colDeletedTxn := live |}
                [] Sample.user 2%N sample_faultless eq_refl eq_refl eq_refl eq_refl)
    as H.
  destruct (@DeleteNamespace driver populated "user") as [[db' rev] err].
  destruct H as (He & Hr & Hns & Ht & _).
  split; [ exact He | ]. split; [ exact Hr | ].
  rewrite Ht, Hns. split; reflexivity.
Defined.

Lemma namespace_not_found_after_delete_witness :
  @ReadNamespace driver emptyDatabase "user"
  = (emptyDatabase, None, 0%N, Some ErrNamespaceNotFound)
  /\ let '(db', _, _) := @DeleteNamespace driver populated "user" in
     @ReadNamespace driver db' "user" = (db', None, 0%N, Some ErrNamespaceNotFound).
Proof.
  destruct (@namespace_not_found_after_delete driver populated
              {| tableNamespace := tableNamespace populated;
                 tableTuple := tableTuple populated; otherTables := [1%N; 2%N] |}
              "user"
              {| colNamespace := "user"; colConfig := "user";
                 colCreatedTxn := 1; colDeletedTxn := live |}
              [] Sample.user 2%N sample_faultless) as [Hmissing Hafter].
  split; [ apply (Hmissing emptyDatabase eq_refl) | ].
  apply Hafter; try reflexivity.
  - intros r [<-|[]] _. reflexivity.
  - discriminate.
Defined.

(** The commit fails: the error comes back wrapped, and nothing was
    written. *)
Example WriteNamespace_failing_commit :
  @WriteNamespace driverFailingCommit emptyDatabase Sample.user
  = (emptyDatabase, 0%N, Some (wrapError errUnableToWriteConfig connectionLost)).
Proof. reflexivity. Qed.

End NamespaceStorageExamples.
